(** * Mycopunk hex solver: a shallow embedding of the packing search

    The development follows the three source files:
    - [hexgrid.js]: odd-q hex coordinates, rotation and translation, the
      rectangular board;
    - [solver-worker.js]: the backtracking worker (occupancy arrays with depth
      stamps, most-constrained-piece selection, bound pruning, signatures);
    - [app.js]: the coordinator (placement compiler, packing into flat tables,
      work partitioning, aggregation of the workers' reports).

    JavaScript numbers that hold integers are modelled as [Z]; the contents of
    [Int16Array]/[Int32Array] that are written during the search are wrapped to
    their width on every store. *)

From Stdlib Require Import ZArith List Lia Bool.
From stdpp Require Import base tactics option list numbers gmap.

Local Open Scope Z_scope.

(* ===================================================================== *)
(** * Part 1 — hex coordinates (hexgrid.js, and the copies in the worker) *)
(* ===================================================================== *)

(** [class Hex]: the fields [q] and [r]; [s] is always [-q - r]. *)
Record Hex : Type := mkHex { q : Z; r : Z }.

Definition s (h : Hex) : Z := - q h - r h.

Global Instance Hex_eq_dec : EqDecision Hex.
Proof. solve_decision. Defined.

(** JavaScript [&] with the constant 1: the lowest bit of the two's-complement
    representation, 0 or 1 also for negative numbers. *)
Definition and1 (x : Z) : Z := Z.land x 1.

(** [(x - (x & 1)) / 2]: the numerator is even, so the floating-point division
    of the source is exact and equals the integer quotient. *)
Definition half_even (x : Z) : Z := (x - and1 x) / 2.

(** JavaScript [%] truncates towards zero ([Z.rem]); [((t % 6) + 6) % 6]. *)
Definition norm6 (t : Z) : Z := Z.rem (Z.rem t 6 + 6) 6.

Module HexGrid.

(** The loop body of [rotateHex] in hexgrid.js:
    [nx = -z; ny = -x; nz = -y]. *)
Definition step (c : Z * Z * Z) : Z * Z * Z :=
  let '(x, y, z) := c in (- z, - x, - y).

Fixpoint iter_step (n : nat) (c : Z * Z * Z) : Z * Z * Z :=
  match n with
  | O => c
  | S n' => iter_step n' (step c)
  end.

(** [function rotateHex(hex, times)] (hexgrid.js 177-198). *)
Definition rotateHex (hex : Hex) (times : Z) : Hex :=
  let times := norm6 times in
  if times =? 0 then mkHex (q hex) (r hex)
  else
    let axial_q := q hex in
    let axial_r := r hex - half_even (q hex) in
    let '(x, y, _) :=
      iter_step (Z.to_nat times) (axial_q, axial_r, - axial_q - axial_r) in
    let offset_q := x in
    let offset_r := y + half_even x in
    mkHex offset_q offset_r.

(** [function addHex(a, b)] (hexgrid.js 200-215). *)
Definition addHex (a b : Hex) : Hex :=
  let a_axial_q := q a in
  let a_axial_r := r a - half_even (q a) in
  let b_axial_q := q b in
  let b_axial_r := r b - half_even (q b) in
  let sum_axial_q := a_axial_q + b_axial_q in
  let sum_axial_r := a_axial_r + b_axial_r in
  let offset_q := sum_axial_q in
  let offset_r := sum_axial_r + half_even sum_axial_q in
  mkHex offset_q offset_r.

(** [function subtractHex(a, b)] (hexgrid.js 217-232). *)
Definition subtractHex (a b : Hex) : Hex :=
  let a_axial_q := q a in
  let a_axial_r := r a - half_even (q a) in
  let b_axial_q := q b in
  let b_axial_r := r b - half_even (q b) in
  let diff_axial_q := a_axial_q - b_axial_q in
  let diff_axial_r := a_axial_r - b_axial_r in
  mkHex diff_axial_q (diff_axial_r + half_even diff_axial_q).

(** [HEX_DIRECTIONS] and [neighbor] (hexgrid.js 26-37); the direction index
    is always one of 0..5 at the call site in [neighbors]. *)
Definition HEX_DIRECTIONS : list Hex :=
  [mkHex 1 0; mkHex 1 (-1); mkHex 0 (-1); mkHex (-1) 0; mkHex (-1) 1; mkHex 0 1].

Definition add (a b : Hex) : Hex := mkHex (q a + q b) (r a + r b).

Definition neighbor (hex : Hex) (direction : nat) : Hex :=
  add hex (default (mkHex 0 0) (HEX_DIRECTIONS !! (direction mod 6)%nat)).

(** [subtract], [scale] and [hex_distance] (hexgrid.js 32-41). A hex built
    by the constructor has [s = -q - r], so the three differences sum to zero,
    the sum of their absolute values is even and the division is exact. *)
Definition subtract (a b : Hex) : Hex := mkHex (q a - q b) (r a - r b).

Definition scale (a : Hex) (k : Z) : Hex := mkHex (q a * k) (r a * k).

Definition hex_distance (a b : Hex) : Z :=
  (Z.abs (q a - q b) + Z.abs (r a - r b) + Z.abs (s a - s b)) / 2.

(** [Hex.key()]: the string [q + ',' + r]; two integer coordinates print the
    same string exactly when they are equal, so the pair stands for it. *)
Definition key (h : Hex) : Z * Z := (q h, r h).

(** [class HexGrid]: [this.cells] is a [Map] from keys to [{hex, data}]. The
    solver never reads [data]; the grid is kept as the list of its hexes in
    insertion order. [generateRect] sets every key once. *)
Definition generateRect (width height q0 r0 : Z) : list Hex :=
  flat_map (fun qi => map (fun ri => mkHex qi ri) (seqZ r0 height)) (seqZ q0 width).

Definition has (cells : list Hex) (hex : Hex) : bool :=
  bool_decide (key hex ∈ map key cells).

Definition get (cells : list Hex) (hex : Hex) : option Hex :=
  List.find (fun c => bool_decide (key c = key hex)) cells.

(** [neighbors(hex)]: the existing cells among the six neighbours. *)
Definition neighbors (cells : list Hex) (hex : Hex) : list Hex :=
  omap (fun i => get cells (neighbor hex i)) (seq 0 6).

End HexGrid.

(** A stable sort, as [Array.prototype.sort] is: [le x y] says that [x] may
    stand before [y]; among elements that compare equal the input order is
    kept. *)
Fixpoint insertBy {A : Type} (le : A -> A -> bool) (x : A) (l : list A) : list A :=
  match l with
  | [] => [x]
  | y :: l' => if le x y then x :: l else y :: insertBy le x l'
  end.

Definition stableSort {A : Type} (le : A -> A -> bool) (l : list A) : list A :=
  foldr (insertBy le) [] l.

(** A signature is the array handed to [JSON.stringify]: pairs
    [[cellIdx, pieceId]]; two such arrays print the same string exactly when
    they are equal, so the string is modelled by the list itself. *)
Definition Signature : Type := list (nat * Z).

(** [cellToPiece.sort((a, b) => a[0] - b[0])] *)
Definition sortByCell (l : Signature) : Signature :=
  stableSort (fun a b => (a.1 <=? b.1)%nat) l.

(** What a worker posts and the coordinator shows: [{ piece, anchor, rot }].
    [anchor] is [boardCells[anchorIdx]], which is [undefined] ([None]) when the
    index is outside the board. *)
Record Exported : Type := mkExported { piece : Z; anchor : option Hex; erot : Z }.

Global Instance Exported_eq_dec : EqDecision Exported.
Proof. solve_decision. Defined.

(** The [COMPLETE] message of a worker. *)
Record Complete : Type := mkComplete {
  c_solutions : list (list Exported);
  c_coverage : Z;
  c_searchCount : Z;
  c_workerId : nat
}.

(* ===================================================================== *)
(** * Part 2 — the search worker (solver-worker.js)                       *)
(* ===================================================================== *)

Module Worker.

(** [axialToOddQ] and [oddQToAxial] (solver-worker.js 15-21). *)
Definition axialToOddQ (h : Hex) : Hex := mkHex (q h) (r h + half_even (q h)).
Definition oddQToAxial (h : Hex) : Hex := mkHex (q h) (r h - half_even (q h)).

(** The loop body of the worker's [rotateHex]: [[q, r, s] = [-r, -s, -q]]. *)
Definition step (c : Z * Z * Z) : Z * Z * Z :=
  let '(cq, cr, cs) := c in (- cr, - cs, - cq).

Fixpoint iter_step (n : nat) (c : Z * Z * Z) : Z * Z * Z :=
  match n with
  | O => c
  | S n' => iter_step n' (step c)
  end.

(** [function rotateHex(h, steps)] (solver-worker.js 23-30). *)
Definition rotateHex (h : Hex) (steps : Z) : Hex :=
  let ax := oddQToAxial h in
  let '(cq, cr, _) := iter_step (Z.to_nat (norm6 steps)) (q ax, r ax, s ax) in
  axialToOddQ (mkHex cq cr).

(** [function addHex(a, b)] (solver-worker.js 32-37). *)
Definition addHex (a b : Hex) : Hex :=
  let aa := oddQToAxial a in
  let bb := oddQToAxial b in
  let sum := mkHex (q aa + q bb) (r aa + r bb) in
  axialToOddQ sum.

(** ** Typed arrays *)

(** A store into an [IntNArray] keeps the low [bits] bits, read back as a
    signed number. *)
Definition wrapInt (bits : Z) (x : Z) : Z :=
  (x + 2 ^ (bits - 1)) mod 2 ^ bits - 2 ^ (bits - 1).
Definition toInt16 : Z -> Z := wrapInt 16.
Definition toInt32 : Z -> Z := wrapInt 32.

(** ** The data of the [START] message *)

(** [pieces: [{id, size}]] *)
Record PieceInfo : Type := mkPieceInfo { p_id : Z; p_size : Z }.

(** One placement of [placementsMeta]: the six integers
    [pieceIdx, pieceId, anchorIdx, rot, targetsStart, targetsLen] that the
    source reads at [base + 0 .. base + 5] with [base = pIdx * 6]. *)
Record Meta : Type := mkMeta {
  m_pieceIdx : nat;
  m_pieceId : Z;
  m_anchorIdx : nat;
  m_rot : Z;
  m_tStart : nat;
  m_tLen : nat
}.

(** The read-only tables. They are the ones the coordinator packs
    ([App.packMeta] and [App.startData] below), where index-valued entries are
    natural numbers and every read of the search is in range; reads outside a
    table follow the total list operations here (an absent row reads as
    [noMeta], a slice is cut at the end of the array), where JavaScript would
    yield [undefined]. *)
Record SolveData : Type := mkSolveData {
  pieces : list PieceInfo;
  boardSize : Z;
  pieceOrder : list nat;
  workerId : nat;
  boardCells : list Hex;
  neighbors : list (list nat);
  placementsMeta : list Meta;
  placementsTargets : list nat;
  piecePlacementStart : list nat;
  piecePlacementCount : list nat;
  assignedPlacementIndices : list nat;
  initialBestCoverage : Z
}.

(** ** Worker state *)

(** The arrays and the counter local to [solve]: [occupancy] is an
    [Int16Array] holding a piece index or -1, [depthStamp] an [Int32Array]. *)
Record Board : Type := mkBoard {
  occupancy : list Z;
  depthStamp : list Z;
  depth : Z
}.

(** The module-level variables [searchCount], [bestCoverage], [topSolutions]
    and the set [seenSignatures] of [solve]. A JavaScript [Set] of strings is
    used only through [has], [add] and [clear]; it is kept as the list of
    the signatures added since the last [clear]. *)
Record Best : Type := mkBest {
  searchCount : Z;
  bestCoverage : Z;
  topSolutions : list (list Exported);
  seenSignatures : list Signature
}.

(** An entry of [currentSolution]: [{ pieceId, anchorIdx, rot, pIdx }]. *)
Record Item : Type := mkItem {
  pieceId : Z;
  anchorIdx : nat;
  rot : Z;
  pIdx : nat
}.

Section Search.

Variable d : SolveData.

(** [shouldStop] is written only by the message handler; [solve] runs to
    completion inside the handler of [START], so the flag is constant
    during one search. *)
Variable shouldStop : bool.

Definition noMeta : Meta := mkMeta 0 0 0 0 0 0.

Definition meta (pIdx : nat) : Meta := default noMeta (placementsMeta d !! pIdx).

(** The cells visited by
    [for (let ti = tStart; ti < tStart + tLen; ti++) placementsTargets[ti]]. *)
Definition targetsOf (pIdx : nat) : list nat :=
  take (m_tLen (meta pIdx)) (drop (m_tStart (meta pIdx)) (placementsTargets d)).

(** [occupancy[cellIdx] = pieceIdx; depthStamp[cellIdx] = depth]: a store
    outside a typed array is ignored. *)
Definition stamp (pieceIdx : Z) (dep : Z) (b : list Z * list Z) (cellIdx : nat) :
    list Z * list Z :=
  (<[cellIdx := toInt16 pieceIdx]> (b.1), <[cellIdx := toInt32 dep]> (b.2)).

(** [function applyPlacementByIndex(pIdx, pieceIdx)] (94-104). *)
Definition applyPlacementByIndex (pIdx : nat) (pieceIdx : nat) (b : Board) : Board :=
  let dep := depth b + 1 in
  let os := foldl (stamp (Z.of_nat pieceIdx) dep) (occupancy b, depthStamp b)
                  (targetsOf pIdx) in
  mkBoard os.1 os.2 dep.

(** The body of the loop of [undoPlacementByIndex]: a cell is cleared only
    if it still carries the current depth. *)
Definition unstamp (dep : Z) (b : list Z * list Z) (cellIdx : nat) : list Z * list Z :=
  if bool_decide (b.2 !! cellIdx = Some dep)
  then (<[cellIdx := -1]> (b.1), <[cellIdx := 0]> (b.2))
  else b.

(** [function undoPlacementByIndex(pIdx)] (106-118). *)
Definition undoPlacementByIndex (pIdx : nat) (b : Board) : Board :=
  let os := foldl (unstamp (depth b)) (occupancy b, depthStamp b) (targetsOf pIdx) in
  mkBoard os.1 os.2 (depth b - 1).

(** [occupancy[c] !== -1] is false exactly when the cell exists and holds
    -1; a read outside the array is [undefined], which differs from -1. *)
Definition cellFree (occ : list Z) (c : nat) : bool :=
  bool_decide (occ !! c = Some (-1)).

(** [function neighborsOccupiedCount(idx)] (120-127); [neighbors[idx] || []]. *)
Definition neighborsOccupiedCount (occ : list Z) (idx : nat) : nat :=
  length (filter (fun n => cellFree occ n = false) (default [] (neighbors d !! idx))).

(** [function sumRemainingSizes(remainingPieces)] (129-133). *)
Definition pieceSize (pi : nat) : Z := default 0 (p_size <$> pieces d !! pi).

Definition sumRemainingSizes (remainingPieces : list nat) : Z :=
  foldl (fun acc pi => acc + pieceSize pi) 0 remainingPieces.

(** [function exportSolution(sol)] (139-142). *)
Definition exportSolution (sol : list Item) : list Exported :=
  map (fun p => mkExported (pieceId p) (boardCells d !! anchorIdx p) (rot p)) sol.

(** [function getSolutionCellSignature(sol)] (144-163). *)
Definition cellToPiece (sol : list Item) : Signature :=
  flat_map (fun placement => map (fun cellIdx => (cellIdx, pieceId placement))
                                 (targetsOf (pIdx placement))) sol.

Definition getSolutionCellSignature (sol : list Item) : Signature :=
  sortByCell (cellToPiece sol).

(** [searchCount++] (line 170). *)
Definition countNode (best : Best) : Best :=
  mkBest (searchCount best + 1) (bestCoverage best) (topSolutions best)
         (seenSignatures best).

(** Lines 177-189 of [backtrack]: recording the current solution. *)
Definition record (currentSolution : list Item) (coverage : Z) (st : Best) : Best :=
  if bestCoverage st <? coverage then
    mkBest (searchCount st) coverage [exportSolution currentSolution]
           [getSolutionCellSignature currentSolution]
  else if (coverage =? bestCoverage st) && (0 <? coverage) then
    let signature := getSolutionCellSignature currentSolution in
    if bool_decide (signature ∈ seenSignatures st) then st
    else mkBest (searchCount st) (bestCoverage st)
                (topSolutions st ++ [exportSolution currentSolution])
                (seenSignatures st ++ [signature])
  else st.

(** The placement indices of a piece: [pStart + off] for [off < pCount]. *)
Definition placementsOf (pi : nat) : list nat :=
  seq (default 0%nat (piecePlacementStart d !! pi))
      (default 0%nat (piecePlacementCount d !! pi)).

(** The inner test of lines 211-214 and 241-245: all target cells read -1. *)
Definition placementFree (occ : list Z) (pIdx : nat) : bool :=
  forallb (cellFree occ) (targetsOf pIdx).

(** [bestCount] starts as [Infinity] ([None]). *)
Definition reaches (count : nat) (bestCount : option nat) : bool :=
  match bestCount with
  | None => false
  | Some b => (b <=? count)%nat
  end.

Definition below (count : nat) (bestCount : option nat) : bool :=
  match bestCount with
  | None => true
  | Some b => (count <? b)%nat
  end.

(** Lines 205-219: counting the free placements of one piece, leaving the
    loop as soon as [count >= bestCount]. *)
Fixpoint countFree (occ : list Z) (bestCount : option nat) (pIdxs : list nat)
    (count : nat) : nat :=
  match pIdxs with
  | [] => count
  | pIdx :: rest =>
      if placementFree occ pIdx then
        if reaches (S count) bestCount then S count
        else countFree occ bestCount rest (S count)
      else countFree occ bestCount rest count
  end.

(** Lines 197-224: the loop over [remainingPieces]; [bestRi = -1] is
    [None]. The result is the final [bestRi]. *)
Fixpoint selectFrom (occ : list Z) (remainingPieces : list nat) (ri : nat)
    (bestRi : option nat) (bestCount : option nat) : option nat :=
  match remainingPieces with
  | [] => bestRi
  | pi :: rest =>
      let count := countFree occ bestCount (placementsOf pi) 0 in
      if (0 <? count)%nat && below count bestCount
      then selectFrom occ rest (S ri) (Some ri) (Some count)
      else selectFrom occ rest (S ri) bestRi bestCount
  end.

Definition selectPiece (occ : list Z) (remainingPieces : list nat) : option nat :=
  selectFrom occ remainingPieces 0 None None.

(** Lines 246-249: the adjacency score of a placement. *)
Definition adjacency (occ : list Z) (pIdx : nat) : nat :=
  foldl (fun adj cellIdx => (adj + neighborsOccupiedCount occ cellIdx)%nat) 0%nat
        (targetsOf pIdx).

(** Lines 235-254: the free placements of the chosen piece as pairs
    [(pIdx, adj)], sorted by [b.adj - a.adj]. *)
Definition validPlacements (occ : list Z) (chosenPi : nat) : list (nat * nat) :=
  omap (fun pIdx => if placementFree occ pIdx
                    then Some (pIdx, adjacency occ pIdx) else None)
       (placementsOf chosenPi).

Definition sortValid (valid : list (nat * nat)) : list (nat * nat) :=
  stableSort (fun a b => (b.2 <=? a.2)%nat) valid.

(** [remainingPieces.slice(0, bestRi).concat(remainingPieces.slice(bestRi + 1))] *)
Definition removeAt (remainingPieces : list nat) (bestRi : nat) : list nat :=
  take bestRi remainingPieces ++ drop (S bestRi) remainingPieces.

Definition itemOf (pIdx : nat) : Item :=
  mkItem (m_pieceId (meta pIdx)) (m_anchorIdx (meta pIdx)) (m_rot (meta pIdx)) pIdx.

(** Lines 257-273: the loop over the sorted candidates. [rec pIdx] stands
    for the recursive call made for the candidate [pIdx]; it receives the
    board after [applyPlacementByIndex]. *)
Fixpoint tryPlacements (rec : nat -> Board * Best -> bool * (Board * Best))
    (chosenPi : nat) (valid : list (nat * nat)) (st : Board * Best) :
    bool * (Board * Best) :=
  match valid with
  | [] => (false, st)
  | v :: valid' =>
      if shouldStop then (true, st)
      else
        let b1 := applyPlacementByIndex v.1 chosenPi st.1 in
        let '(stopped, st2) := rec v.1 (b1, st.2) in
        let b3 := undoPlacementByIndex v.1 st2.1 in
        if stopped then (true, (b3, st2.2))
        else tryPlacements rec chosenPi valid' (b3, st2.2)
  end.

(** [function backtrack(remainingPieces, remainingSum, currentSolution,
    coverage)] (167-274). Every call removes one piece from
    [remainingPieces]; [fuel] bounds the nesting and [backtrack] below
    supplies more than the length of [remainingPieces]. The progress
    message (lines 171-175) reads the clock and changes no variable of the
    search; it is left out. [currentSolution.push]/[pop] around the
    recursive call are the list [currentSolution ++ [item]] passed down. *)
Fixpoint backtrackN (fuel : nat) (remainingPieces : list nat) (remainingSum : Z)
    (currentSolution : list Item) (coverage : Z) (st : Board * Best) :
    bool * (Board * Best) :=
  match fuel with
  | O => (false, st)
  | S fuel' =>
      if shouldStop then (true, st)
      else
        let best2 := record currentSolution coverage (countNode st.2) in
        let st2 := (st.1, best2) in
        if boardSize d <=? coverage then (true, st2)
        else if coverage + remainingSum <=? bestCoverage best2 then (false, st2)
        else if bool_decide (remainingPieces = []) then (false, st2)
        else
          match selectPiece (occupancy st.1) remainingPieces with
          | None => (false, st2)
          | Some bestRi =>
              let chosenPi := default 0%nat (remainingPieces !! bestRi) in
              let valid := validPlacements (occupancy st.1) chosenPi in
              if bool_decide (valid = []) then (false, st2)
              else
                let newRemaining := removeAt remainingPieces bestRi in
                let newRemainingSum := remainingSum - pieceSize chosenPi in
                tryPlacements
                  (fun pIdx st' =>
                     backtrackN fuel' newRemaining newRemainingSum
                                (currentSolution ++ [itemOf pIdx])
                                (coverage + Z.of_nat (m_tLen (meta pIdx))) st')
                  chosenPi (sortValid valid) st2
          end
  end.

Definition backtrack (remainingPieces : list nat) (remainingSum : Z)
    (currentSolution : list Item) (coverage : Z) (st : Board * Best) :
    bool * (Board * Best) :=
  backtrackN (S (length remainingPieces)) remainingPieces remainingSum
             currentSolution coverage st.

(** Lines 276-279. *)
Definition firstPieceIdx : nat := default 0%nat (pieceOrder d !! 0%nat).
Definition remainingAfterFirst : list nat := drop 1 (pieceOrder d).
Definition remainingAfterFirstSum : Z := sumRemainingSizes remainingAfterFirst.

(** [placementsMeta[base + 1] || pieces[firstPieceIdx].id] *)
Definition firstItem (pIdx : nat) : Item :=
  let pieceId :=
    if m_pieceId (meta pIdx) =? 0
    then default 0 (p_id <$> pieces d !! firstPieceIdx)
    else m_pieceId (meta pIdx) in
  mkItem pieceId (m_anchorIdx (meta pIdx)) (m_rot (meta pIdx)) pIdx.

(** One round of the loop of lines 281-297 (after the [shouldStop] test):
    the value returned by [backtrack] is not used. *)
Definition solveStep (pIdx : nat) (st : Board * Best) : Board * Best :=
  let b1 := applyPlacementByIndex pIdx firstPieceIdx st.1 in
  let initialSolution := [firstItem pIdx] in
  let '(_, st2) := backtrack remainingAfterFirst remainingAfterFirstSum
                             initialSolution (Z.of_nat (m_tLen (meta pIdx)))
                             (b1, st.2) in
  let b3 := undoPlacementByIndex pIdx st2.1 in
  (mkBoard (occupancy b3) (depthStamp b3) 0, st2.2).

Fixpoint solveLoop (assigned : list nat) (st : Board * Best) : Board * Best :=
  match assigned with
  | [] => st
  | pIdx :: rest =>
      if shouldStop then st
      else solveLoop rest (solveStep pIdx st)
  end.

(** Lines 89-92: a cleared board. [boardSize] is the number of cells. *)
Definition initialBoard : Board :=
  mkBoard (replicate (Z.to_nat (boardSize d)) (-1))
          (replicate (Z.to_nat (boardSize d)) 0) 0.

(** The state set up by the [START] handler (lines 54-58) and [solve]. *)
Definition initialBest : Best := mkBest 0 (initialBestCoverage d) [] [].

Definition solveState : Board * Best :=
  solveLoop (assignedPlacementIndices d) (initialBoard, initialBest).

(** [function solve(data)]: the final [COMPLETE] message (line 300). *)
Definition solve : Complete :=
  let st := solveState in
  mkComplete (topSolutions st.2) (bestCoverage st.2) (searchCount st.2) (workerId d).

End Search.

(** The handler of [START] clears [shouldStop] before it calls [solve]. *)
Definition onStart (d : SolveData) : Complete := solve d false.

End Worker.

(* ===================================================================== *)
(** * Part 3 — the coordinator (app.js, [solveWithWorkers])               *)
(* ===================================================================== *)

Module App.

(** A piece of the collection: [{ id, colorKey, color, cells }]; the colours
    play no part in the search. *)
Record Piece : Type := mkPiece { id : Z; cells : list Hex }.

(** What the page provides when [solve] is pressed: the two board inputs as
    parsed by [parseInt], the collection, the rotation checkbox and
    [navigator.hardwareConcurrency] (0 when absent). *)
Record Input : Type := mkInput {
  boardW : Z;
  boardH : Z;
  pieces : list Piece;
  allowRotations : bool;
  hardwareConcurrency : nat
}.

(** An entry of [piecePlacements[pi]] (lines 396-402). *)
Record Placement : Type := mkPlacement {
  pieceIdx : nat;
  pieceId : Z;
  anchorIdx : nat;
  rot : Z;
  targets : list nat
}.

(** [boardCells.forEach((hex, idx) => cellIndexMap.set(hex.key(), idx))] *)
Fixpoint indexCells (boardCells : list Hex) (idx : nat) (m : gmap (Z * Z) nat) :
    gmap (Z * Z) nat :=
  match boardCells with
  | [] => m
  | hex :: rest => indexCells rest (S idx) (<[HexGrid.key hex := idx]> m)
  end.

Section Compile.

Variable inp : Input.

(** Lines 357-364. *)
Definition w : Z := Z.max 1 (boardW inp).
Definition h : Z := Z.max 1 (boardH inp).
Definition boardGrid : list Hex := HexGrid.generateRect w h 0 0.
Definition boardSize : Z := w * h.

(** Lines 367-374. *)
Definition boardCells : list Hex := boardGrid.
Definition cellIndexMap : gmap (Z * Z) nat := indexCells boardCells 0 ∅.
Definition cellIndex (hex : Hex) : option nat := cellIndexMap !! HexGrid.key hex.

Definition neighbors : list (list nat) :=
  map (fun hex => map (fun n => default 0%nat (cellIndex n))
                      (HexGrid.neighbors boardGrid hex)) boardCells.

(** [HexGrid.add(anchor, HexGrid.rotate(off, rot))] *)
Definition target (anchor : Hex) (rot : Z) (off : Hex) : Hex :=
  HexGrid.addHex anchor (HexGrid.rotateHex off rot).

(** Lines 383-394: the loop over [piece.cells] leaves at the first target
    off the board; otherwise every target index is pushed. *)
Definition placementTargets (piece : Piece) (rot : Z) (anchor : Hex) :
    option (list nat) :=
  if forallb (fun off => HexGrid.has boardGrid (target anchor rot off)) (cells piece)
  then Some (map (fun off => default 0%nat (cellIndex (target anchor rot off)))
                 (cells piece))
  else None.

Definition rotLimit : nat := if allowRotations inp then 6%nat else 1%nat.

(** Lines 377-407: [piecePlacements]. *)
Definition placementsOfPiece (pi : nat) (piece : Piece) : list Placement :=
  flat_map (fun rot =>
    omap (fun anchor =>
            match placementTargets piece (Z.of_nat rot) anchor with
            | Some targets =>
                Some (mkPlacement pi (id piece) (default 0%nat (cellIndex anchor))
                                  (Z.of_nat rot) targets)
            | None => None
            end) boardGrid) (seq 0 rotLimit).

Definition piecePlacements : list (list Placement) :=
  imap placementsOfPiece (pieces inp).

Definition placementCount (pi : nat) : nat :=
  length (default [] (piecePlacements !! pi)).

(** Lines 410-412: the static order, fewest placements first. *)
Definition pieceOrder : list nat :=
  stableSort (fun a b => (placementCount a <=? placementCount b)%nat)
             (seq 0 (length (pieces inp))).

(** [navigator.hardwareConcurrency || 4] *)
Definition numWorkers : nat :=
  match hardwareConcurrency inp with O => 4%nat | n => n end.

(** Lines 491-524: packing. The running [targetCursor] is the start of the
    targets of each placement. Every entry goes through an [Int32Array]: the
    indices, rotations and lengths are stored unchanged, a piece id is wrapped
    to 32 bits. *)
Fixpoint packMeta (pls : list Placement) (targetCursor : nat) : list Worker.Meta :=
  match pls with
  | [] => []
  | pl :: rest =>
      Worker.mkMeta (pieceIdx pl) (Worker.toInt32 (pieceId pl)) (anchorIdx pl) (rot pl)
                    targetCursor (length (targets pl))
      :: packMeta rest (targetCursor + length (targets pl))
  end.

Definition placementsMeta : list Worker.Meta := packMeta (concat piecePlacements) 0.

Definition placementsTargets : list nat := concat (map targets (concat piecePlacements)).

(** [piecePlacementStart[pi] = placementIdx] at the start of piece [pi]. *)
Fixpoint packStart (lists : list (list Placement)) (placementIdx : nat) : list nat :=
  match lists with
  | [] => []
  | list :: rest => placementIdx :: packStart rest (placementIdx + length list)
  end.

Definition piecePlacementStart : list nat := packStart piecePlacements 0.
Definition piecePlacementCount : list nat := map length piecePlacements.

(** Lines 527-530; [Math.ceil(firstPieceCount / numWorkers)]. *)
Definition placementsPerWorker (firstPieceCount : nat) : nat :=
  ((firstPieceCount + numWorkers - 1) / numWorkers)%nat.

(** [pieces.map(p => ({ id: p.id, size: p.cells.length }))] *)
Definition pieceInfos : list Worker.PieceInfo :=
  map (fun p => Worker.mkPieceInfo (id p) (Z.of_nat (length (cells p)))) (pieces inp).

(** The [START] message of worker [i] (lines 604-621). The global
    [bestCoverage] is still 0 when the messages are posted: no report is
    handled before the spawning loop ends. *)
Definition startData (i : nat) (assigned : list nat) : Worker.SolveData :=
  Worker.mkSolveData pieceInfos boardSize pieceOrder i boardCells neighbors
    placementsMeta placementsTargets piecePlacementStart piecePlacementCount
    assigned 0.

(** Lines 533-540: the spawning loop, [n] rounds left, worker [i] next. It
    ends at the first [i] with [i * placementsPerWorker >= firstPieceCount]. *)
Fixpoint spawn (firstPieceStart firstPieceCount : nat) (n i : nat) :
    list Worker.SolveData :=
  match n with
  | O => []
  | S n' =>
      let ppw := placementsPerWorker firstPieceCount in
      if (i * ppw <? firstPieceCount)%nat then
        let startIdx := (i * ppw)%nat in
        let endIdx := Nat.min (startIdx + ppw) firstPieceCount in
        startData i (seq (firstPieceStart + startIdx) (endIdx - startIdx))
        :: spawn firstPieceStart firstPieceCount n' (S i)
      else []
  end.

(** With an empty collection [pieceOrder[0]] is [undefined], the count is
    [undefined], and the loop condition compares with [NaN]: no worker. *)
Definition workers : list Worker.SolveData :=
  match pieceOrder !! 0%nat with
  | None => []
  | Some firstPieceIdx =>
      spawn (default 0%nat (piecePlacementStart !! firstPieceIdx))
            (default 0%nat (piecePlacementCount !! firstPieceIdx))
            numWorkers 0
  end.

(** The reports, in the order of the workers. *)
Definition reports : list Complete := map Worker.onStart workers.

(** [pieces.find(p => p.id === placement.piece)] *)
Definition findPiece (pid : Z) : option Piece :=
  List.find (fun p => id p =? pid) (pieces inp).

(** Lines 451-459 and 471-484: the replay of one exported placement. In
    the source an [undefined] anchor raises a [TypeError]; such a placement
    contributes no cell here. *)
Definition replay (placement : Exported) : list Hex :=
  match findPiece (piece placement), anchor placement with
  | Some pc, Some a => map (fun off => target a (erot placement) off) (cells pc)
  | _, _ => []
  end.

(** [function getSolutionCellSignature(solution)] (467-489). *)
Definition cellToPiece (solution : list Exported) : Signature :=
  flat_map (fun placement =>
              omap (fun t => match cellIndex t with
                             | Some cellIdx => Some (cellIdx, piece placement)
                             | None => None
                             end) (replay placement)) solution.

Definition getSolutionCellSignature (solution : list Exported) : Signature :=
  sortByCell (cellToPiece solution).

(** The variables updated by the handler of worker messages. *)
Record Global : Type := mkGlobal {
  bestCoverage : Z;
  topSolutions : list (list Exported);
  completedWorkers : nat
}.

(** Lines 564-572: merging a report tied with the global best. *)
Fixpoint mergeSolutions (existingSignatures : list Signature)
    (top : list (list Exported)) (solutions : list (list Exported)) :
    list (list Exported) :=
  match solutions with
  | [] => top
  | newSol :: rest =>
      let signature := getSolutionCellSignature newSol in
      if bool_decide (signature ∈ existingSignatures)
      then mergeSolutions existingSignatures top rest
      else mergeSolutions (existingSignatures ++ [signature]) (top ++ [newSol]) rest
  end.

(** Lines 549-574: the handler of a [COMPLETE] message. *)
Definition onComplete (g : Global) (data : Complete) : Global :=
  if bestCoverage g <? c_coverage data then
    mkGlobal (c_coverage data) (c_solutions data) (S (completedWorkers g))
  else if c_coverage data =? bestCoverage g then
    mkGlobal (bestCoverage g)
             (mergeSolutions (map getSolutionCellSignature (topSolutions g))
                             (topSolutions g) (c_solutions data))
             (S (completedWorkers g))
  else mkGlobal (bestCoverage g) (topSolutions g) (S (completedWorkers g)).

Definition initialGlobal : Global := mkGlobal 0 [] 0.

Definition aggregate (arrived : list Complete) : Global :=
  foldl onComplete initialGlobal arrived.

(** The run is final inside the handler of the last [COMPLETE] message
    (line 576, [completedWorkers >= workers.length]); when no worker was
    spawned no message ever arrives and the final block is never run.
    [arrived] lists the reports in their order of arrival. *)
Definition final (arrived : list Complete) : option Global :=
  match arrived with
  | [] => None
  | _ :: _ =>
      let g := aggregate arrived in
      if (length workers <=? completedWorkers g)%nat then Some g else None
  end.

End Compile.

(** [solveWithWorkers] when the reports arrive in the order of the workers. *)
Definition solveWithWorkers (inp : Input) : option Global := final inp (reports inp).

End App.

(* ===================================================================== *)
(** * Part 3b — the grid class with its cell data (hexgrid.js)            *)
(* ===================================================================== *)

Module Grid.

(** A value of the map [this.cells]: [{hex, data}], with [data: null] as
    [None]. [D] is the type of the other [data] values; the pages store
    [{color}] objects. *)
Record Cell (D : Type) : Type := mkCell { hex : Hex; data : option D }.

Arguments mkCell {D} _ _.
Arguments hex {D} _.
Arguments data {D} _.

(** [this.cells]: a [Map] from [hex.key()] to cells. Every entry is written by
    [set] or by a generator, under the key of the hex it stores, so the key is
    read off the stored hex. A [Map] iterates in insertion order; the list
    holds the values in that order. *)
Definition Cells (D : Type) : Type := list (Cell D).

(** The key of an entry. *)
Definition keyOf {D : Type} (c : Cell D) : Z * Z := HexGrid.key (hex c).

(** [set(hex, data)] (86-88), as [Map.prototype.set] does it: the value of a
    key that is present is replaced in place, a new key goes to the end. *)
Fixpoint set {D : Type} (g : Cells D) (h : Hex) (dat : option D) : Cells D :=
  match g with
  | [] => [mkCell h dat]
  | c :: g' =>
      if bool_decide (keyOf c = HexGrid.key h) then mkCell h dat :: g'
      else c :: set g' h dat
  end.

(** [get(hex)] (90-92): [this.cells.get(hex.key()) || null]. *)
Definition get {D : Type} (g : Cells D) (h : Hex) : option (Cell D) :=
  List.find (fun c => bool_decide (keyOf c = HexGrid.key h)) g.

(** [has(hex)] (94). *)
Definition has {D : Type} (g : Cells D) (h : Hex) : bool :=
  bool_decide (HexGrid.key h ∈ map keyOf g).

(** [forEach(fn)] (96-98) and [getCellsArray()] (167-171) visit the values in
    insertion order. *)
Definition getCellsArray {D : Type} (g : Cells D) : list (Cell D) := g.

(** [clearData()] (173-175). *)
Definition clearData {D : Type} (g : Cells D) : Cells D :=
  map (fun c => mkCell (hex c) None) g.

(** The body shared by the two generators: after [this.cells.clear()] every
    hex of the loops is entered with [data: null]. *)
Definition fill {D : Type} (hexes : list Hex) : Cells D :=
  foldl (fun g h => set g h None) [] hexes.

(** [generateRect(width, height, q0, r0)] (153-165). *)
Definition generateRect {D : Type} (width height q0 r0 : Z) : Cells D :=
  fill (flat_map (fun qi => map (fun ri => mkHex qi ri) (seqZ r0 height))
                 (seqZ q0 width)).

(** [generateRadius(radius)] (73-84): [q] runs from [-radius] to [radius],
    [r] from [r1] to [r2]. *)
Definition generateRadius {D : Type} (radius : Z) : Cells D :=
  fill (flat_map (fun qi =>
                    let r1 := Z.max (- radius) (- qi - radius) in
                    let r2 := Z.min radius (- qi + radius) in
                    map (fun ri => mkHex qi ri) (seqZ r1 (r2 - r1 + 1)))
                 (seqZ (- radius) (2 * radius + 1))).

(** [neighbors(hex)] (100-108). *)
Definition neighbors {D : Type} (g : Cells D) (h : Hex) : list (Cell D) :=
  omap (fun i => get g (HexGrid.neighbor h i)) (seq 0 6).

(** [range(center, radius)] (110-120). *)
Definition range {D : Type} (g : Cells D) (center : Hex) (radius : Z) : list (Cell D) :=
  flat_map (fun dq =>
              let lo := Z.max (- radius) (- dq - radius) in
              let hi := Z.min radius (- dq + radius) in
              omap (fun dr => get g (HexGrid.add center (mkHex dq dr)))
                   (seqZ lo (hi - lo + 1)))
           (seqZ (- radius) (2 * radius + 1)).

End Grid.

(* ===================================================================== *)
(** * Part 3c — the collection and the solution pager (app.js)            *)
(* ===================================================================== *)

Module Ui.

(** [pieces] and [pieceIdSeq] (app.js 14-15). A piece is kept as
    [{id, cells}]; its colour fields play no part in what follows. *)
Record Collection : Type := mkCollection { pieces : list App.Piece; pieceIdSeq : Z }.

(** The state before [loadCollection] finds anything to load. *)
Definition initial : Collection := mkCollection [] 1.

(** [onAddPiece()] (146-190). [cells] are the coloured hexes of the editor
    grid in the order of [forEach]; an empty selection returns at line 153.
    The centre [(centerQ, centerR)] is computed from the mean of the cells by
    floating-point rounding (lines 156-175); it is a parameter here. The
    offsets are [HexGrid.subtract(h, centre)], the new piece takes the id
    [pieceIdSeq++] and is pushed. *)
Definition onAddPiece (cells : list Hex) (center : Hex) (c : Collection) : Collection :=
  if bool_decide (cells = []) then c
  else
    let offsets := map (fun h => HexGrid.subtractHex h center) cells in
    mkCollection (pieces c ++ [App.mkPiece (pieceIdSeq c) offsets]) (pieceIdSeq c + 1).

(** [clonePiece(i)] (234-245): the copy is spliced in after the original.
    When [pieces[i]] does not exist, reading [orig.colorKey] throws: [None]. *)
Definition clonePiece (i : nat) (c : Collection) : option Collection :=
  match pieces c !! i with
  | None => None
  | Some orig =>
      let newPiece :=
        App.mkPiece (pieceIdSeq c) (map (fun h => mkHex (q h) (r h)) (App.cells orig)) in
      Some (mkCollection (take (S i) (pieces c) ++ newPiece :: drop (S i) (pieces c))
                         (pieceIdSeq c + 1))
  end.

(** [movePieceUp(i)] (303-310). With an index past the end the two
    assignments would store [undefined] in the array: [None]. *)
Definition movePieceUp (i : nat) (c : Collection) : option Collection :=
  if (i <=? 0)%nat then Some c
  else
    match pieces c !! (i - 1)%nat, pieces c !! i with
    | Some tmp, Some cur =>
        Some (mkCollection (<[i := tmp]> (<[(i - 1)%nat := cur]> (pieces c)))
                           (pieceIdSeq c))
    | _, _ => None
    end.

(** [movePieceDown(i)] (311-318): the guard [i >= pieces.length - 1] leaves
    only indices whose successor exists. *)
Definition movePieceDown (i : nat) (c : Collection) : Collection :=
  if Z.of_nat (length (pieces c)) - 1 <=? Z.of_nat i then c
  else
    match pieces c !! S i, pieces c !! i with
    | Some tmp, Some cur =>
        mkCollection (<[i := tmp]> (<[S i := cur]> (pieces c))) (pieceIdSeq c)
    | _, _ => c
    end.

(** [removePiece(i)] (319-327): [splice(i, 1)], then every piece is given
    the id [idx + 1] and the counter is set to [pieces.length + 1]. *)
Definition removePiece (i : nat) (c : Collection) : Collection :=
  let rest := take i (pieces c) ++ drop (S i) (pieces c) in
  mkCollection (imap (fun idx p => App.mkPiece (Z.of_nat idx + 1) (App.cells p)) rest)
               (Z.of_nat (length rest) + 1).

(** [showPreviousSolution()] and [showNextSolution()] (625-641): the new
    value of [currentSolutionIndex], where [n] is [topSolutions.length];
    nothing changes when the list is empty. *)
Definition showPreviousSolution (n : nat) (currentSolutionIndex : Z) : Z :=
  if (n =? 0)%nat then currentSolutionIndex
  else Z.rem (currentSolutionIndex - 1 + Z.of_nat n) (Z.of_nat n).

Definition showNextSolution (n : nat) (currentSolutionIndex : Z) : Z :=
  if (n =? 0)%nat then currentSolutionIndex
  else Z.rem (currentSolutionIndex + 1) (Z.of_nat n).

End Ui.

(* ===================================================================== *)
(** * Part 4 — definitions used in the statements and proofs              *)
(* ===================================================================== *)

Import Worker.

(** Odd-q offset coordinates and axial coordinates: the two conversions used
    by both files. *)
Definition toAxial (h : Hex) : Z * Z * Z :=
  (q h, r h - half_even (q h), - q h - (r h - half_even (q h))).

Definition ofAxial (c : Z * Z * Z) : Hex := mkHex c.1.1 (c.1.2 + half_even c.1.1).

Definition onPlane (c : Z * Z * Z) : Prop := c.2 = - c.1.1 - c.1.2.

(** The number of placements of piece [pi] all of whose target cells are
    clear, counted in full. *)
Definition freeCount (d : SolveData) (occ : list Z) (pi : nat) : nat :=
  length (List.filter (placementFree d occ) (placementsOf d pi)).

(** Position [ri] holds the least positive entry of [counts], and is the first
    position that does. *)
Definition minPositive (counts : list nat) (ri : nat) : Prop :=
  exists c, counts !! ri = Some c /\ (0 < c)%nat /\
            forall rj cj, counts !! rj = Some cj -> (0 < cj)%nat ->
                          (c <= cj)%nat /\ (cj = c -> (ri <= rj)%nat).

(** The selection as the specification words it: count the free placements of
    every remaining piece in full, take the least positive count, and select
    the first piece that has it; none when no count is positive. *)
Definition selectPieceFull (d : SolveData) (occ : list Z) (remainingPieces : list nat) :
    option nat :=
  let counts := map (freeCount d occ) remainingPieces in
  match List.filter (fun c => (0 <? c)%nat) counts with
  | [] => None
  | c :: cs =>
      let least := foldr Nat.min c cs in
      fst <$> list_find (fun x => x = least) counts
  end.

(** ** Invariants of the search *)

(** The cells covered by a solution of the worker, in the order in which
    [getSolutionCellSignature] visits them. *)
Definition cellsOf (d : SolveData) (sol : list Item) : list nat :=
  flat_map (fun it => targetsOf d (pIdx it)) sol.

(** A cell that exists and holds a piece index. *)
Definition occupied (occ : list Z) (c : nat) : Prop :=
  exists v, occ !! c = Some v /\ v <> -1.

(** What the search relies on in the tables it receives; [App.startData]
    provides it (Part 12). *)
Record wfData (d : SolveData) : Prop := mkWfData {
  wf_boardSize : 0 <= boardSize d;
  wf_depth : Z.of_nat (length (pieceOrder d)) < 2 ^ 31;
  wf_pieceIdx : forall pi, pi ∈ pieceOrder d -> Z.of_nat pi < 2 ^ 15;
  wf_size : forall pi, 0 <= pieceSize d pi;
  wf_targets : forall pi pIdx,
    pi ∈ pieceOrder d -> pIdx ∈ placementsOf d pi ->
    NoDup (targetsOf d pIdx) /\
    (forall c, c ∈ targetsOf d pIdx -> (c < Z.to_nat (boardSize d))%nat) /\
    length (targetsOf d pIdx) = m_tLen (meta d pIdx) /\
    Z.of_nat (m_tLen (meta d pIdx)) = pieceSize d pi;
  wf_assigned : forall pIdx,
    pIdx ∈ assignedPlacementIndices d ->
    firstPieceIdx d ∈ pieceOrder d /\
    pIdx ∈ placementsOf d (firstPieceIdx d) /\
    firstItem d pIdx = itemOf d pIdx
}.

(** A solution built by the search: every entry is the table row of a
    placement of some piece, no cell is covered twice, every cell is on the
    board. *)
Definition solOK (d : SolveData) (sol : list Item) : Prop :=
  (forall it, it ∈ sol ->
     it = itemOf d (pIdx it) /\
     exists pi, pi ∈ pieceOrder d /\ pIdx it ∈ placementsOf d pi) /\
  NoDup (cellsOf d sol) /\
  (forall c, c ∈ cellsOf d sol -> (c < Z.to_nat (boardSize d))%nat).

(** The board between two placements: both arrays have one entry per cell,
    and a clear cell carries the stamp 0. *)
Definition boardOK (d : SolveData) (b : Board) : Prop :=
  length (occupancy b) = Z.to_nat (boardSize d) /\
  length (depthStamp b) = Z.to_nat (boardSize d) /\
  (forall c, occupancy b !! c = Some (-1) -> depthStamp b !! c = Some 0).

(** The recorded solutions: [topSolutions] and [seenSignatures] list the same
    solutions, each signature once, and every recorded solution covers
    [bestCoverage] cells. *)
Definition bestOK (d : SolveData) (best : Best) : Prop :=
  exists sols : list (list Item),
    topSolutions best = map (exportSolution d) sols /\
    seenSignatures best = map (getSolutionCellSignature d) sols /\
    NoDup (seenSignatures best) /\
    forall sol, sol ∈ sols ->
      solOK d sol /\ Z.of_nat (length (cellsOf d sol)) = bestCoverage best.

(** The arguments of one call of [backtrack], with the board it runs on. *)
Record nodeOK (d : SolveData) (remainingPieces : list nat) (remainingSum : Z)
    (currentSolution : list Item) (coverage : Z) (b : Board) : Prop := mkNodeOK {
  n_board : boardOK d b;
  n_depth : 0 <= depth b /\ depth b + Z.of_nat (length remainingPieces) < 2 ^ 31;
  n_pieces : forall pi, pi ∈ remainingPieces -> pi ∈ pieceOrder d;
  n_sum : remainingSum = sumRemainingSizes d remainingPieces;
  n_sol : solOK d currentSolution;
  n_cells : forall c, c ∈ cellsOf d currentSolution <-> occupied (occupancy b) c;
  n_coverage : coverage = Z.of_nat (length (cellsOf d currentSolution))
}.

(** What one call of [backtrack] guarantees about its result. *)
Record resultOK (d : SolveData) (remainingSum coverage : Z) (b : Board) (best : Best)
    (res : bool * (Board * Best)) : Prop := mkResultOK {
  r_board : res.2.1 = b;
  r_best : bestOK d res.2.2;
  r_grows : bestCoverage best <= bestCoverage res.2.2;
  r_bound : bestCoverage res.2.2 <= Z.max (bestCoverage best) (coverage + remainingSum);
  r_board_bound : bestCoverage res.2.2 <= Z.max (bestCoverage best) (boardSize d);
  r_perfect : res.1 = true -> boardSize d <= bestCoverage res.2.2
}.

(** ** Inputs of the coordinator *)

(** A collection as the editor builds it: the cells of a piece are pairwise
    different, ids are pairwise different and fit the [Int32Array] they are
    packed into, and piece indices fit the [Int16Array] of the occupancy. *)
Record wfInput (inp : App.Input) : Prop := mkWfInput {
  wi_cells : forall pc, pc ∈ App.pieces inp -> NoDup (App.cells pc);
  wi_count : Z.of_nat (length (App.pieces inp)) < 2 ^ 15;
  wi_ids : forall pc, pc ∈ App.pieces inp -> - 2 ^ 31 <= App.id pc < 2 ^ 31;
  wi_unique : NoDup (map App.id (App.pieces inp))
}.

(** The same input on a machine with one worker: the single-threaded run. *)
Definition single (inp : App.Input) : App.Input :=
  App.mkInput (App.boardW inp) (App.boardH inp) (App.pieces inp)
              (App.allowRotations inp) 1.

(** Adjacent entries are in order. *)
Fixpoint sortedBy {A : Type} (le : A -> A -> bool) (l : list A) : Prop :=
  match l with
  | [] => True
  | x :: l' =>
      match l' with
      | [] => True
      | y :: _ => le x y = true /\ sortedBy le l'
      end
  end.

(** An exported solution is a packing of the board of [inp]: every placement
    names a piece of the collection and an anchor, every replayed target cell
    is a cell of the board, and the target cells of two different placements
    are disjoint. *)
Definition validPacking (inp : App.Input) (sol : list Exported) : Prop :=
  (forall e, e ∈ sol ->
     is_Some (App.findPiece inp (piece e)) /\ is_Some (anchor e)) /\
  (forall e t, e ∈ sol -> t ∈ App.replay inp e ->
     exists c, App.cellIndex inp t = Some c /\ Z.of_nat c < App.boardSize inp) /\
  (forall i j e1 e2 t, i <> j -> sol !! i = Some e1 -> sol !! j = Some e2 ->
     t ∈ App.replay inp e1 -> t ∉ App.replay inp e2).

(** [exportSolution] on one entry. *)
Definition exportItem (d : SolveData) (p : Item) : Exported :=
  mkExported (pieceId p) (boardCells d !! anchorIdx p) (rot p).

(** ** Statements about whole runs *)

(** Placements chosen for pieces of [remainingPieces], as pairs of a piece
    index and a placement index of that piece; a piece is used at most as
    often as it is listed. *)
Definition extension (d : SolveData) (remainingPieces : list nat)
    (ext : list (nat * nat)) : Prop :=
  map fst ext ⊆+ remainingPieces /\
  forall pi p, (pi, p) ∈ ext -> p ∈ placementsOf d pi.

(** The cells covered by such placements, and their number as the search
    counts it ([placementsMeta[base + 5]] per placement). *)
Definition extCells (d : SolveData) (ext : list (nat * nat)) : list nat :=
  flat_map (fun pp => targetsOf d pp.2) ext.

Definition extCoverage (d : SolveData) (ext : list (nat * nat)) : Z :=
  foldr (fun pp acc => Z.of_nat (m_tLen (meta d pp.2)) + acc) 0 ext.

(** A packing of the board: legal placements of pairwise different pieces
    that do not overlap. *)
Definition packing (d : SolveData) (sol : list (nat * nat)) : Prop :=
  extension d (pieceOrder d) sol /\ NoDup (extCells d sol).

(** The covering induced by a packing, as a signature. *)
Definition packingSignature (d : SolveData) (sol : list (nat * nat)) : Signature :=
  sortByCell (flat_map (fun pp => map (fun c => (c, m_pieceId (meta d pp.2)))
                                      (targetsOf d pp.2)) sol).

(** The tables of a run, as every worker receives them. *)
Definition tablesOf (inp : App.Input) : SolveData := App.startData inp 0 [].

(** C1 as the specification states it: the final list holds the covering of
    every packing of maximal coverage. *)
Definition enumeratesAllMaximal (inp : App.Input) : Prop :=
  forall arrived g,
    arrived ≡ₚ App.reports inp -> App.final inp arrived = Some g ->
    forall sol,
      packing (tablesOf inp) sol ->
      (forall sol', packing (tablesOf inp) sol' ->
                    (length (extCells (tablesOf inp) sol')
                     <= length (extCells (tablesOf inp) sol))%nat) ->
      packingSignature (tablesOf inp) sol
        ∈ map (App.getSolutionCellSignature inp) (App.topSolutions g).

(** C4 as the specification states it: when the search below the first
    placement [p] ends with the success signal of a perfect cover, the loop of
    [solve] explores no further first placement. *)
Definition stopsAfterPerfectCover (d : SolveData) : Prop :=
  forall p rest st,
    (backtrack d false (remainingAfterFirst d) (remainingAfterFirstSum d)
               [firstItem d p] (Z.of_nat (m_tLen (meta d p)))
               (applyPlacementByIndex d p (firstPieceIdx d) st.1, st.2)).1 = true ->
    solveLoop d false (p :: rest) st = solveStep d false p st.

(** ** Example inputs *)

Definition oneCell : list Hex := [mkHex 0 0].

(** A single cell and two single-cell pieces, rotations off, one worker. *)
Definition singleCell : App.Input :=
  App.mkInput 1 1 [App.mkPiece 1 oneCell; App.mkPiece 2 oneCell] false 1.

(** A row of three cells and two single-cell pieces, rotations off, one
    worker. *)
Definition rowOfThree : App.Input :=
  App.mkInput 3 1 [App.mkPiece 1 oneCell; App.mkPiece 2 oneCell] false 1.

(** Two cells and three single-cell pieces, rotations off, one worker. *)
Definition twoCells : App.Input :=
  App.mkInput 1 2 [App.mkPiece 1 oneCell; App.mkPiece 2 oneCell; App.mkPiece 3 oneCell]
              false 1.

(** A single cell, a single-cell piece and a two-cell piece that fits
    nowhere, four workers. *)
Definition withUnplaceable : App.Input :=
  App.mkInput 1 1 [App.mkPiece 1 oneCell; App.mkPiece 2 [mkHex 0 0; mkHex 1 0]] true 4.

(** A 2 x 2 board and two two-cell pieces, rotations on, three workers. *)
Definition twoByTwo : App.Input :=
  App.mkInput 2 2 [App.mkPiece 1 [mkHex 0 0; mkHex 1 0];
                   App.mkPiece 2 [mkHex 0 0; mkHex 0 1]] true 3.

(** The number of cells that an exported solution covers, as the length of
    its signature. *)
Definition covered (inp : App.Input) (sol : list Exported) : Z :=
  Z.of_nat (length (App.getSolutionCellSignature inp sol)).

(** The work package of the only worker of [twoCells]. *)
Definition twoCellsWorker : SolveData := App.startData twoCells 0 [0; 1]%nat.


(** ** Order of sorted lists *)

(** Entries of [l] stand in the relation [R] whenever the first comes before
    the second. *)
Definition ordered {A : Type} (R : A -> A -> Prop) (l : list A) : Prop :=
  forall i j a b, (i < j)%nat -> l !! i = Some a -> l !! j = Some b -> R a b.

(** ** Pieces of a solution *)

(** The id of the piece of index [pi] ([pieces[pi].id]). *)
Definition pieceIdOf (inp : App.Input) (pi : nat) : Z :=
  default 0 (App.id <$> App.pieces inp !! pi).

(** ** The collection editor *)

(** The buttons of the collection editor. *)
Inductive Action : Type :=
  | Add (cells : list Hex) (center : Hex)
  | Clone (i : nat)
  | Up (i : nat)
  | Down (i : nat)
  | Remove (i : nat).

Definition act (a : Action) (c : Ui.Collection) : option Ui.Collection :=
  match a with
  | Add cells center => Some (Ui.onAddPiece cells center c)
  | Clone i => Ui.clonePiece i c
  | Up i => Ui.movePieceUp i c
  | Down i => Some (Ui.movePieceDown i c)
  | Remove i => Some (Ui.removePiece i c)
  end.

(** A sequence of actions; [None] when one of them throws. *)
Fixpoint run (actions : list Action) (c : Ui.Collection) : option Ui.Collection :=
  match actions with
  | [] => Some c
  | a :: rest =>
      match act a c with
      | Some c' => run rest c'
      | None => None
      end
  end.

(** The selection handed to [Add] holds no cell twice: it is read off the
    keys of the editor grid. *)
Definition selectionsDistinct (actions : list Action) : Prop :=
  forall cells center, Add cells center ∈ actions -> NoDup cells.

(** The ids of the collection are positive, below the counter and pairwise
    different, and no piece holds a cell twice. *)
Definition collectionOK (c : Ui.Collection) : Prop :=
  0 < Ui.pieceIdSeq c /\
  NoDup (map App.id (Ui.pieces c)) /\
  (forall pc, pc ∈ Ui.pieces c -> 0 < App.id pc < Ui.pieceIdSeq c) /\
  (forall pc, pc ∈ Ui.pieces c -> NoDup (App.cells pc)).

(** ** The two copies of the hex functions *)

(** C2 as the specification states it: for every piece offset, every rotation
    count 0..5 and every anchor cell, the worker's inline functions and the
    library's functions compute the same cell. *)
Definition copiesAgree : Prop :=
  forall (off anchor : Hex) (rot : Z), 0 <= rot <= 5 ->
    Worker.addHex anchor (Worker.rotateHex off rot)
    = HexGrid.addHex anchor (HexGrid.rotateHex off rot).

(** ** Coverings *)

(** The covering of a solution, as the page replays it: the cell of index [c]
    is covered by the piece with id [pid]. *)
Definition covers (inp : App.Input) (sol : list Exported) (c : nat) (pid : Z) : Prop :=
  exists e t, e ∈ sol /\ piece e = pid /\
              t ∈ App.replay inp e /\ App.cellIndex inp t = Some c.

(** Two solutions cover the same cells with the same pieces. *)
Definition sameCovering (inp : App.Input) (sol1 sol2 : list Exported) : Prop :=
  forall c pid, covers inp sol1 c pid <-> covers inp sol2 c pid.

(** ** Sharded runs *)

(** The coverage reported by worker [i] when it is given the first placements
    [part]. *)
Definition shardCoverage (inp : App.Input) (i : nat) (part : list nat) : Z :=
  c_coverage (Worker.onStart (App.startData inp i part)).

(** ** Exact numbers *)

(** The integers that a JavaScript number holds exactly
    ([Number.MIN_SAFE_INTEGER] to [Number.MAX_SAFE_INTEGER]). *)
Definition safeInteger (z : Z) : Prop := - 2 ^ 53 < z < 2 ^ 53.

(** Both coordinates of a hex are at most [bound] in absolute value. *)
Definition within (bound : Z) (h : Hex) : Prop :=
  Z.abs (q h) <= bound /\ Z.abs (r h) <= bound.


(* ===================================================================== *)
(** * Part 5 — properties of the coordinate functions                     *)
(* ===================================================================== *)

Lemma norm6_range (t : Z) : 0 <= norm6 t < 6.
Proof.
  unfold norm6.
  pose proof (Z.rem_bound_abs t 6 ltac:(lia)) as Hb.
  assert (-6 < Z.rem t 6 < 6) by lia.
  pose proof (Z.rem_bound_pos (Z.rem t 6 + 6) 6 ltac:(lia) ltac:(lia)). lia.
Qed.

Lemma norm6_cases (t : Z) :
  norm6 t = 0 \/ norm6 t = 1 \/ norm6 t = 2 \/ norm6 t = 3 \/ norm6 t = 4 \/ norm6 t = 5.
Proof. pose proof (norm6_range t). lia. Qed.

Lemma norm6_small (t : Z) : 0 <= t < 6 -> norm6 t = t.
Proof.
  intros Ht.
  assert (t = 0 \/ t = 1 \/ t = 2 \/ t = 3 \/ t = 4 \/ t = 5) as Hc by lia.
  destruct Hc as [->|[->|[->|[->|[->| ->]]]]]; reflexivity.
Qed.

Lemma norm6_idem (t : Z) : norm6 (norm6 t) = norm6 t.
Proof. apply norm6_small, norm6_range. Qed.

Lemma toAxial_ofAxial (x y z : Z) : z = - x - y -> toAxial (ofAxial (x, y, z)) = (x, y, z).
Proof. intros ->. unfold toAxial, ofAxial; simpl. f_equal; [f_equal|]; lia. Qed.

Lemma ofAxial_toAxial (h : Hex) : ofAxial (toAxial h) = h.
Proof. destruct h as [a b]. unfold toAxial, ofAxial; simpl. f_equal; lia. Qed.

Lemma toAxial_onPlane (h : Hex) : onPlane (toAxial h).
Proof. reflexivity. Qed.

Lemma HexGrid_step_onPlane (c : Z * Z * Z) : onPlane c -> onPlane (HexGrid.step c).
Proof. destruct c as [[x y] z]. unfold onPlane; simpl. lia. Qed.

Lemma Worker_step_onPlane (c : Z * Z * Z) : onPlane c -> onPlane (Worker.step c).
Proof. destruct c as [[x y] z]. unfold onPlane; simpl. lia. Qed.

Lemma HexGrid_iter_onPlane (n : nat) (c : Z * Z * Z) :
  onPlane c -> onPlane (HexGrid.iter_step n c).
Proof. revert c. induction n; simpl; auto using HexGrid_step_onPlane. Qed.

Lemma Worker_iter_onPlane (n : nat) (c : Z * Z * Z) :
  onPlane c -> onPlane (Worker.iter_step n c).
Proof. revert c. induction n; simpl; auto using Worker_step_onPlane. Qed.

Lemma HexGrid_iter_add (n m : nat) (c : Z * Z * Z) :
  HexGrid.iter_step (n + m) c = HexGrid.iter_step m (HexGrid.iter_step n c).
Proof. revert c. induction n; simpl; auto. Qed.

Lemma Worker_iter_add (n m : nat) (c : Z * Z * Z) :
  Worker.iter_step (n + m) c = Worker.iter_step m (Worker.iter_step n c).
Proof. revert c. induction n; simpl; auto. Qed.

(** Six steps of either rotation are the identity on cube coordinates. *)
Lemma HexGrid_step6 (c : Z * Z * Z) : HexGrid.iter_step 6 c = c.
Proof. destruct c as [[x y] z]. simpl. f_equal; [f_equal|]; lia. Qed.

Lemma Worker_step6 (c : Z * Z * Z) : Worker.iter_step 6 c = c.
Proof. destruct c as [[x y] z]. simpl. f_equal; [f_equal|]; lia. Qed.

(** Both rotations in terms of the conversions. *)
Lemma HexGrid_rotateHex_axial (h : Hex) (k : Z) :
  HexGrid.rotateHex h k = ofAxial (HexGrid.iter_step (Z.to_nat (norm6 k)) (toAxial h)).
Proof.
  unfold HexGrid.rotateHex. destruct (Z.eqb_spec (norm6 k) 0) as [E|E].
  - rewrite E. simpl. rewrite ofAxial_toAxial. by destruct h.
  - unfold toAxial, ofAxial.
    destruct (HexGrid.iter_step _ _) as [[x y] z]. reflexivity.
Qed.

Lemma Worker_rotateHex_axial (h : Hex) (k : Z) :
  Worker.rotateHex h k = ofAxial (Worker.iter_step (Z.to_nat (norm6 k)) (toAxial h)).
Proof.
  unfold Worker.rotateHex, toAxial, ofAxial, oddQToAxial, axialToOddQ, s; simpl.
  destruct (Worker.iter_step _ _) as [[x y] z]. reflexivity.
Qed.

Lemma HexGrid_rotate1_iter (n : nat) (h : Hex) :
  toAxial (Nat.iter n (fun x => HexGrid.rotateHex x 1) h) = HexGrid.iter_step n (toAxial h).
Proof.
  induction n as [|n IH]; [reflexivity|].
  replace (S n) with (n + 1)%nat at 2 by lia.
  rewrite HexGrid_iter_add, <- IH. simpl Nat.iter.
  rewrite HexGrid_rotateHex_axial. change (Z.to_nat (norm6 1)) with 1%nat.
  set (c := HexGrid.iter_step 1 _).
  assert (onPlane c) as Hc by apply HexGrid_iter_onPlane, toAxial_onPlane.
  destruct c as [[x y] z]. apply toAxial_ofAxial, Hc.
Qed.

Lemma Worker_rotate1_iter (n : nat) (h : Hex) :
  toAxial (Nat.iter n (fun x => Worker.rotateHex x 1) h) = Worker.iter_step n (toAxial h).
Proof.
  induction n as [|n IH]; [reflexivity|].
  replace (S n) with (n + 1)%nat at 2 by lia.
  rewrite Worker_iter_add, <- IH. simpl Nat.iter.
  rewrite Worker_rotateHex_axial. change (Z.to_nat (norm6 1)) with 1%nat.
  set (c := Worker.iter_step 1 _).
  assert (onPlane c) as Hc by apply Worker_iter_onPlane, toAxial_onPlane.
  destruct c as [[x y] z]. apply toAxial_ofAxial, Hc.
Qed.

(** Both translations are the same function. *)
Lemma addHex_agree (a b : Hex) : Worker.addHex a b = HexGrid.addHex a b.
Proof. reflexivity. Qed.

(** The two loop bodies are inverse to each other: the worker's copy turns
    the other way. *)
Lemma Worker_step_HexGrid_step (c : Z * Z * Z) : Worker.step (HexGrid.step c) = c.
Proof. destruct c as [[x y] z]. simpl. f_equal; [f_equal|]; lia. Qed.

(** One step of the worker's rotation undoes one step of the library's. *)
Lemma rotateHex_copies_inverse (h : Hex) :
  Worker.rotateHex (HexGrid.rotateHex h 1) 1 = h.
Proof.
  rewrite Worker_rotateHex_axial, HexGrid_rotateHex_axial.
  change (Z.to_nat (norm6 1)) with 1%nat.
  set (c := HexGrid.iter_step 1 (toAxial h)).
  assert (onPlane c) as Hc by apply HexGrid_iter_onPlane, toAxial_onPlane.
  assert (toAxial (ofAxial c) = c) as -> by (destruct c as [[x y] z]; by apply toAxial_ofAxial).
  unfold c. cbn [HexGrid.iter_step Worker.iter_step].
  rewrite Worker_step_HexGrid_step. apply ofAxial_toAxial.
Qed.


(* ===================================================================== *)
(** * Part 6 — the occupancy arrays: apply and undo                       *)
(* ===================================================================== *)

Lemma toInt32_small (x : Z) : - 2 ^ 31 <= x < 2 ^ 31 -> toInt32 x = x.
Proof.
  intros Hx. unfold toInt32, wrapInt.
  change (2 ^ (32 - 1)) with 2147483648 in *. change (2 ^ 32) with 4294967296.
  change (2 ^ 31) with 2147483648 in Hx.
  rewrite Z.mod_small; lia.
Qed.

Lemma toInt16_small (x : Z) : - 2 ^ 15 <= x < 2 ^ 15 -> toInt16 x = x.
Proof.
  intros Hx. unfold toInt16, wrapInt.
  change (2 ^ (16 - 1)) with 32768 in *. change (2 ^ 16) with 65536.
  change (2 ^ 15) with 32768 in Hx.
  rewrite Z.mod_small; lia.
Qed.

Section Arrays.

Variables (pieceIdx dep : Z).

Lemma foldl_stamp_length (T : list nat) (os : list Z * list Z) :
  length (foldl (stamp pieceIdx dep) os T).1 = length os.1 /\
  length (foldl (stamp pieceIdx dep) os T).2 = length os.2.
Proof.
  revert os. induction T as [|x T IH]; intros os; simpl; [done|].
  destruct (IH (stamp pieceIdx dep os x)) as [-> ->]. unfold stamp; simpl.
  by rewrite !length_insert.
Qed.

Lemma foldl_stamp_notin (T : list nat) (os : list Z * list Z) (c : nat) :
  c ∉ T ->
  (foldl (stamp pieceIdx dep) os T).1 !! c = os.1 !! c /\
  (foldl (stamp pieceIdx dep) os T).2 !! c = os.2 !! c.
Proof.
  revert os. induction T as [|x T IH]; intros os Hc; simpl; [done|].
  apply not_elem_of_cons in Hc as [Hx Hc].
  destruct (IH (stamp pieceIdx dep os x) Hc) as [-> ->]. unfold stamp; simpl.
  by rewrite !list_lookup_insert_ne.
Qed.

Lemma foldl_stamp_in (T : list nat) (os : list Z * list Z) (c : nat) :
  c ∈ T ->
  ((c < length os.1)%nat ->
     (foldl (stamp pieceIdx dep) os T).1 !! c = Some (toInt16 pieceIdx)) /\
  ((c < length os.2)%nat ->
     (foldl (stamp pieceIdx dep) os T).2 !! c = Some (toInt32 dep)).
Proof.
  revert os. induction T as [|x T IH]; intros os Hc; simpl.
  - by apply elem_of_nil in Hc.
  - destruct (decide (c ∈ T)) as [Hin|Hnin].
    + destruct (IH (stamp pieceIdx dep os x) Hin) as [H1 H2].
      unfold stamp in H1, H2 at 1 2; simpl in H1, H2.
      rewrite !length_insert in *. done.
    + apply elem_of_cons in Hc as [->|?]; [|done].
      destruct (foldl_stamp_notin T (stamp pieceIdx dep os x) x Hnin) as [-> ->].
      unfold stamp; simpl. split; intros; by apply list_lookup_insert_eq.
Qed.

Lemma foldl_unstamp_length (T : list nat) (os : list Z * list Z) :
  length (foldl (unstamp dep) os T).1 = length os.1 /\
  length (foldl (unstamp dep) os T).2 = length os.2.
Proof.
  revert os. induction T as [|x T IH]; intros os; simpl; [done|].
  destruct (IH (unstamp dep os x)) as [-> ->]. unfold unstamp.
  case_bool_decide; simpl; by rewrite ?length_insert.
Qed.

Lemma foldl_unstamp_notin (T : list nat) (os : list Z * list Z) (c : nat) :
  c ∉ T ->
  (foldl (unstamp dep) os T).1 !! c = os.1 !! c /\
  (foldl (unstamp dep) os T).2 !! c = os.2 !! c.
Proof.
  revert os. induction T as [|x T IH]; intros os Hc; simpl; [done|].
  apply not_elem_of_cons in Hc as [Hx Hc].
  destruct (IH (unstamp dep os x) Hc) as [-> ->]. unfold unstamp.
  case_bool_decide; simpl; by rewrite ?list_lookup_insert_ne.
Qed.

(** A cell of the list that carries the stamp [dep], or is already clear,
    is clear after the loop of [undoPlacementByIndex]. *)
Lemma foldl_unstamp_in (T : list nat) (os : list Z * list Z) :
  (forall c, c ∈ T -> (c < length os.1)%nat /\
                      (os.2 !! c = Some dep \/ os.1 !! c = Some (-1))) ->
  forall c, c ∈ T -> (foldl (unstamp dep) os T).1 !! c = Some (-1).
Proof.
  revert os. induction T as [|x T IH]; intros os Hpre c Hc; simpl.
  - by apply elem_of_nil in Hc.
  - assert ((unstamp dep os x).1 !! x = Some (-1)) as Hx.
    { destruct (Hpre x ltac:(left)) as [Hlen Hor]. unfold unstamp.
      case_bool_decide; simpl; [by apply list_lookup_insert_eq|].
      by destruct Hor. }
    destruct (decide (c ∈ T)) as [Hin|Hnin].
    + apply IH; [|done]. intros c' Hc'.
      destruct (Hpre c' ltac:(by right)) as [Hlen Hor].
      destruct (decide (c' = x)) as [->|Hne].
      * split; [|by right]. by apply lookup_lt_Some in Hx.
      * unfold unstamp. case_bool_decide; simpl; [|done].
        by rewrite length_insert, !list_lookup_insert_ne.
    + apply elem_of_cons in Hc as [->|?]; [|done].
      by destruct (foldl_unstamp_notin T (unstamp dep os x) x Hnin) as [-> _].
Qed.

(** The same with the stamps: a cell that carries the stamp [dep], or is
    clear with stamp 0, ends clear with stamp 0. *)
Lemma foldl_unstamp_in_stamp (T : list nat) (os : list Z * list Z) :
  (forall c, c ∈ T -> (c < length os.1)%nat /\ (c < length os.2)%nat /\
                      (os.2 !! c = Some dep \/
                       (os.1 !! c = Some (-1) /\ os.2 !! c = Some 0))) ->
  forall c, c ∈ T -> (foldl (unstamp dep) os T).1 !! c = Some (-1) /\
                     (foldl (unstamp dep) os T).2 !! c = Some 0.
Proof.
  revert os. induction T as [|x T IH]; intros os Hpre c Hc; simpl.
  - by apply elem_of_nil in Hc.
  - assert ((unstamp dep os x).1 !! x = Some (-1) /\
            (unstamp dep os x).2 !! x = Some 0) as Hx.
    { destruct (Hpre x ltac:(left)) as (Hlen & Hlen2 & Hor). unfold unstamp.
      case_bool_decide; simpl; [split; by apply list_lookup_insert_eq|].
      by destruct Hor. }
    destruct (decide (c ∈ T)) as [Hin|Hnin].
    + apply IH; [|done]. intros c' Hc'.
      destruct (Hpre c' ltac:(by right)) as (Hlen & Hlen2 & Hor).
      destruct (decide (c' = x)) as [->|Hne].
      * destruct Hx as [Hx1 Hx2].
        split; [by apply lookup_lt_Some in Hx1|].
        split; [by apply lookup_lt_Some in Hx2|]. by right.
      * unfold unstamp. case_bool_decide; simpl; [|done].
        by rewrite !length_insert, !list_lookup_insert_ne.
    + apply elem_of_cons in Hc as [->|?]; [|done].
      by destruct (foldl_unstamp_notin T (unstamp dep os x) x Hnin) as [-> ->].
Qed.

End Arrays.

Lemma Board_eq (a b : Board) :
  occupancy a = occupancy b -> depthStamp a = depthStamp b -> depth a = depth b -> a = b.
Proof. destruct a, b; simpl; congruence. Qed.

Section ApplyUndo.

Variable d : SolveData.

Lemma apply_depth (pIdx pieceIdx : nat) (b : Board) :
  depth (applyPlacementByIndex d pIdx pieceIdx b) = depth b + 1.
Proof. reflexivity. Qed.

Lemma apply_length (pIdx pieceIdx : nat) (b : Board) :
  length (occupancy (applyPlacementByIndex d pIdx pieceIdx b)) = length (occupancy b) /\
  length (depthStamp (applyPlacementByIndex d pIdx pieceIdx b)) = length (depthStamp b).
Proof. apply foldl_stamp_length. Qed.

Lemma apply_other (pIdx pieceIdx : nat) (b : Board) (c : nat) :
  c ∉ targetsOf d pIdx ->
  occupancy (applyPlacementByIndex d pIdx pieceIdx b) !! c = occupancy b !! c /\
  depthStamp (applyPlacementByIndex d pIdx pieceIdx b) !! c = depthStamp b !! c.
Proof. intros Hc. by apply (foldl_stamp_notin _ _ _ (occupancy b, depthStamp b)). Qed.

Lemma apply_target (pIdx pieceIdx : nat) (b : Board) (c : nat) :
  c ∈ targetsOf d pIdx ->
  ((c < length (occupancy b))%nat ->
     occupancy (applyPlacementByIndex d pIdx pieceIdx b) !! c
       = Some (toInt16 (Z.of_nat pieceIdx))) /\
  ((c < length (depthStamp b))%nat ->
     depthStamp (applyPlacementByIndex d pIdx pieceIdx b) !! c
       = Some (toInt32 (depth b + 1))).
Proof. intros Hc. by apply (foldl_stamp_in _ _ _ (occupancy b, depthStamp b)). Qed.

Lemma undo_other (pIdx : nat) (b : Board) (c : nat) :
  c ∉ targetsOf d pIdx ->
  occupancy (undoPlacementByIndex d pIdx b) !! c = occupancy b !! c /\
  depthStamp (undoPlacementByIndex d pIdx b) !! c = depthStamp b !! c.
Proof. intros Hc. by apply (foldl_unstamp_notin _ _ (occupancy b, depthStamp b)). Qed.

Lemma undo_length (pIdx : nat) (b : Board) :
  length (occupancy (undoPlacementByIndex d pIdx b)) = length (occupancy b) /\
  length (depthStamp (undoPlacementByIndex d pIdx b)) = length (depthStamp b).
Proof. apply foldl_unstamp_length. Qed.

(** Undoing right after applying gives back the very same board, when the
    target cells were clear with stamp 0 and the new depth fits the
    [Int32Array]. *)
Lemma undo_apply (pIdx pieceIdx : nat) (b : Board) :
  length (depthStamp b) = length (occupancy b) ->
  toInt32 (depth b + 1) = depth b + 1 ->
  (forall c, c ∈ targetsOf d pIdx ->
             occupancy b !! c = Some (-1) /\ depthStamp b !! c = Some 0) ->
  undoPlacementByIndex d pIdx (applyPlacementByIndex d pIdx pieceIdx b) = b.
Proof.
  intros Hlen Hfit Hfree.
  set (b1 := applyPlacementByIndex d pIdx pieceIdx b).
  destruct (apply_length pIdx pieceIdx b) as [Hl1 Hl2]. fold b1 in Hl1, Hl2.
  assert (forall c, c ∈ targetsOf d pIdx ->
            occupancy (undoPlacementByIndex d pIdx b1) !! c = Some (-1) /\
            depthStamp (undoPlacementByIndex d pIdx b1) !! c = Some 0) as Hin.
  { apply (foldl_unstamp_in_stamp (depth b1) _ (occupancy b1, depthStamp b1)).
    intros c Hc; cbn [fst snd]. destruct (Hfree c Hc) as [Ho Hs].
    apply lookup_lt_Some in Ho. apply lookup_lt_Some in Hs.
    split; [lia|]. split; [lia|]. left.
    destruct (apply_target pIdx pieceIdx b c Hc) as [_ H2].
    unfold b1. rewrite H2 by done. by rewrite Hfit. }
  apply Board_eq.
  - apply list_eq. intros c. destruct (decide (c ∈ targetsOf d pIdx)) as [Hc|Hc].
    + destruct (Hin c Hc) as [-> _]. symmetry. by apply Hfree.
    + destruct (undo_other pIdx b1 c Hc) as [-> _].
      unfold b1. by destruct (apply_other pIdx pieceIdx b c Hc) as [-> _].
  - apply list_eq. intros c. destruct (decide (c ∈ targetsOf d pIdx)) as [Hc|Hc].
    + destruct (Hin c Hc) as [_ ->]. symmetry. by apply Hfree.
    + destruct (undo_other pIdx b1 c Hc) as [_ ->].
      unfold b1. by destruct (apply_other pIdx pieceIdx b c Hc) as [_ ->].
  - unfold b1; simpl. lia.
Qed.

(** C9 — applying a placement on clear target cells and undoing it at once
    clears every target cell again, restores the depth counter, and leaves
    the occupancy of every other cell as it was, after the apply and after
    the undo. The two arrays have the same length, as allocated by [solve],
    and the incremented depth fits the 32-bit stamp array. *)
Theorem apply_undo_frame (pIdx pieceIdx : nat) (b : Board) :
  length (depthStamp b) = length (occupancy b) ->
  toInt32 (depth b + 1) = depth b + 1 ->
  (forall c, c ∈ targetsOf d pIdx -> occupancy b !! c = Some (-1)) ->
  let b1 := applyPlacementByIndex d pIdx pieceIdx b in
  let b2 := undoPlacementByIndex d pIdx b1 in
  (forall c, c ∈ targetsOf d pIdx -> occupancy b2 !! c = Some (-1)) /\
  depth b2 = depth b /\
  (forall c, c ∉ targetsOf d pIdx ->
             occupancy b1 !! c = occupancy b !! c /\
             occupancy b2 !! c = occupancy b !! c).
Proof.
  intros Hlen Hfit Hfree b1 b2.
  destruct (apply_length pIdx pieceIdx b) as [Hl1 Hl2]. fold b1 in Hl1, Hl2.
  split; [|split].
  - apply (foldl_unstamp_in (depth b1) _ (occupancy b1, depthStamp b1)).
    intros c Hc; cbn [fst snd]. pose proof (Hfree c Hc) as Ho.
    apply lookup_lt_Some in Ho. split; [lia|]. left.
    destruct (apply_target pIdx pieceIdx b c Hc) as [_ H2].
    unfold b1. rewrite H2 by lia. by rewrite Hfit.
  - unfold b2, b1; simpl. lia.
  - intros c Hc. destruct (apply_other pIdx pieceIdx b c Hc) as [E1 _].
    split; [done|]. destruct (undo_other pIdx b1 c Hc) as [E2 _].
    unfold b2. by rewrite E2.
Qed.

End ApplyUndo.

(* ===================================================================== *)
(** * Part 7 — the most-constrained-piece selection                       *)
(* ===================================================================== *)

Section Select.

Variable d : SolveData.
Variable occ : list Z.

Local Abbreviation count := (freeCount d occ).

(** The short-circuited count is the full count, capped by [bestCount]. *)
Lemma countFree_capped (bestCount : option nat) (pIdxs : list nat) (count : nat) :
  below count bestCount = true ->
  countFree d occ bestCount pIdxs count =
    let n := (count + length (List.filter (placementFree d occ) pIdxs))%nat in
    match bestCount with
    | None => n
    | Some b => Nat.min n b
    end.
Proof.
  revert count. induction pIdxs as [|p rest IH]; intros count Hlt; simpl.
  - destruct bestCount as [b|]; simpl in *; [|lia].
    apply Nat.ltb_lt in Hlt. lia.
  - destruct (placementFree d occ p); simpl.
    + destruct bestCount as [b|]; simpl in *.
      * apply Nat.ltb_lt in Hlt. destruct (Nat.leb_spec b (S count)); [lia|].
        rewrite IH by (by apply Nat.ltb_lt). lia.
      * rewrite IH by done. lia.
    + by rewrite IH.
Qed.

Lemma select_test (pIdxs : list nat) (bestCount : option nat) :
  (forall b, bestCount = Some b -> (0 < b)%nat) ->
  let count := countFree d occ bestCount pIdxs 0 in
  forall pi, pIdxs = placementsOf d pi ->
  ((0 <? count)%nat && below count bestCount = true <->
     (0 < freeCount d occ pi)%nat /\
     (forall b, bestCount = Some b -> (freeCount d occ pi < b)%nat)) /\
  ((0 <? count)%nat && below count bestCount = true -> count = freeCount d occ pi).
Proof.
  intros Hpos count pi ->. unfold count, freeCount.
  rewrite countFree_capped.
  2:{ destruct bestCount as [b|]; simpl; [|done]. apply Nat.ltb_lt. by apply Hpos. }
  simpl. set (n := length _).
  destruct bestCount as [b|]; simpl.
  - specialize (Hpos b eq_refl).
    rewrite andb_true_iff, !Nat.ltb_lt. split.
    + split.
      * intros [H1 H2]. split; [lia|]. intros b' [= <-]. lia.
      * intros [H1 H2]. specialize (H2 b eq_refl). lia.
    + intros [H1 H2]. lia.
  - rewrite andb_true_r, Nat.ltb_lt. split; [|done].
    split; [intros; split; [done|discriminate]|by intros [? _]].
Qed.

(** What the loop of lines 201-224 returns, for any state of its two
    variables in which a recorded [bestCount] is positive. *)
Lemma selectFrom_char (remainingPieces : list nat) (ri : nat)
    (bestRi bestCount : option nat) :
  (forall b, bestCount = Some b -> (0 < b)%nat) ->
  let res := selectFrom d occ remainingPieces ri bestRi bestCount in
  (res = bestRi /\
   forall j pj, remainingPieces !! j = Some pj ->
                count pj = 0%nat \/ exists b, bestCount = Some b /\ (b <= count pj)%nat)
  \/
  (exists k pk, res = Some (ri + k)%nat /\ remainingPieces !! k = Some pk /\
     (0 < count pk)%nat /\
     (forall b, bestCount = Some b -> (count pk < b)%nat) /\
     forall j pj, remainingPieces !! j = Some pj -> (0 < count pj)%nat ->
                  (count pk <= count pj)%nat /\ (count pj = count pk -> (k <= j)%nat)).
Proof.
  revert ri bestRi bestCount.
  induction remainingPieces as [|pi rest IH]; intros ri bestRi bestCount Hpos res.
  - left. split; [done|]. intros j pj Hj. by rewrite lookup_nil in Hj.
  - destruct (select_test (placementsOf d pi) bestCount Hpos pi eq_refl) as [Hiff Hcount].
    unfold res. simpl selectFrom.
    destruct (_ && _) eqn:Htest.
    + destruct (proj1 Hiff eq_refl) as [Hp Hlt]. rewrite (Hcount eq_refl).
      destruct (IH (S ri) (Some ri) (Some (count pi))) as [[Hres Hall]|Hex].
      { intros b [= <-]. done. }
      * right. exists 0%nat, pi. rewrite Nat.add_0_r.
        split; [done|]. split; [done|]. split; [done|]. split; [done|].
        intros [|j] pj Hj Hpj; simpl in Hj.
        { injection Hj as <-. split; lia. }
        destruct (Hall j pj Hj) as [H0|(b & [= <-] & Hb)]; [lia|].
        split; lia.
      * destruct Hex as (k & pk & Hres & Hk & Hkpos & Hklt & Hmin).
        right. exists (S k), pk.
        split; [by rewrite Hres; f_equal; lia|]. split; [done|]. split; [done|].
        specialize (Hklt _ eq_refl).
        split; [intros b Hb; specialize (Hlt b Hb); lia|].
        intros [|j] pj Hj Hpj; simpl in Hj.
        { injection Hj as <-. split; lia. }
        destruct (Hmin j pj Hj Hpj). split; lia.
    + assert (count pi = 0%nat \/ exists b, bestCount = Some b /\ (b <= count pi)%nat)
        as Hpi.
      { destruct (Nat.eq_dec (count pi) 0%nat) as [|Hne]; [by left|right].
        destruct bestCount as [b|].
        - exists b. split; [done|].
          destruct (Nat.le_gt_cases b (count pi)); [done|].
          assert (false = true) as Hc; [|done]. apply Hiff.
          split; [lia|]. by intros b' [= <-].
        - assert (false = true) as Hc; [|done]. apply Hiff.
          split; [lia|]. done. }
      destruct (IH (S ri) bestRi bestCount Hpos) as [[Hres Hall]|Hex].
      * left. split; [done|]. intros [|j] pj Hj; simpl in Hj.
        { by injection Hj as <-. }
        by apply (Hall j).
      * destruct Hex as (k & pk & Hres & Hk & Hkpos & Hklt & Hmin).
        right. exists (S k), pk.
        split; [by rewrite Hres; f_equal; lia|]. split; [done|]. split; [done|].
        split; [done|].
        intros [|j] pj Hj Hpj; simpl in Hj.
        { injection Hj as <-.
          destruct Hpi as [?|(b & Hb & Hle)]; [lia|]. specialize (Hklt b Hb).
          split; lia. }
        destruct (Hmin j pj Hj Hpj). split; lia.
Qed.

Lemma selectPiece_Some (remainingPieces : list nat) (ri : nat) :
  selectPiece d occ remainingPieces = Some ri ->
  minPositive (map (freeCount d occ) remainingPieces) ri.
Proof.
  unfold selectPiece. intros Hsel.
  destruct (selectFrom_char remainingPieces 0 None None) as [[Hres _]|Hex].
  { done. }
  { congruence. }
  destruct Hex as (k & pk & Hres & Hk & Hkpos & _ & Hmin).
  rewrite Hsel in Hres. injection Hres as ->. simpl.
  exists (freeCount d occ pk). rewrite list_lookup_fmap, Hk. split; [done|].
  split; [done|]. intros rj cj Hj Hcj.
  rewrite list_lookup_fmap in Hj. destruct (remainingPieces !! rj) as [pj|] eqn:Ej; [|done].
  injection Hj as <-. by apply (Hmin rj).
Qed.

Lemma selectPiece_None (remainingPieces : list nat) :
  selectPiece d occ remainingPieces = None <->
  forall pi, pi ∈ remainingPieces -> freeCount d occ pi = 0%nat.
Proof.
  unfold selectPiece.
  destruct (selectFrom_char remainingPieces 0 None None) as [[Hres Hall]|Hex].
  { done. }
  - split; [|done]. intros _ pi Hpi. apply list_elem_of_lookup in Hpi as [j Hj].
    destruct (Hall j pi Hj) as [?|(b & ? & _)]; done.
  - destruct Hex as (k & pk & Hres & Hk & Hkpos & _ & Hmin). rewrite Hres.
    split; [done|]. intros Hall. specialize (Hall pk).
    rewrite Hall in Hkpos; [lia|]. by apply list_elem_of_lookup_2 in Hk.
Qed.

Lemma minPositive_unique (counts : list nat) (i j : nat) :
  minPositive counts i -> minPositive counts j -> i = j.
Proof.
  intros (ci & Hi & Hip & Himin) (cj & Hj & Hjp & Hjmin).
  destruct (Himin j cj Hj Hjp) as [H1 H2]. destruct (Hjmin i ci Hi Hip) as [H3 H4].
  assert (ci = cj) as -> by lia. specialize (H2 eq_refl). specialize (H4 eq_refl). lia.
Qed.

Lemma foldr_min_least (c : nat) (cs : list nat) :
  foldr Nat.min c cs ∈ c :: cs /\ forall x, x ∈ c :: cs -> (foldr Nat.min c cs <= x)%nat.
Proof.
  induction cs as [|y cs [IHin IHle]]; simpl.
  - split; [left|]. intros x Hx. apply list_elem_of_singleton in Hx. lia.
  - split.
    + destruct (Nat.min_spec y (foldr Nat.min c cs)) as [[_ ->]|[_ ->]].
      * right; left.
      * apply elem_of_cons in IHin as [->|?]; [left|right; by right].
    + intros x Hx. apply elem_of_cons in Hx as [->|Hx].
      * specialize (IHle c ltac:(left)). lia.
      * apply elem_of_cons in Hx as [->|Hx]; [lia|].
        specialize (IHle x ltac:(by right)). lia.
Qed.

Lemma selectPieceFull_Some (remainingPieces : list nat) (ri : nat) :
  selectPieceFull d occ remainingPieces = Some ri ->
  minPositive (map (freeCount d occ) remainingPieces) ri.
Proof.
  unfold selectPieceFull. set (counts := map _ _).
  destruct (List.filter _ counts) as [|c cs] eqn:Hf; [done|].
  destruct (foldr_min_least c cs) as [Hin Hle]. set (least := foldr Nat.min c cs) in *.
  intros Hfind. destruct (list_find _ counts) as [[i x]|] eqn:El; [|done].
  injection Hfind as ->. apply list_find_Some in El as (Hi & -> & Hfirst).
  assert (forall x, x ∈ c :: cs <-> x ∈ counts /\ (0 < x)%nat) as Hmem.
  { intros y. rewrite <- Hf, list_elem_of_In, filter_In, <- list_elem_of_In.
    by rewrite Nat.ltb_lt. }
  exists least. split; [done|]. split; [by apply Hmem|].
  intros rj cj Hj Hcj. split.
  - apply Hle, Hmem. split; [|done]. by apply list_elem_of_lookup_2 in Hj.
  - intros ->. destruct (Nat.le_gt_cases ri rj); [done|].
    by destruct (Hfirst rj least Hj).
Qed.

Lemma selectPieceFull_None (remainingPieces : list nat) :
  selectPieceFull d occ remainingPieces = None ->
  forall pi, pi ∈ remainingPieces -> freeCount d occ pi = 0%nat.
Proof.
  unfold selectPieceFull. set (counts := map _ _).
  destruct (List.filter _ counts) as [|c cs] eqn:Hf.
  - intros _ pi Hpi. destruct (Nat.eq_dec (freeCount d occ pi) 0%nat) as [|Hne]; [done|].
    assert (In (freeCount d occ pi) (List.filter (fun c => (0 <? c)%nat) counts)) as Hin.
    { apply filter_In. split; [|apply Nat.ltb_lt; lia].
      apply in_map. by apply list_elem_of_In. }
    by rewrite Hf in Hin.
  - destruct (foldr_min_least c cs) as [Hin _]. set (least := foldr Nat.min c cs) in *.
    intros Hfind. destruct (list_find _ counts) as [[i x]|] eqn:El; [done|].
    apply list_find_None in El.
    assert (least ∈ counts) as Hl.
    { apply list_elem_of_In. rewrite <- Hf in Hin.
      apply list_elem_of_In, filter_In in Hin. tauto. }
    rewrite Forall_forall in El. by destruct (El least Hl).
Qed.

(** The loop with the short-circuited counts selects what the full counts
    select. *)
Lemma selectPiece_refines (remainingPieces : list nat) :
  selectPiece d occ remainingPieces = selectPieceFull d occ remainingPieces.
Proof.
  destruct (selectPiece d occ remainingPieces) as [i|] eqn:E1;
    destruct (selectPieceFull d occ remainingPieces) as [j|] eqn:E2; [| | |done].
  - f_equal. eapply minPositive_unique;
      [by apply selectPiece_Some|by apply selectPieceFull_Some].
  - apply selectPiece_Some in E1 as (c & Hc & Hpos & _).
    rewrite list_lookup_fmap in Hc.
    destruct (remainingPieces !! i) as [pi|] eqn:Ei; [|done]. injection Hc as <-.
    rewrite (selectPieceFull_None _ E2 pi) in Hpos; [lia|].
    by apply list_elem_of_lookup_2 in Ei.
  - apply selectPieceFull_Some in E2 as (c & Hc & Hpos & _).
    rewrite list_lookup_fmap in Hc.
    destruct (remainingPieces !! j) as [pj|] eqn:Ej; [|done]. injection Hc as <-.
    rewrite (proj1 (selectPiece_None _) E1 pj) in Hpos; [lia|].
    by apply list_elem_of_lookup_2 in Ej.
Qed.

End Select.

(* ===================================================================== *)
(** * Part 8 — the invariant of the backtracking search                   *)
(* ===================================================================== *)

(** ** Sorting *)

Lemma insertBy_Permutation {A : Type} (le : A -> A -> bool) (x : A) (l : list A) :
  insertBy le x l ≡ₚ x :: l.
Proof.
  induction l as [|y l IH]; simpl; [done|].
  destruct (le x y); [done|]. rewrite IH. apply Permutation_swap.
Qed.

Lemma stableSort_Permutation {A : Type} (le : A -> A -> bool) (l : list A) :
  stableSort le l ≡ₚ l.
Proof.
  induction l as [|x l IH]; simpl; [done|].
  unfold stableSort in *. simpl. by rewrite insertBy_Permutation, IH.
Qed.

Lemma stableSort_elem_of {A : Type} (le : A -> A -> bool) (l : list A) (x : A) :
  x ∈ stableSort le l <-> x ∈ l.
Proof. by rewrite stableSort_Permutation. Qed.

Lemma stableSort_length {A : Type} (le : A -> A -> bool) (l : list A) :
  length (stableSort le l) = length l.
Proof. by rewrite stableSort_Permutation. Qed.

(** ** Counting *)

Lemma NoDup_bounded_length (l : list nat) (n : nat) :
  NoDup l -> (forall x, x ∈ l -> (x < n)%nat) -> (length l <= n)%nat.
Proof.
  intros Hnd Hlt.
  assert (length l <= length (seq 0 n))%nat as Hle; [|by rewrite length_seq in Hle].
  apply NoDup_incl_length; [by apply NoDup_ListNoDup|].
  intros x Hx. apply in_seq. apply list_elem_of_In in Hx. specialize (Hlt x Hx). lia.
Qed.

Section Invariant.

Variable d : SolveData.
Hypothesis Hwf : wfData d.

Lemma foldl_sizes (acc : Z) (l : list nat) :
  foldl (fun acc pi => acc + pieceSize d pi) acc l =
  acc + foldl (fun acc pi => acc + pieceSize d pi) 0 l.
Proof.
  revert acc. induction l as [|x l IH]; intros acc; simpl; [lia|].
  rewrite (IH (acc + _)), (IH (0 + _)). lia.
Qed.

Lemma sumRemainingSizes_app (l1 l2 : list nat) :
  sumRemainingSizes d (l1 ++ l2) = sumRemainingSizes d l1 + sumRemainingSizes d l2.
Proof. unfold sumRemainingSizes. by rewrite foldl_app, foldl_sizes. Qed.

Lemma sumRemainingSizes_cons (pi : nat) (l : list nat) :
  sumRemainingSizes d (pi :: l) = pieceSize d pi + sumRemainingSizes d l.
Proof. unfold sumRemainingSizes. simpl. by rewrite foldl_sizes. Qed.

Lemma sumRemainingSizes_nonneg (l : list nat) : 0 <= sumRemainingSizes d l.
Proof.
  induction l as [|pi l IH]; [done|]. rewrite sumRemainingSizes_cons.
  pose proof (wf_size d Hwf pi). lia.
Qed.

Lemma sumRemainingSizes_removeAt (l : list nat) (ri pi : nat) :
  l !! ri = Some pi ->
  sumRemainingSizes d (removeAt l ri) = sumRemainingSizes d l - pieceSize d pi.
Proof.
  intros Hri. rewrite <- (take_drop_middle l ri pi Hri) at 2. unfold removeAt.
  rewrite !sumRemainingSizes_app, sumRemainingSizes_cons. lia.
Qed.

Lemma removeAt_length (l : list nat) (ri pi : nat) :
  l !! ri = Some pi -> S (length (removeAt l ri)) = length l.
Proof.
  intros Hri. rewrite <- (take_drop_middle l ri pi Hri) at 2. unfold removeAt.
  rewrite !length_app. simpl. lia.
Qed.

Lemma removeAt_elem_of (l : list nat) (ri : nat) (x : nat) :
  x ∈ removeAt l ri -> x ∈ l.
Proof.
  unfold removeAt. rewrite elem_of_app. intros [H|H].
  - by apply (subseteq_take ri l).
  - by apply (subseteq_drop (S ri) l).
Qed.

(** ** Free placements *)

Lemma cellFree_true (occ : list Z) (c : nat) :
  cellFree occ c = true <-> occ !! c = Some (-1).
Proof. unfold cellFree. apply bool_decide_eq_true. Qed.

Lemma placementFree_true (occ : list Z) (pIdx : nat) :
  placementFree d occ pIdx = true <->
  forall c, c ∈ targetsOf d pIdx -> occ !! c = Some (-1).
Proof.
  unfold placementFree. rewrite forallb_forall. setoid_rewrite cellFree_true.
  by setoid_rewrite list_elem_of_In.
Qed.

Lemma validPlacements_elem_of (occ : list Z) (chosenPi : nat) (v : nat * nat) :
  v ∈ sortValid (validPlacements d occ chosenPi) ->
  v.1 ∈ placementsOf d chosenPi /\ placementFree d occ v.1 = true.
Proof.
  unfold sortValid. rewrite stableSort_elem_of. unfold validPlacements.
  rewrite list_elem_of_omap. intros (pIdx & Hin & Hv).
  destruct (placementFree d occ pIdx) eqn:Hfree; [|done].
  injection Hv as <-. done.
Qed.

Lemma selectPiece_lookup (occ : list Z) (remainingPieces : list nat) (ri : nat) :
  selectPiece d occ remainingPieces = Some ri ->
  exists pi, remainingPieces !! ri = Some pi.
Proof.
  intros Hsel. apply selectPiece_Some in Hsel as (c & Hc & _).
  rewrite list_lookup_fmap in Hc. destruct (remainingPieces !! ri) as [pi|]; [|done].
  by exists pi.
Qed.

(** ** Recording *)

Lemma cellsOf_app (sol1 sol2 : list Item) :
  cellsOf d (sol1 ++ sol2) = cellsOf d sol1 ++ cellsOf d sol2.
Proof. unfold cellsOf. by rewrite flat_map_app. Qed.

Lemma cellsOf_singleton (it : Item) : cellsOf d [it] = targetsOf d (pIdx it).
Proof. unfold cellsOf. simpl. by rewrite app_nil_r. Qed.

Lemma bestOK_searchCount (best : Best) (n : Z) :
  bestOK d best ->
  bestOK d (mkBest n (bestCoverage best) (topSolutions best) (seenSignatures best)).
Proof. intros (sols & ? & ? & ? & ?). by exists sols. Qed.

Lemma record_bestCoverage (cur : list Item) (cov : Z) (best : Best) :
  bestCoverage (record d cur cov best) = Z.max (bestCoverage best) cov.
Proof.
  unfold record. destruct (Z.ltb_spec (bestCoverage best) cov); simpl; [lia|].
  destruct (_ && _); [case_bool_decide|]; simpl; lia.
Qed.

Lemma record_bestOK (cur : list Item) (cov : Z) (best : Best) :
  solOK d cur -> cov = Z.of_nat (length (cellsOf d cur)) ->
  bestOK d best -> bestOK d (record d cur cov best).
Proof.
  intros Hsol Hcov (sols & Htop & Hseen & Hnd & Hall). unfold record.
  destruct (Z.ltb_spec (bestCoverage best) cov).
  - exists [cur]. simpl. split; [done|]. split; [done|].
    split; [apply NoDup_singleton|].
    intros sol Hin. apply list_elem_of_singleton in Hin as ->. done.
  - destruct (_ && _) eqn:Htie; [|by exists sols].
    apply andb_true_iff in Htie as [Heq _]. apply Z.eqb_eq in Heq.
    case_bool_decide as Hin; [by exists sols|].
    exists (sols ++ [cur]). simpl. rewrite !map_app, Htop, Hseen. simpl.
    split; [done|]. split; [done|]. split.
    + rewrite <- Hseen. apply NoDup_app. split; [done|].
      split; [|apply NoDup_singleton].
      intros x Hx Hx'. apply list_elem_of_singleton in Hx' as ->. done.
    + intros sol Hsol'. apply elem_of_app in Hsol' as [?|Hs]; [by apply Hall|].
      apply list_elem_of_singleton in Hs as ->. split; [done|]. lia.
Qed.

Lemma solOK_coverage (sol : list Item) :
  solOK d sol -> Z.of_nat (length (cellsOf d sol)) <= boardSize d.
Proof.
  intros (_ & Hnd & Hin). pose proof (NoDup_bounded_length _ _ Hnd Hin).
  pose proof (wf_boardSize d Hwf). lia.
Qed.

(** ** One step down the tree *)

Lemma toInt16_pieceIdx (pi : nat) :
  pi ∈ pieceOrder d -> toInt16 (Z.of_nat pi) <> -1.
Proof.
  intros Hpi. pose proof (wf_pieceIdx d Hwf pi Hpi).
  rewrite toInt16_small; lia.
Qed.

Lemma apply_boardOK (pIdx pieceIdx : nat) (b : Board) :
  pieceIdx ∈ pieceOrder d ->
  boardOK d b -> boardOK d (applyPlacementByIndex d pIdx pieceIdx b).
Proof.
  intros Hpi (Hl1 & Hl2 & Hfree).
  destruct (apply_length d pIdx pieceIdx b) as [E1 E2].
  split; [congruence|]. split; [congruence|].
  intros c Hc. destruct (decide (c ∈ targetsOf d pIdx)) as [Hin|Hnin].
  - destruct (apply_target d pIdx pieceIdx b c Hin) as [H1 _].
    apply lookup_lt_Some in Hc as Hlt. rewrite E1 in Hlt.
    rewrite H1 in Hc by done. injection Hc as Hc.
    by apply toInt16_pieceIdx in Hpi.
  - destruct (apply_other d pIdx pieceIdx b c Hnin) as [E3 E4].
    rewrite E4. apply Hfree. by rewrite <- E3.
Qed.

Lemma apply_occupied (pIdx pieceIdx : nat) (b : Board) (c : nat) :
  pieceIdx ∈ pieceOrder d ->
  (forall c, c ∈ targetsOf d pIdx -> (c < length (occupancy b))%nat) ->
  occupied (occupancy (applyPlacementByIndex d pIdx pieceIdx b)) c <->
  c ∈ targetsOf d pIdx \/ occupied (occupancy b) c.
Proof.
  intros Hpi Hrange. destruct (decide (c ∈ targetsOf d pIdx)) as [Hin|Hnin].
  - destruct (apply_target d pIdx pieceIdx b c Hin) as [H1 _].
    specialize (H1 (Hrange c Hin)). split; [by left|]. intros _.
    exists (toInt16 (Z.of_nat pieceIdx)). split; [done|]. by apply toInt16_pieceIdx.
  - destruct (apply_other d pIdx pieceIdx b c Hnin) as [E3 _].
    unfold occupied. rewrite E3. split; [by right|]. by intros [?|?].
Qed.

Lemma child_nodeOK (remainingPieces : list nat) (remainingSum : Z)
    (currentSolution : list Item) (coverage : Z) (b : Board)
    (ri chosenPi : nat) (v : nat * nat) :
  nodeOK d remainingPieces remainingSum currentSolution coverage b ->
  remainingPieces !! ri = Some chosenPi ->
  v ∈ sortValid (validPlacements d (occupancy b) chosenPi) ->
  nodeOK d (removeAt remainingPieces ri) (remainingSum - pieceSize d chosenPi)
         (currentSolution ++ [itemOf d v.1])
         (coverage + Z.of_nat (m_tLen (meta d v.1)))
         (applyPlacementByIndex d v.1 chosenPi b) /\
  undoPlacementByIndex d v.1 (applyPlacementByIndex d v.1 chosenPi b) = b /\
  coverage + Z.of_nat (m_tLen (meta d v.1)) + (remainingSum - pieceSize d chosenPi)
    = coverage + remainingSum.
Proof.
  intros [Hb [Hd0 Hd1] Hp Hs Hsol Hcells Hcov] Hri Hv.
  apply validPlacements_elem_of in Hv as [Hplace Hfree].
  rewrite placementFree_true in Hfree.
  assert (chosenPi ∈ pieceOrder d) as Hchosen.
  { apply Hp. by eapply list_elem_of_lookup_2. }
  destruct (wf_targets d Hwf chosenPi v.1 Hchosen Hplace) as (Hnd & Hin & Hlen & Hsize).
  pose proof (removeAt_length _ _ _ Hri) as Hrl.
  destruct Hb as (Hl1 & Hl2 & Hst).
  assert (forall c, c ∈ targetsOf d v.1 -> (c < length (occupancy b))%nat) as Hrange.
  { intros c Hc. rewrite Hl1. by apply Hin. }
  split; [|split].
  - split.
    + apply apply_boardOK; done.
    + rewrite apply_depth. lia.
    + intros pi Hpi. by apply Hp, (removeAt_elem_of _ ri).
    + rewrite Hs. symmetry. by apply sumRemainingSizes_removeAt.
    + destruct Hsol as (Hgen & Hnd' & Hin').
      split; [|split].
      * intros it Hit. apply elem_of_app in Hit as [?|Hit]; [by apply Hgen|].
        apply list_elem_of_singleton in Hit as ->. simpl. split; [done|].
        by exists chosenPi.
      * rewrite cellsOf_app, cellsOf_singleton. cbn [pIdx itemOf].
        apply NoDup_app. split; [done|]. split; [|done].
        intros c Hc Hc'. apply Hcells in Hc as (x & Hx & Hne).
        rewrite (Hfree c Hc') in Hx. congruence.
      * intros c. rewrite cellsOf_app, cellsOf_singleton, elem_of_app. cbn [pIdx itemOf].
        intros [?|?]; [by apply Hin'|by apply Hin].
    + intros c. rewrite cellsOf_app, cellsOf_singleton, elem_of_app. cbn [pIdx itemOf].
      rewrite apply_occupied by done. rewrite Hcells. tauto.
    + rewrite cellsOf_app, cellsOf_singleton, length_app. cbn [pIdx itemOf]. lia.
  - apply undo_apply.
    + congruence.
    + apply toInt32_small. lia.
    + intros c Hc. pose proof (Hfree c Hc). split; [done|]. by apply Hst.
  - lia.
Qed.

(** ** The loop over the candidates *)

Lemma resultOK_leaf (remainingSum coverage : Z) (b : Board) (best : Best)
    (cur : list Item) (res : bool) :
  let best2 := record d cur coverage (countNode best) in
  solOK d cur -> coverage = Z.of_nat (length (cellsOf d cur)) ->
  0 <= remainingSum -> bestOK d best ->
  (res = true -> boardSize d <= coverage) ->
  resultOK d remainingSum coverage b best (res, (b, best2)).
Proof.
  intros best2 Hsol Hcov Hsum Hbest Hres.
  pose proof (solOK_coverage _ Hsol) as Hle.
  assert (bestCoverage best2 = Z.max (bestCoverage best) coverage) as Hbc.
  { unfold best2. by rewrite record_bestCoverage. }
  split; simpl.
  - done.
  - apply record_bestOK; [done|done|]. by apply bestOK_searchCount.
  - lia.
  - lia.
  - lia.
  - intros Ht. specialize (Hres Ht). lia.
Qed.

Lemma tryPlacements_ok (rec : nat -> Board * Best -> bool * (Board * Best))
    (chosenPi : nat) (remainingSum coverage : Z) (b : Board) (childSum : Z)
    (childCov : nat -> Z) (valid : list (nat * nat)) :
  (forall v best', v ∈ valid -> bestOK d best' ->
     resultOK d childSum (childCov v.1) (applyPlacementByIndex d v.1 chosenPi b) best'
              (rec v.1 (applyPlacementByIndex d v.1 chosenPi b, best'))) ->
  (forall v, v ∈ valid ->
     undoPlacementByIndex d v.1 (applyPlacementByIndex d v.1 chosenPi b) = b /\
     childCov v.1 + childSum = coverage + remainingSum) ->
  forall best, bestOK d best ->
  resultOK d remainingSum coverage b best
           (tryPlacements d false rec chosenPi valid (b, best)).
Proof.
  induction valid as [|v valid IH]; intros Hrec Hundo best Hbest.
  - simpl. split; simpl; try done; lia.
  - simpl.
    pose proof (Hrec v best ltac:(left) Hbest) as Hchild.
    destruct (Hundo v ltac:(left)) as [Hu Hsum].
    destruct (rec v.1 _) as [stopped [b2 best2]].
    destruct Hchild as [Hb2 Hbest2 Hg Hbd Hbb Hpf]; simpl in *. subst b2. rewrite Hu.
    destruct stopped.
    + split; simpl; try done; lia.
    + destruct (IH ltac:(intros; apply Hrec; [by right|done])
                   ltac:(intros; apply Hundo; by right) best2 Hbest2)
        as [Hb3 Hbest3 Hg3 Hbd3 Hbb3 Hpf3].
      split; try done; lia.
Qed.

(** ** The search tree *)

Lemma backtrackN_ok (fuel : nat) :
  forall remainingPieces remainingSum currentSolution coverage b best,
    (length remainingPieces < fuel)%nat ->
    nodeOK d remainingPieces remainingSum currentSolution coverage b ->
    bestOK d best ->
    resultOK d remainingSum coverage b best
             (backtrackN d false fuel remainingPieces remainingSum currentSolution
                         coverage (b, best)).
Proof.
  induction fuel as [|fuel IH];
    intros remainingPieces remainingSum currentSolution coverage b best Hfuel Hnode Hbest;
    [lia|].
  assert (0 <= remainingSum) as Hsum.
  { rewrite (n_sum _ _ _ _ _ _ Hnode). apply sumRemainingSizes_nonneg. }
  pose proof (n_sol _ _ _ _ _ _ Hnode) as Hsol.
  pose proof (n_coverage _ _ _ _ _ _ Hnode) as Hcov.
  cbn [backtrackN fst snd].
  set (best2 := record d _ _ _).
  destruct (Z.leb_spec (boardSize d) coverage).
  { by apply resultOK_leaf. }
  destruct (coverage + remainingSum <=? bestCoverage best2).
  { by apply resultOK_leaf. }
  case_bool_decide.
  { by apply resultOK_leaf. }
  destruct (selectPiece d (occupancy b) remainingPieces) as [bestRi|] eqn:Hsel.
  2:{ by apply resultOK_leaf. }
  destruct (selectPiece_lookup _ _ _ Hsel) as [chosenPi Hri]. rewrite Hri. simpl default.
  case_bool_decide.
  { by apply resultOK_leaf. }
  pose proof (resultOK_leaf remainingSum coverage b best currentSolution false
                Hsol Hcov Hsum Hbest ltac:(done)) as Hleaf.
  fold best2 in Hleaf. destruct Hleaf as [_ Hbest2 Hg2 Hbd2 Hbb2 _]; simpl in *.
  pose proof (removeAt_length _ _ _ Hri) as Hrl.
  epose proof (tryPlacements_ok _ chosenPi remainingSum coverage b
                 (remainingSum - pieceSize d chosenPi)
                 (fun pIdx => coverage + Z.of_nat (m_tLen (meta d pIdx)))
                 (sortValid (validPlacements d (occupancy b) chosenPi)) _ _ best2 Hbest2)
    as [Hb3 Hbest3 Hg3 Hbd3 Hbb3 Hpf3].
  split; [exact Hb3|exact Hbest3|lia|lia|lia|exact Hpf3].
  Unshelve.
  - intros v best' Hv Hbest'. simpl.
    destruct (child_nodeOK _ _ _ _ _ _ _ _ Hnode Hri Hv) as (Hchild & _ & _).
    apply IH; [lia|done|done].
  - intros v Hv. simpl.
    destruct (child_nodeOK _ _ _ _ _ _ _ _ Hnode Hri Hv) as (_ & Hu & Hs).
    split; [done|lia].
Qed.

(** ** The fuel of [backtrackN] never runs out *)

Lemma tryPlacements_ext (shouldStop : bool)
    (rec rec' : nat -> Board * Best -> bool * (Board * Best))
    (chosenPi : nat) (valid : list (nat * nat)) (st : Board * Best) :
  (forall p st', rec p st' = rec' p st') ->
  tryPlacements d shouldStop rec chosenPi valid st
    = tryPlacements d shouldStop rec' chosenPi valid st.
Proof.
  intros Hext. revert st. induction valid as [|v valid IH]; intros st; [done|].
  cbn [tryPlacements]. destruct shouldStop; [done|]. rewrite Hext.
  destruct (rec' v.1 _) as [stopped st2]. destruct stopped; [done|]. apply IH.
Qed.

(** Any two amounts of fuel above the number of remaining pieces give the
    same result: [backtrack] computes the result of the source's recursion. *)
Lemma backtrackN_fuel (shouldStop : bool) (fuel : nat) :
  forall fuel' remainingPieces remainingSum currentSolution coverage st,
    (length remainingPieces < fuel)%nat -> (length remainingPieces < fuel')%nat ->
    backtrackN d shouldStop fuel remainingPieces remainingSum currentSolution coverage st
    = backtrackN d shouldStop fuel' remainingPieces remainingSum currentSolution
                 coverage st.
Proof.
  induction fuel as [|fuel IH];
    intros fuel' remainingPieces remainingSum currentSolution coverage st Hf Hf'; [lia|].
  destruct fuel' as [|fuel']; [lia|]. cbn [backtrackN].
  destruct shouldStop; [done|].
  destruct (boardSize d <=? coverage); [done|].
  destruct (_ <=? _); [done|].
  case_bool_decide; [done|].
  destruct (selectPiece d (occupancy st.1) remainingPieces) as [bestRi|] eqn:Hsel; [|done].
  destruct (selectPiece_lookup _ _ _ Hsel) as [chosenPi Hri]. rewrite Hri. simpl default.
  case_bool_decide; [done|].
  pose proof (removeAt_length _ _ _ Hri) as Hrl.
  apply tryPlacements_ext. intros p st'. apply IH; lia.
Qed.

End Invariant.

(* ===================================================================== *)
(** * Part 9 — one worker from [START] to [COMPLETE]                      *)
(* ===================================================================== *)

Section Solve.

Variable d : SolveData.
Hypothesis Hwf : wfData d.

Lemma initialBoard_lookup (c : nat) :
  (c < Z.to_nat (boardSize d))%nat ->
  occupancy (initialBoard d) !! c = Some (-1) /\ depthStamp (initialBoard d) !! c = Some 0.
Proof. intros Hc. simpl. rewrite !lookup_replicate. auto. Qed.

Lemma initialBoard_ok : boardOK d (initialBoard d).
Proof.
  split; [|split]; simpl; rewrite ?length_replicate; try done.
  intros c Hc. apply lookup_replicate in Hc as [_ Hlt]. by apply lookup_replicate.
Qed.

Lemma initialBoard_not_occupied (c : nat) : ~ occupied (occupancy (initialBoard d)) c.
Proof.
  intros (v & Hv & Hne). simpl in Hv. apply lookup_replicate in Hv as [-> _]. done.
Qed.

Lemma bestOK_initial : bestOK d (initialBest d).
Proof.
  exists []. simpl. split; [done|]. split; [done|]. split; [apply NoDup_nil_2|].
  intros sol Hsol. by apply elem_of_nil in Hsol.
Qed.

Lemma first_nodeOK (pIdx : nat) :
  pIdx ∈ assignedPlacementIndices d ->
  nodeOK d (remainingAfterFirst d) (remainingAfterFirstSum d) [firstItem d pIdx]
         (Z.of_nat (m_tLen (meta d pIdx)))
         (applyPlacementByIndex d pIdx (firstPieceIdx d) (initialBoard d)) /\
  undoPlacementByIndex d pIdx
    (applyPlacementByIndex d pIdx (firstPieceIdx d) (initialBoard d)) = initialBoard d.
Proof.
  intros Hin. destruct (wf_assigned d Hwf pIdx Hin) as (Hfirst & Hplace & Hitem).
  destruct (wf_targets d Hwf _ _ Hfirst Hplace) as (Hnd & Hrange & Hlen & Hsize).
  pose proof (wf_depth d Hwf) as Hdepth.
  assert (length (remainingAfterFirst d) < length (pieceOrder d))%nat as Hrem.
  { unfold remainingAfterFirst. rewrite length_drop.
    apply list_elem_of_lookup in Hfirst as [i Hi]. apply lookup_lt_Some in Hi. lia. }
  split.
  - split.
    + apply apply_boardOK; [done|done|apply initialBoard_ok].
    + rewrite apply_depth. simpl. lia.
    + intros pi Hpi. by apply (subseteq_drop 1 (pieceOrder d)).
    + done.
    + rewrite Hitem. split; [|split].
      * intros it Hit. apply list_elem_of_singleton in Hit as ->. simpl.
        split; [done|]. by exists (firstPieceIdx d).
      * by rewrite cellsOf_singleton.
      * intros c. rewrite cellsOf_singleton. apply Hrange.
    + intros c. rewrite Hitem, cellsOf_singleton. cbn [Worker.pIdx itemOf].
      rewrite apply_occupied; [|done|done|].
      * pose proof (initialBoard_not_occupied c). tauto.
      * intros c' Hc'. simpl. rewrite length_replicate. by apply Hrange.
    + rewrite Hitem, cellsOf_singleton. cbn [Worker.pIdx itemOf]. lia.
  - apply undo_apply.
    + simpl. by rewrite !length_replicate.
    + by apply toInt32_small.
    + intros c Hc. by apply initialBoard_lookup, Hrange.
Qed.

(** One round of the loop of [solve] on a cleared board. *)
Lemma solveStep_ok (pIdx : nat) (best : Best) :
  pIdx ∈ assignedPlacementIndices d -> bestOK d best ->
  let st := solveStep d false pIdx (initialBoard d, best) in
  st.1 = initialBoard d /\ bestOK d st.2 /\
  bestCoverage best <= bestCoverage st.2 /\
  bestCoverage st.2 <= Z.max (bestCoverage best) (boardSize d).
Proof.
  intros Hin Hbest. destruct (first_nodeOK pIdx Hin) as [Hnode Hundo].
  unfold solveStep. cbn [fst snd].
  assert (length (remainingAfterFirst d) < S (length (remainingAfterFirst d)))%nat
    as Hfuel by lia.
  pose proof (backtrackN_ok d Hwf _ _ _ _ _ _ best Hfuel Hnode Hbest) as Hres.
  unfold backtrack. destruct (backtrackN _ _ _ _ _ _ _ _) as [stopped [b2 best2]].
  destruct Hres as [Hb2 Hbest2 Hg _ Hbb _]; cbn [fst snd] in *. subst b2.
  rewrite Hundo. repeat split; done.
Qed.

Lemma solveLoop_ok (assigned : list nat) (best : Best) :
  (forall pIdx, pIdx ∈ assigned -> pIdx ∈ assignedPlacementIndices d) ->
  bestOK d best ->
  let st := solveLoop d false assigned (initialBoard d, best) in
  st.1 = initialBoard d /\ bestOK d st.2 /\
  bestCoverage best <= bestCoverage st.2 /\
  bestCoverage st.2 <= Z.max (bestCoverage best) (boardSize d).
Proof.
  revert best. induction assigned as [|pIdx rest IH]; intros best Hsub Hbest; simpl.
  - repeat split; try done; lia.
  - destruct (solveStep_ok pIdx best ltac:(apply Hsub; left) Hbest) as (Hb & Hb1 & Hg & Hbd).
    destruct (solveStep d false pIdx _) as [b1 best1]; cbn [fst snd] in *. subst b1.
    destruct (IH best1 ltac:(intros; apply Hsub; by right) Hb1) as (Hb' & Hb2 & Hg' & Hbd').
    repeat split; try done; lia.
Qed.

(** The report of a worker: its solutions are distinct by signature, each is
    a packing of the board, and each covers the reported number of cells. *)
Lemma solve_ok :
  let c := solve d false in
  (exists sols : list (list Item),
     c_solutions c = map (exportSolution d) sols /\
     NoDup (map (getSolutionCellSignature d) sols) /\
     forall sol, sol ∈ sols ->
       solOK d sol /\ Z.of_nat (length (cellsOf d sol)) = c_coverage c) /\
  initialBestCoverage d <= c_coverage c /\
  c_coverage c <= Z.max (initialBestCoverage d) (boardSize d).
Proof.
  destruct (solveLoop_ok (assignedPlacementIndices d) (initialBest d)
              ltac:(done) bestOK_initial) as (_ & (sols & Htop & Hseen & Hnd & Hall) & Hg & Hbd).
  simpl. unfold solveState. split; [|done].
  exists sols. split; [done|]. split; [by rewrite <- Hseen|done].
Qed.

End Solve.

(* ===================================================================== *)
(** * Part 10 — a better starting bound never lowers the result           *)
(* ===================================================================== *)

Section Monotone.

Variable d : SolveData.
Hypothesis Hwf : wfData d.

(** The recursive calls made by the loop of one node. *)
Lemma child_calls_ok (fuel : nat) (remainingPieces : list nat) (remainingSum : Z)
    (currentSolution : list Item) (coverage : Z) (b : Board) (ri chosenPi : nat) :
  nodeOK d remainingPieces remainingSum currentSolution coverage b ->
  remainingPieces !! ri = Some chosenPi ->
  (length remainingPieces < S fuel)%nat ->
  let valid := sortValid (validPlacements d (occupancy b) chosenPi) in
  let rec := fun (p : nat) (st' : Board * Best) =>
    backtrackN d false fuel (removeAt remainingPieces ri)
               (remainingSum - pieceSize d chosenPi)
               (currentSolution ++ [itemOf d p])
               (coverage + Z.of_nat (m_tLen (meta d p))) st' in
  (forall v best', v ∈ valid -> bestOK d best' ->
     resultOK d (remainingSum - pieceSize d chosenPi)
              (coverage + Z.of_nat (m_tLen (meta d v.1)))
              (applyPlacementByIndex d v.1 chosenPi b) best'
              (rec v.1 (applyPlacementByIndex d v.1 chosenPi b, best'))) /\
  (forall v, v ∈ valid ->
     undoPlacementByIndex d v.1 (applyPlacementByIndex d v.1 chosenPi b) = b /\
     coverage + Z.of_nat (m_tLen (meta d v.1)) + (remainingSum - pieceSize d chosenPi)
       = coverage + remainingSum).
Proof.
  intros Hnode Hri Hfuel valid rec.
  pose proof (removeAt_length _ _ _ Hri) as Hrl.
  split.
  - intros v best' Hv Hbest'.
    destruct (child_nodeOK d Hwf _ _ _ _ _ _ _ _ Hnode Hri Hv) as (Hchild & _ & _).
    apply backtrackN_ok; [done|lia|done|done].
  - intros v Hv.
    destruct (child_nodeOK d Hwf _ _ _ _ _ _ _ _ Hnode Hri Hv) as (_ & Hu & Hs).
    done.
Qed.

Lemma tryPlacements_mono (rec : nat -> Board * Best -> bool * (Board * Best))
    (chosenPi : nat) (remainingSum coverage : Z) (b : Board) (childSum : Z)
    (childCov : nat -> Z) (valid : list (nat * nat)) :
  (forall v best', v ∈ valid -> bestOK d best' ->
     resultOK d childSum (childCov v.1) (applyPlacementByIndex d v.1 chosenPi b) best'
              (rec v.1 (applyPlacementByIndex d v.1 chosenPi b, best'))) ->
  (forall v, v ∈ valid ->
     undoPlacementByIndex d v.1 (applyPlacementByIndex d v.1 chosenPi b) = b /\
     childCov v.1 + childSum = coverage + remainingSum) ->
  (forall v best best', v ∈ valid -> bestOK d best -> bestOK d best' ->
     bestCoverage best' <= bestCoverage best ->
     bestCoverage (rec v.1 (applyPlacementByIndex d v.1 chosenPi b, best')).2.2 <=
     bestCoverage (rec v.1 (applyPlacementByIndex d v.1 chosenPi b, best)).2.2) ->
  forall best best', bestOK d best -> bestOK d best' ->
    bestCoverage best' <= bestCoverage best ->
    bestCoverage (tryPlacements d false rec chosenPi valid (b, best')).2.2 <=
    bestCoverage (tryPlacements d false rec chosenPi valid (b, best)).2.2.
Proof.
  induction valid as [|v valid IH]; intros Hrec Hundo Hmono best best' Hb Hb' Hle.
  - done.
  - assert (forall v0 best0, v0 ∈ valid -> bestOK d best0 ->
              resultOK d childSum (childCov v0.1)
                (applyPlacementByIndex d v0.1 chosenPi b) best0
                (rec v0.1 (applyPlacementByIndex d v0.1 chosenPi b, best0))) as Hrec'
      by (intros; apply Hrec; [by right|done]).
    assert (forall v0, v0 ∈ valid ->
              undoPlacementByIndex d v0.1 (applyPlacementByIndex d v0.1 chosenPi b) = b /\
              childCov v0.1 + childSum = coverage + remainingSum) as Hundo'
      by (intros; apply Hundo; by right).
    specialize (IH Hrec' Hundo' ltac:(intros; apply Hmono; [by right|done..])).
    pose proof (Hmono v best best' ltac:(left) Hb Hb' Hle) as Hm.
    pose proof (Hrec v best ltac:(left) Hb) as Hr.
    pose proof (Hrec v best' ltac:(left) Hb') as Hr'.
    destruct (Hundo v ltac:(left)) as [Hu _].
    cbn [tryPlacements fst snd].
    destruct (rec v.1 (_, best)) as [stopped [b2 best2]].
    destruct (rec v.1 (_, best')) as [stopped' [b2' best2']].
    destruct Hr as [Hrb Hrbest _ _ _ Hperfect].
    destruct Hr' as [Hrb' Hrbest' _ _ _ _].
    cbn [fst snd] in *. subst b2 b2'. rewrite Hu.
    destruct stopped, stopped'; cbn [fst snd].
    + done.
    + pose proof (tryPlacements_ok d rec chosenPi remainingSum coverage b childSum
                    childCov valid Hrec' Hundo' best2' Hrbest') as [_ _ _ _ Hbb _].
      specialize (Hperfect eq_refl). cbn [fst snd] in Hbb. lia.
    + pose proof (tryPlacements_ok d rec chosenPi remainingSum coverage b childSum
                    childCov valid Hrec' Hundo' best2 Hrbest) as [_ _ Hg _ _ _].
      cbn [fst snd] in Hg. lia.
    + by apply IH.
Qed.

Lemma backtrackN_mono (fuel : nat) :
  forall remainingPieces remainingSum currentSolution coverage b best best',
    (length remainingPieces < fuel)%nat ->
    nodeOK d remainingPieces remainingSum currentSolution coverage b ->
    bestOK d best -> bestOK d best' ->
    bestCoverage best' <= bestCoverage best ->
    bestCoverage (backtrackN d false fuel remainingPieces remainingSum currentSolution
                             coverage (b, best')).2.2 <=
    bestCoverage (backtrackN d false fuel remainingPieces remainingSum currentSolution
                             coverage (b, best)).2.2.
Proof.
  induction fuel as [|fuel IH];
    intros remainingPieces remainingSum currentSolution coverage b best best'
           Hfuel Hnode Hbest Hbest' Hle; [lia|].
  pose proof (backtrackN_ok d Hwf (S fuel) _ _ _ _ _ best' Hfuel Hnode Hbest')
    as [_ _ _ Hbound' _ _].
  revert Hbound'. cbn [backtrackN fst snd].
  set (best2 := record d _ _ (countNode best)).
  set (best2' := record d _ _ (countNode best')).
  assert (bestCoverage best2 = Z.max (bestCoverage best) coverage) as Hbc
    by (unfold best2; by rewrite record_bestCoverage).
  assert (bestCoverage best2' = Z.max (bestCoverage best') coverage) as Hbc'
    by (unfold best2'; by rewrite record_bestCoverage).
  assert (bestOK d best2 /\ bestOK d best2') as [Hok2 Hok2'].
  { split; (apply record_bestOK;
            [apply (n_sol _ _ _ _ _ _ Hnode)|apply (n_coverage _ _ _ _ _ _ Hnode)
            |by apply bestOK_searchCount]). }
  destruct (Z.leb_spec (boardSize d) coverage); [cbn [fst snd]; lia|].
  destruct (Z.leb_spec (coverage + remainingSum) (bestCoverage best2)).
  { intros Hbound'. cbn [fst snd]. lia. }
  destruct (Z.leb_spec (coverage + remainingSum) (bestCoverage best2')); [lia|].
  case_bool_decide; [cbn [fst snd]; lia|].
  destruct (selectPiece d (occupancy b) remainingPieces) as [bestRi|] eqn:Hsel;
    [|cbn [fst snd]; lia].
  destruct (selectPiece_lookup _ _ _ _ Hsel) as [chosenPi Hri]. rewrite Hri. simpl default.
  case_bool_decide; [cbn [fst snd]; lia|].
  intros _.
  destruct (child_calls_ok fuel _ _ _ _ _ _ _ Hnode Hri Hfuel) as [Hrec Hundo].
  eapply (tryPlacements_mono _ chosenPi remainingSum coverage b
            (remainingSum - pieceSize d chosenPi)
            (fun p => coverage + Z.of_nat (m_tLen (meta d p))));
    [apply Hrec|apply Hundo| |done|done|lia].
  intros v bb bb' Hv Hbb Hbb' Hle'.
  destruct (child_nodeOK d Hwf _ _ _ _ _ _ _ _ Hnode Hri Hv) as (Hchild & _ & _).
  pose proof (removeAt_length _ _ _ Hri) as Hrl.
  apply IH; [lia|done|done|done|done].
Qed.

Lemma solveStep_mono (p : nat) (best best' : Best) :
  p ∈ assignedPlacementIndices d -> bestOK d best -> bestOK d best' ->
  bestCoverage best' <= bestCoverage best ->
  bestCoverage (solveStep d false p (initialBoard d, best')).2 <=
  bestCoverage (solveStep d false p (initialBoard d, best)).2.
Proof.
  intros Hin Hb Hb' Hle. destruct (first_nodeOK d Hwf p Hin) as [Hnode _].
  assert (length (remainingAfterFirst d) < S (length (remainingAfterFirst d)))%nat
    as Hfuel by lia.
  pose proof (backtrackN_mono _ _ _ _ _ _ best best' Hfuel Hnode Hb Hb' Hle) as Hm.
  unfold solveStep, backtrack. cbn [fst snd].
  destruct (backtrackN _ _ _ _ _ _ _ (_, best')) as [? [? ?]].
  destruct (backtrackN _ _ _ _ _ _ _ (_, best)) as [? [? ?]]. done.
Qed.

Lemma solveLoop_mono (assigned : list nat) (best best' : Best) :
  (forall p, p ∈ assigned -> p ∈ assignedPlacementIndices d) ->
  bestOK d best -> bestOK d best' ->
  bestCoverage best' <= bestCoverage best ->
  bestCoverage (solveLoop d false assigned (initialBoard d, best')).2 <=
  bestCoverage (solveLoop d false assigned (initialBoard d, best)).2.
Proof.
  revert best best'. induction assigned as [|p rest IH]; intros best best' Hsub Hb Hb' Hle.
  - done.
  - cbn [solveLoop].
    pose proof (solveStep_mono p best best' ltac:(apply Hsub; left) Hb Hb' Hle) as Hm.
    destruct (solveStep_ok d Hwf p best ltac:(apply Hsub; left) Hb) as (E & Hok & _).
    destruct (solveStep_ok d Hwf p best' ltac:(apply Hsub; left) Hb') as (E' & Hok' & _).
    destruct (solveStep d false p (_, best)) as [b1 best1].
    destruct (solveStep d false p (_, best')) as [b1' best1'].
    cbn [fst snd] in *. subst b1 b1'.
    apply IH; [intros; apply Hsub; by right|done|done|done].
Qed.

Lemma solveLoop_app (l1 l2 : list nat) (st : Board * Best) :
  solveLoop d false (l1 ++ l2) st = solveLoop d false l2 (solveLoop d false l1 st).
Proof. revert st. induction l1 as [|p l1 IH]; intros st; simpl; [done|]. apply IH. Qed.

(** A worker that is given a part of a list of first placements finds no
    more than a worker that is given the whole list. *)
Lemma solveLoop_part (pre part post : list nat) :
  (forall p, p ∈ pre ++ part ++ post -> p ∈ assignedPlacementIndices d) ->
  bestCoverage (solveLoop d false part (initialBoard d, initialBest d)).2 <=
  bestCoverage (solveLoop d false (pre ++ part ++ post) (initialBoard d, initialBest d)).2.
Proof.
  intros Hsub. rewrite !solveLoop_app.
  destruct (solveLoop_ok d Hwf pre (initialBest d)
              ltac:(intros; apply Hsub; set_solver) (bestOK_initial d)) as (E1 & Hok1 & Hg1 & _).
  destruct (solveLoop d false pre _) as [b1 best1]. cbn [fst snd] in *. subst b1.
  pose proof (solveLoop_mono part best1 (initialBest d)
                ltac:(intros; apply Hsub; set_solver) Hok1 (bestOK_initial d) Hg1) as Hm.
  destruct (solveLoop_ok d Hwf part best1
              ltac:(intros; apply Hsub; set_solver) Hok1) as (E2 & Hok2 & _).
  destruct (solveLoop d false part (_, best1)) as [b2 best2]. cbn [fst snd] in *. subst b2.
  destruct (solveLoop_ok d Hwf post best2
              ltac:(intros; apply Hsub; set_solver) Hok2) as (_ & _ & Hg3 & _).
  lia.
Qed.

End Monotone.

(* ===================================================================== *)
(** * Part 11 — the placement compiler and the packed tables              *)
(* ===================================================================== *)

(** ** Rotation and translation are injective *)

Lemma ofAxial_inj (c1 c2 : Z * Z * Z) :
  onPlane c1 -> onPlane c2 -> ofAxial c1 = ofAxial c2 -> c1 = c2.
Proof.
  intros H1 H2 E. destruct c1 as [[x1 y1] z1], c2 as [[x2 y2] z2].
  rewrite <- (toAxial_ofAxial x1 y1 z1 H1), <- (toAxial_ofAxial x2 y2 z2 H2). by rewrite E.
Qed.

Lemma toAxial_inj (h1 h2 : Hex) : toAxial h1 = toAxial h2 -> h1 = h2.
Proof. intros E. by rewrite <- (ofAxial_toAxial h1), <- (ofAxial_toAxial h2), E. Qed.

Lemma HexGrid_step_inj (c1 c2 : Z * Z * Z) : HexGrid.step c1 = HexGrid.step c2 -> c1 = c2.
Proof.
  destruct c1 as [[x1 y1] z1], c2 as [[x2 y2] z2]. simpl. intros [= ? ? ?].
  f_equal; [f_equal|]; lia.
Qed.

Lemma HexGrid_iter_inj (n : nat) (c1 c2 : Z * Z * Z) :
  HexGrid.iter_step n c1 = HexGrid.iter_step n c2 -> c1 = c2.
Proof.
  revert c1 c2. induction n as [|n IH]; intros c1 c2 E; simpl in E; [done|].
  by apply HexGrid_step_inj, IH.
Qed.

Lemma HexGrid_rotateHex_inj (k : Z) (h1 h2 : Hex) :
  HexGrid.rotateHex h1 k = HexGrid.rotateHex h2 k -> h1 = h2.
Proof.
  rewrite !HexGrid_rotateHex_axial. intros E.
  apply ofAxial_inj in E; try (apply HexGrid_iter_onPlane, toAxial_onPlane).
  by apply toAxial_inj, (HexGrid_iter_inj (Z.to_nat (norm6 k))).
Qed.

Lemma HexGrid_addHex_inj (a b1 b2 : Hex) :
  HexGrid.addHex a b1 = HexGrid.addHex a b2 -> b1 = b2.
Proof.
  destruct a as [qa ra], b1 as [q1 r1], b2 as [q2 r2].
  unfold HexGrid.addHex; simpl. intros [= Hq Hr].
  assert (q1 = q2) as -> by lia. f_equal. lia.
Qed.

Lemma key_inj (h1 h2 : Hex) : HexGrid.key h1 = HexGrid.key h2 -> h1 = h2.
Proof. destruct h1, h2. unfold HexGrid.key; simpl. by intros [= -> ->]. Qed.

Global Instance key_Inj : Inj (=) (=) HexGrid.key.
Proof. intros h1 h2. apply key_inj. Qed.

(** ** The rectangular board *)

Lemma flat_map_bind {A B : Type} (f : A -> list B) (l : list A) :
  flat_map f l = l ≫= f.
Proof. induction l as [|x l IH]; simpl; [done|]. by rewrite IH. Qed.

Lemma flat_map_length_const {A B : Type} (f : A -> list B) (l : list A) (k : nat) :
  (forall x, x ∈ l -> length (f x) = k) -> length (flat_map f l) = (length l * k)%nat.
Proof.
  induction l as [|x l IH]; intros Hk; simpl; [done|].
  rewrite length_app, IH, Hk; [done|left|]. intros y Hy. apply Hk. by right.
Qed.

Lemma generateRect_length (width height : Z) :
  0 <= width -> 0 <= height ->
  Z.of_nat (length (HexGrid.generateRect width height 0 0)) = width * height.
Proof.
  intros Hw Hh. unfold HexGrid.generateRect.
  rewrite (flat_map_length_const _ _ (Z.to_nat height)).
  - rewrite length_seqZ. lia.
  - intros x _. by rewrite length_map, length_seqZ.
Qed.

Lemma generateRect_NoDup (width height : Z) :
  NoDup (HexGrid.generateRect width height 0 0).
Proof.
  unfold HexGrid.generateRect. rewrite flat_map_bind. apply NoDup_bind.
  - intros x1 x2 y _ _ H1 H2.
    apply (list_elem_of_fmap (fun ri => mkHex x1 ri)) in H1 as (r1 & -> & _).
    apply (list_elem_of_fmap (fun ri => mkHex x2 ri)) in H2 as (r2 & E & _).
    by injection E.
  - intros x _. apply (NoDup_fmap_2_strong (fun ri => mkHex x ri)); [|apply NoDup_seqZ].
    intros r1 r2 _ _ E. by injection E.
  - apply NoDup_seqZ.
Qed.

(** ** The cell index map *)

Lemma indexCells_notin (cells : list Hex) (idx : nat) (m : gmap (Z * Z) nat) (k : Z * Z) :
  k ∉ map HexGrid.key cells -> App.indexCells cells idx m !! k = m !! k.
Proof.
  revert idx m. induction cells as [|c cells IH]; intros idx m Hk; simpl; [done|].
  simpl in Hk. apply not_elem_of_cons in Hk as [Hne Hk].
  rewrite IH by done. by apply lookup_insert_ne.
Qed.

Lemma indexCells_lookup (cells : list Hex) (idx : nat) (m : gmap (Z * Z) nat)
    (j : nat) (hex : Hex) :
  NoDup cells -> cells !! j = Some hex ->
  App.indexCells cells idx m !! HexGrid.key hex = Some (idx + j)%nat.
Proof.
  revert idx m j. induction cells as [|c cells IH]; intros idx m j Hnd Hj; [done|].
  apply NoDup_cons in Hnd as [Hc Hnd]. destruct j as [|j]; simpl in *.
  - injection Hj as ->. rewrite indexCells_notin.
    + rewrite lookup_insert_eq. f_equal. lia.
    + intros Hin. apply (list_elem_of_fmap HexGrid.key) in Hin as (c' & E & Hin).
      apply key_inj in E as ->. done.
  - rewrite (IH (S idx) _ j) by done. f_equal. lia.
Qed.

Lemma indexCells_Some (cells : list Hex) (hex : Hex) (i : nat) :
  NoDup cells ->
  App.indexCells cells 0 ∅ !! HexGrid.key hex = Some i <-> cells !! i = Some hex.
Proof.
  intros Hnd. split.
  - intros Hi. destruct (decide (HexGrid.key hex ∈ map HexGrid.key cells)) as [Hin|Hnin].
    + apply (list_elem_of_fmap HexGrid.key) in Hin as (c & E & Hin).
      apply key_inj in E as <-. apply list_elem_of_lookup in Hin as [j Hj].
      rewrite (indexCells_lookup cells 0 ∅ j hex Hnd Hj) in Hi. by injection Hi as <-.
    + by rewrite indexCells_notin in Hi.
  - intros Hi. by rewrite (indexCells_lookup cells 0 ∅ i hex Hnd Hi).
Qed.

Section Board.

Variable inp : App.Input.

Lemma boardGrid_NoDup : NoDup (App.boardGrid inp).
Proof. apply generateRect_NoDup. Qed.

Lemma boardSize_length : Z.to_nat (App.boardSize inp) = length (App.boardGrid inp).
Proof.
  unfold App.boardSize, App.boardGrid.
  rewrite <- (generateRect_length (App.w inp) (App.h inp)); unfold App.w, App.h; lia.
Qed.

Lemma cellIndex_Some (hex : Hex) (i : nat) :
  App.cellIndex inp hex = Some i <-> App.boardCells inp !! i = Some hex.
Proof. apply indexCells_Some, boardGrid_NoDup. Qed.

Lemma cellIndex_inj (h1 h2 : Hex) (i : nat) :
  App.cellIndex inp h1 = Some i -> App.cellIndex inp h2 = Some i -> h1 = h2.
Proof. rewrite !cellIndex_Some. congruence. Qed.

Lemma has_cellIndex (hex : Hex) :
  HexGrid.has (App.boardGrid inp) hex = true <-> is_Some (App.cellIndex inp hex).
Proof.
  unfold HexGrid.has. rewrite bool_decide_eq_true. split.
  - intros Hin. apply (list_elem_of_fmap HexGrid.key) in Hin as (c & E & Hin).
    apply key_inj in E as <-. apply list_elem_of_lookup in Hin as [j Hj].
    exists j. by apply cellIndex_Some.
  - intros [i Hi]. apply cellIndex_Some in Hi.
    apply (list_elem_of_fmap HexGrid.key). exists hex. split; [done|].
    by eapply list_elem_of_lookup_2.
Qed.

Lemma target_inj (anchor : Hex) (rot : Z) (o1 o2 : Hex) :
  App.target anchor rot o1 = App.target anchor rot o2 -> o1 = o2.
Proof. unfold App.target. intros E. by apply HexGrid_addHex_inj, HexGrid_rotateHex_inj in E. Qed.

(** A compiled placement: its targets are the indices of the rotated and
    translated offsets, all on the board and pairwise different. *)
Lemma placementTargets_Some (pc : App.Piece) (rot : Z) (anchor : Hex) (targets : list nat) :
  NoDup (App.cells pc) ->
  App.placementTargets inp pc rot anchor = Some targets ->
  targets = map (fun off => default 0%nat (App.cellIndex inp (App.target anchor rot off)))
                (App.cells pc) /\
  (forall off, off ∈ App.cells pc ->
     exists i, App.cellIndex inp (App.target anchor rot off) = Some i) /\
  NoDup targets /\
  (forall c, c ∈ targets -> (c < Z.to_nat (App.boardSize inp))%nat).
Proof.
  intros Hnd. unfold App.placementTargets.
  destruct (forallb _ _) eqn:Hall; [|done]. intros [= <-].
  rewrite forallb_forall in Hall.
  assert (forall off, off ∈ App.cells pc ->
            exists i, App.cellIndex inp (App.target anchor rot off) = Some i) as Hidx.
  { intros off Hoff. apply list_elem_of_In, Hall, has_cellIndex in Hoff. done. }
  split; [done|]. split; [done|]. split.
  - apply (NoDup_fmap_2_strong
             (fun off => default 0%nat (App.cellIndex inp (App.target anchor rot off))));
      [|done].
    intros o1 o2 H1 H2 E.
    destruct (Hidx o1 H1) as [i1 E1]. destruct (Hidx o2 H2) as [i2 E2].
    rewrite E1, E2 in E. simpl in E. subst i2.
    by apply (target_inj anchor rot), (cellIndex_inj _ _ i1).
  - intros c Hc.
    apply (list_elem_of_fmap
             (fun off => default 0%nat (App.cellIndex inp (App.target anchor rot off))))
      in Hc as (off & -> & Hoff).
    destruct (Hidx off Hoff) as [i Ei]. rewrite Ei. simpl.
    apply cellIndex_Some, lookup_lt_Some in Ei. by rewrite boardSize_length.
Qed.

End Board.

(** ** Packing *)

Lemma packMeta_lookup (pls : list App.Placement) (c k : nat) (pl : App.Placement) :
  pls !! k = Some pl ->
  App.packMeta pls c !! k =
    Some (mkMeta (App.pieceIdx pl) (toInt32 (App.pieceId pl)) (App.anchorIdx pl)
                 (App.rot pl)
                 (c + length (concat (map App.targets (take k pls))))
                 (length (App.targets pl))).
Proof.
  revert c k. induction pls as [|p pls IH]; intros c k Hk; [done|].
  destruct k as [|k]; simpl in *.
  - injection Hk as ->. do 2 f_equal. lia.
  - rewrite (IH _ k Hk). do 2 f_equal. rewrite length_app. lia.
Qed.

Lemma packed_targets (pls : list App.Placement) (k : nat) (pl : App.Placement) :
  pls !! k = Some pl ->
  take (length (App.targets pl))
       (drop (length (concat (map App.targets (take k pls))))
             (concat (map App.targets pls))) = App.targets pl.
Proof.
  intros Hk. rewrite <- (take_drop_middle pls k pl Hk) at 2.
  rewrite map_app, concat_app. simpl.
  rewrite drop_app_length. by rewrite take_app_length.
Qed.

Lemma packStart_lookup (lists : list (list App.Placement)) (c pi : nat)
    (list : list App.Placement) :
  lists !! pi = Some list ->
  App.packStart lists c !! pi = Some (c + length (concat (take pi lists)))%nat.
Proof.
  revert c pi. induction lists as [|l lists IH]; intros c pi Hpi; [done|].
  destruct pi as [|pi]; simpl in *.
  - f_equal. lia.
  - rewrite (IH _ pi Hpi). f_equal. rewrite length_app. lia.
Qed.

Lemma concat_lookup_middle {A : Type} (lists : list (list A)) (pi off : nat) (list : list A) :
  lists !! pi = Some list -> (off < length list)%nat ->
  concat lists !! (length (concat (take pi lists)) + off)%nat = list !! off.
Proof.
  intros Hpi Hoff.
  assert (concat lists = concat (take pi lists) ++ list ++ concat (drop (S pi) lists)) as ->.
  { rewrite <- (take_drop_middle lists pi list Hpi) at 1. by rewrite concat_app. }
  rewrite lookup_app_r by lia.
  replace (_ + off - _)%nat with off by lia. by rewrite lookup_app_l.
Qed.

Section Tables.

Variable inp : App.Input.

Variables (i : nat) (assigned : list nat).

Local Abbreviation d := (App.startData inp i assigned).

Lemma piecePlacements_lookup (pi : nat) (pc : App.Piece) :
  App.pieces inp !! pi = Some pc ->
  App.piecePlacements inp !! pi = Some (App.placementsOfPiece inp pi pc).
Proof. intros Hpi. unfold App.piecePlacements. by rewrite list_lookup_imap, Hpi. Qed.

Lemma placementsOf_compiled (pi : nat) (pc : App.Piece) :
  App.pieces inp !! pi = Some pc ->
  placementsOf d pi =
    seq (length (concat (take pi (App.piecePlacements inp))))
        (length (App.placementsOfPiece inp pi pc)).
Proof.
  intros Hpi. pose proof (piecePlacements_lookup pi pc Hpi) as Hl.
  unfold placementsOf. simpl. unfold App.piecePlacementStart, App.piecePlacementCount.
  rewrite (packStart_lookup _ 0 pi _ Hl), list_lookup_fmap, Hl. done.
Qed.

Lemma placementsOfPiece_elem_of (pi : nat) (pc : App.Piece) (pl : App.Placement) :
  pl ∈ App.placementsOfPiece inp pi pc ->
  exists (rot : nat) (anchor : Hex) (targets : list nat),
    (rot < App.rotLimit inp)%nat /\ anchor ∈ App.boardGrid inp /\
    App.placementTargets inp pc (Z.of_nat rot) anchor = Some targets /\
    pl = App.mkPlacement pi (App.id pc) (default 0%nat (App.cellIndex inp anchor))
                         (Z.of_nat rot) targets.
Proof.
  unfold App.placementsOfPiece. rewrite flat_map_bind, list_elem_of_bind.
  intros (rot & Hpl & Hrot). apply elem_of_seq in Hrot.
  apply list_elem_of_omap in Hpl as (anchor & Hanchor & Hpl).
  destruct (App.placementTargets inp pc (Z.of_nat rot) anchor) as [targets|] eqn:Ht; [|done].
  injection Hpl as <-. exists rot, anchor, targets. split; [lia|done].
Qed.

(** A placement index of piece [pi] in the packed tables names a placement
    that the compiler produced for this piece. *)
Lemma compiled_placement (pi : nat) (pc : App.Piece) (p : nat) :
  App.pieces inp !! pi = Some pc ->
  p ∈ placementsOf d pi ->
  exists (rot : nat) (anchor : Hex) (targets : list nat) (tStart : nat),
    (rot < App.rotLimit inp)%nat /\ anchor ∈ App.boardGrid inp /\
    App.placementTargets inp pc (Z.of_nat rot) anchor = Some targets /\
    meta d p = mkMeta pi (toInt32 (App.id pc)) (default 0%nat (App.cellIndex inp anchor))
                      (Z.of_nat rot) tStart (length targets) /\
    targetsOf d p = targets.
Proof.
  intros Hpi Hp. rewrite (placementsOf_compiled pi pc Hpi) in Hp.
  apply elem_of_seq in Hp as [Hlo Hhi].
  set (start := length (concat (take pi (App.piecePlacements inp)))) in *.
  pose proof (piecePlacements_lookup pi pc Hpi) as Hl.
  assert (exists pl, concat (App.piecePlacements inp) !! p = Some pl /\
                     pl ∈ App.placementsOfPiece inp pi pc) as (pl & Hpl & Hin).
  { destruct (lookup_lt_is_Some_2 (App.placementsOfPiece inp pi pc) (p - start))
      as [pl Hpl]; [lia|].
    exists pl. split; [|by eapply list_elem_of_lookup_2].
    rewrite <- Hpl. replace p with (start + (p - start))%nat at 1 by lia.
    apply concat_lookup_middle; [done|lia]. }
  apply placementsOfPiece_elem_of in Hin as (rot & anchor & targets & Hrot & Ha & Ht & ->).
  exists rot, anchor, targets,
    (0 + length (concat (map App.targets (take p (concat (App.piecePlacements inp))))))%nat.
  split; [done|]. split; [done|]. split; [done|].
  assert (meta d p =
          mkMeta pi (toInt32 (App.id pc)) (default 0%nat (App.cellIndex inp anchor))
            (Z.of_nat rot)
            (0 + length (concat (map App.targets
                                     (take p (concat (App.piecePlacements inp))))))
            (length targets)) as Hmeta.
  { unfold meta. simpl. unfold App.placementsMeta.
    by rewrite (packMeta_lookup _ 0 p _ Hpl). }
  split; [exact Hmeta|].
  unfold targetsOf. rewrite Hmeta. simpl. unfold App.placementsTargets.
  apply (packed_targets _ p _ Hpl).
Qed.

End Tables.

(* ===================================================================== *)
(** * Part 12 — the work packages                                         *)
(* ===================================================================== *)

Section Packages.

Variable inp : App.Input.
Hypothesis Hinp : wfInput inp.

Lemma pieceOrder_elem_of (pi : nat) :
  pi ∈ App.pieceOrder inp <-> (pi < length (App.pieces inp))%nat.
Proof.
  unfold App.pieceOrder. rewrite stableSort_elem_of, elem_of_seq. lia.
Qed.

Lemma pieceOrder_length : length (App.pieceOrder inp) = length (App.pieces inp).
Proof. unfold App.pieceOrder. by rewrite stableSort_length, length_seq. Qed.

Lemma pieceInfos_lookup (pi : nat) (pc : App.Piece) :
  App.pieces inp !! pi = Some pc ->
  App.pieceInfos inp !! pi
    = Some (mkPieceInfo (App.id pc) (Z.of_nat (length (App.cells pc)))).
Proof. intros Hpi. unfold App.pieceInfos. by rewrite list_lookup_fmap, Hpi. Qed.

Lemma startData_wf (i : nat) (assigned : list nat) :
  (forall p, p ∈ assigned ->
     exists first, App.pieceOrder inp !! 0%nat = Some first /\
                   p ∈ placementsOf (App.startData inp i assigned) first) ->
  wfData (App.startData inp i assigned).
Proof.
  intros Hassigned. pose proof (wi_count inp Hinp) as Hcount.
  split.
  - simpl. unfold App.boardSize, App.w, App.h. lia.
  - simpl. rewrite pieceOrder_length. lia.
  - simpl. intros pi Hpi. apply pieceOrder_elem_of in Hpi. lia.
  - intros pi. unfold pieceSize. simpl. unfold App.pieceInfos.
    rewrite list_lookup_fmap. destruct (App.pieces inp !! pi); simpl; lia.
  - simpl. intros pi p Hpi Hp. apply pieceOrder_elem_of in Hpi.
    destruct (lookup_lt_is_Some_2 _ _ Hpi) as [pc Hpc].
    destruct (compiled_placement inp i assigned pi pc p Hpc Hp)
      as (rot & anchor & targets & tStart & _ & _ & Ht & Hmeta & Htargets).
    apply placementTargets_Some in Ht as (Heq & _ & Hnd & Hrange).
    2:{ apply (wi_cells inp Hinp). by eapply list_elem_of_lookup_2. }
    rewrite Htargets, Hmeta. simpl. split; [done|]. split; [done|]. split; [done|].
    unfold pieceSize. simpl. rewrite (pieceInfos_lookup pi pc Hpc). simpl.
    by rewrite Heq, length_map.
  - simpl. intros p Hp. destruct (Hassigned p Hp) as (first & Hfirst & Hplace).
    assert (firstPieceIdx (App.startData inp i assigned) = first) as Hf.
    { unfold firstPieceIdx. simpl. by rewrite Hfirst. }
    rewrite Hf. split; [by eapply list_elem_of_lookup_2|]. split; [done|].
    assert (first < length (App.pieces inp))%nat as Hlt.
    { apply pieceOrder_elem_of. by eapply list_elem_of_lookup_2. }
    destruct (lookup_lt_is_Some_2 _ _ Hlt) as [pc Hpc].
    destruct (compiled_placement inp i assigned first pc p Hpc Hplace)
      as (rot & anchor & targets & tStart & _ & _ & _ & Hmeta & _).
    unfold firstItem, itemOf. rewrite Hmeta, Hf. simpl.
    rewrite (pieceInfos_lookup first pc Hpc). simpl.
    assert (toInt32 (App.id pc) = App.id pc) as ->.
    { apply toInt32_small, (wi_ids inp Hinp). by eapply list_elem_of_lookup_2. }
    destruct (Z.eqb_spec (App.id pc) 0) as [->|]; done.
Qed.

(** The spawning loop hands out consecutive parts of the placement list of
    the first piece. *)
Lemma spawn_parts (start count n i0 : nat) (dd : SolveData) :
  dd ∈ App.spawn inp start count n i0 ->
  exists i pre post,
    dd = App.startData inp i (assignedPlacementIndices dd) /\
    seq start count = pre ++ assignedPlacementIndices dd ++ post.
Proof.
  revert i0. induction n as [|n IH]; intros i0 Hin; simpl in Hin.
  - by apply elem_of_nil in Hin.
  - set (ppw := App.placementsPerWorker inp count) in *.
    destruct (Nat.ltb_spec (i0 * ppw) count) as [Hlt|]; [|by apply elem_of_nil in Hin].
    apply elem_of_cons in Hin as [->|Hin]; [|by apply (IH (S i0))].
    exists i0. simpl.
    set (len := (Nat.min (i0 * ppw + ppw) count - i0 * ppw)%nat).
    exists (seq start (i0 * ppw)), (seq (start + i0 * ppw + len) (count - i0 * ppw - len)).
    split; [done|].
    rewrite <- !seq_app. f_equal. lia.
Qed.

Lemma workers_parts (dd : SolveData) :
  dd ∈ App.workers inp ->
  exists first i pre post,
    App.pieceOrder inp !! 0%nat = Some first /\
    dd = App.startData inp i (assignedPlacementIndices dd) /\
    placementsOf dd first = pre ++ assignedPlacementIndices dd ++ post.
Proof.
  unfold App.workers. destruct (App.pieceOrder inp !! 0%nat) as [first|] eqn:Hfirst.
  2:{ intros Hin. by apply elem_of_nil in Hin. }
  intros Hin. apply spawn_parts in Hin as (i & pre & post & Hdd & Hseq).
  exists first, i, pre, post. split; [done|]. split; [done|].
  rewrite <- Hseq. rewrite Hdd. reflexivity.
Qed.

Lemma workers_wf (dd : SolveData) : dd ∈ App.workers inp -> wfData dd.
Proof.
  intros Hin. destruct (workers_parts dd Hin) as (first & i & pre & post & Hf & Hdd & Hseq).
  rewrite Hdd. apply startData_wf. intros p Hp. exists first. split; [done|].
  rewrite <- Hdd, Hseq. set_solver.
Qed.

End Packages.

(* ===================================================================== *)
(** * Part 13 — replaying an exported solution                            *)
(* ===================================================================== *)

(** ** Sorting again changes nothing *)

Lemma insertBy_sorted {A : Type} (le : A -> A -> bool) (x : A) (l : list A) :
  (forall a b, le a b = false -> le b a = true) ->
  sortedBy le l -> sortedBy le (insertBy le x l).
Proof.
  intros Htot. induction l as [|y l IH]; intros Hs; simpl; [done|].
  destruct (le x y) eqn:Hxy; [done|].
  destruct l as [|z l]; simpl in *.
  - split; [by apply Htot|done].
  - destruct Hs as [Hyz Hs]. specialize (IH Hs).
    destruct (le x z) eqn:Hxz.
    + split; [by apply Htot|]. done.
    + split; [done|]. exact IH.
Qed.

Lemma stableSort_sorted {A : Type} (le : A -> A -> bool) (l : list A) :
  (forall a b, le a b = false -> le b a = true) -> sortedBy le (stableSort le l).
Proof.
  intros Htot. induction l as [|x l IH]; [done|].
  by apply insertBy_sorted.
Qed.

Lemma stableSort_sorted_id {A : Type} (le : A -> A -> bool) (l : list A) :
  sortedBy le l -> stableSort le l = l.
Proof.
  induction l as [|x l IH]; intros Hs; [done|].
  change (stableSort le (x :: l)) with (insertBy le x (stableSort le l)).
  destruct l as [|y l]; [done|]. destruct Hs as [Hxy Hs].
  rewrite (IH Hs). simpl. by rewrite Hxy.
Qed.

Lemma sortByCell_idempotent (sig : Signature) : sortByCell (sortByCell sig) = sortByCell sig.
Proof.
  apply stableSort_sorted_id, stableSort_sorted.
  intros a b Hab. apply Nat.leb_gt in Hab. apply Nat.leb_le. lia.
Qed.

(** ** Lists *)

Lemma find_unique {A : Type} (f : A -> Z) (l : list A) (x : A) :
  NoDup (map f l) -> x ∈ l -> List.find (fun y => f y =? f x) l = Some x.
Proof.
  induction l as [|y l IH]; intros Hnd Hx; [by apply elem_of_nil in Hx|].
  simpl in *. apply NoDup_cons in Hnd as [Hy Hnd].
  destruct (Z.eqb_spec (f y) (f x)) as [E|E].
  - apply elem_of_cons in Hx as [->|Hx]; [done|].
    exfalso. apply Hy. rewrite E. apply (list_elem_of_fmap f). by exists x.
  - apply elem_of_cons in Hx as [->|Hx]; [done|]. by apply IH.
Qed.

Lemma omap_cellIndex {A : Type} (idx : A -> option nat) (pid : Z) (l : list A)
    (cs : list nat) :
  map idx l = map Some cs ->
  omap (fun t => match idx t with Some c => Some (c, pid) | None => None end) l
    = map (fun c => (c, pid)) cs.
Proof.
  revert cs. induction l as [|t l IH]; intros [|c cs] E; try done.
  injection E as E1 E2. simpl. rewrite E1. f_equal. by apply IH.
Qed.

Lemma flat_map_disjoint {A B : Type} (f : A -> list B) (l : list A) (i j : nat)
    (x y : A) (b : B) :
  NoDup (flat_map f l) -> i <> j -> l !! i = Some x -> l !! j = Some y ->
  b ∈ f x -> b ∉ f y.
Proof.
  revert i j. induction l as [|z l IH]; intros i j Hnd Hij Hi Hj Hbx Hby; [done|].
  simpl in Hnd. apply NoDup_app in Hnd as (_ & Hdis & Hnd).
  destruct i as [|i], j as [|j]; simpl in *; try done.
  - injection Hi as ->. apply (Hdis b Hbx).
    rewrite flat_map_bind. apply list_elem_of_bind. exists y.
    split; [done|]. by eapply list_elem_of_lookup_2.
  - injection Hj as ->. apply (Hdis b Hby).
    rewrite flat_map_bind. apply list_elem_of_bind. exists x.
    split; [done|]. by eapply list_elem_of_lookup_2.
  - apply (IH i j); try done. lia.
Qed.

Section Bridge.

Variable inp : App.Input.
Hypothesis Hinp : wfInput inp.

Variables (i : nat) (assigned : list nat).

Local Abbreviation d := (App.startData inp i assigned).

Lemma exportSolution_map (sol : list Item) : exportSolution d sol = map (exportItem d) sol.
Proof. reflexivity. Qed.

(** The replay of an exported entry yields the cells of its table row. *)
Lemma export_item_replay (it : Item) :
  it = itemOf d (pIdx it) ->
  (exists pi, pi ∈ pieceOrder d /\ pIdx it ∈ placementsOf d pi) ->
  map (App.cellIndex inp) (App.replay inp (exportItem d it))
    = map Some (targetsOf d (pIdx it)) /\
  is_Some (App.findPiece inp (piece (exportItem d it))) /\
  is_Some (anchor (exportItem d it)) /\
  piece (exportItem d it) = pieceId it.
Proof.
  intros Hit (pi & Hpi & Hp). simpl in Hpi. apply pieceOrder_elem_of in Hpi.
  destruct (lookup_lt_is_Some_2 _ _ Hpi) as [pc Hpc].
  assert (pc ∈ App.pieces inp) as Hin by (by eapply list_elem_of_lookup_2).
  destruct (compiled_placement inp i assigned pi pc _ Hpc Hp)
    as (rot & a & targets & tStart & _ & Ha & Ht & Hmeta & Htargets).
  apply placementTargets_Some in Ht as (Heq & Hidx & _ & _);
    [|by apply (wi_cells inp Hinp)].
  apply list_elem_of_lookup in Ha as [j Hj].
  assert (App.cellIndex inp a = Some j) as Hcell by (by apply cellIndex_Some).
  assert (exportItem d it = mkExported (App.id pc) (Some a) (Z.of_nat rot)) as He.
  { rewrite Hit. unfold exportItem, itemOf. rewrite Hmeta. simpl.
    rewrite Hcell. simpl. unfold App.boardCells at 1. rewrite Hj.
    by rewrite toInt32_small by (by apply (wi_ids inp Hinp)). }
  assert (App.findPiece inp (App.id pc) = Some pc) as Hfind.
  { unfold App.findPiece. apply (find_unique App.id); [apply (wi_unique inp Hinp)|done]. }
  rewrite He. unfold App.replay. simpl. rewrite Hfind.
  split; [|split; [done|split; [done|]]].
  - rewrite Htargets, Heq, !map_map. apply map_ext_in. intros off Hoff.
    apply list_elem_of_In in Hoff. destruct (Hidx off Hoff) as [c Hc]. by rewrite Hc.
  - rewrite Hit at 1. unfold itemOf. rewrite Hmeta. simpl.
    by rewrite toInt32_small by (by apply (wi_ids inp Hinp)).
Qed.

(** The coordinator computes, from the exported solution, the signature that
    the worker computed from its tables. *)
Lemma export_signature (sol : list Item) :
  solOK d sol ->
  App.getSolutionCellSignature inp (exportSolution d sol)
    = Worker.getSolutionCellSignature d sol.
Proof.
  intros (Hgen & _ & _). unfold App.getSolutionCellSignature, getSolutionCellSignature.
  f_equal. unfold App.cellToPiece, cellToPiece. rewrite exportSolution_map.
  induction sol as [|it sol IH]; [done|]. cbn [flat_map map].
  rewrite IH by (intros; apply Hgen; by right). f_equal.
  destruct (Hgen it ltac:(left)) as [Hit Hex].
  destruct (export_item_replay it Hit Hex) as (Hmap & _ & _ & Hpiece).
  etrans; [apply (omap_cellIndex (App.cellIndex inp) _ _ _ Hmap)|].
  by rewrite Hpiece.
Qed.

Lemma export_validPacking (sol : list Item) :
  solOK d sol -> validPacking inp (exportSolution d sol).
Proof.
  intros (Hgen & Hnd & Hrange). rewrite exportSolution_map.
  assert (forall it t, it ∈ sol -> t ∈ App.replay inp (exportItem d it) ->
            exists c, App.cellIndex inp t = Some c /\ c ∈ targetsOf d (pIdx it)) as Hcell.
  { intros it t Hit Ht. destruct (Hgen it Hit) as [Hi Hex].
    destruct (export_item_replay it Hi Hex) as (Hmap & _).
    apply list_elem_of_lookup in Ht as [k Hk].
    assert (map (App.cellIndex inp) (App.replay inp (exportItem d it)) !! k
            = Some (App.cellIndex inp t)) as Hk' by (by rewrite list_lookup_fmap, Hk).
    rewrite Hmap, list_lookup_fmap in Hk'.
    destruct (targetsOf d (pIdx it) !! k) as [c|] eqn:Hc; [|done].
    injection Hk' as Hk'. exists c. split; [done|]. by eapply list_elem_of_lookup_2. }
  split; [|split].
  - intros e He. apply (list_elem_of_fmap (exportItem d)) in He as (it & -> & Hit).
    destruct (Hgen it Hit) as [Hi Hex].
    destruct (export_item_replay it Hi Hex) as (_ & ? & ? & _). done.
  - intros e t He Ht. apply (list_elem_of_fmap (exportItem d)) in He as (it & -> & Hit).
    destruct (Hcell it t Hit Ht) as (c & Hc & Hin). exists c. split; [done|].
    assert (c < Z.to_nat (App.boardSize inp))%nat as Hlt.
    { apply Hrange. unfold cellsOf. rewrite flat_map_bind. apply list_elem_of_bind.
      by exists it. }
    unfold App.boardSize, App.w, App.h in *. lia.
  - intros k1 k2 e1 e2 t Hne H1 H2 Ht1 Ht2.
    rewrite list_lookup_fmap in H1, H2.
    destruct (sol !! k1) as [it1|] eqn:E1; [|done].
    destruct (sol !! k2) as [it2|] eqn:E2; [|done].
    injection H1 as <-. injection H2 as <-.
    destruct (Hcell it1 t ltac:(by eapply list_elem_of_lookup_2) Ht1) as (c1 & Hc1 & Hin1).
    destruct (Hcell it2 t ltac:(by eapply list_elem_of_lookup_2) Ht2) as (c2 & Hc2 & Hin2).
    assert (c1 = c2) as -> by congruence.
    by apply (flat_map_disjoint (fun it => targetsOf d (pIdx it)) sol k1 k2 it1 it2 c2).
Qed.

End Bridge.

(* ===================================================================== *)
(** * Part 14 — the reports and their aggregation                         *)
(* ===================================================================== *)

Section Aggregate.

Variable inp : App.Input.
Hypothesis Hinp : wfInput inp.

Local Abbreviation sig := (App.getSolutionCellSignature inp).

(** What every worker reports. *)
Lemma report_ok (rep : Complete) :
  rep ∈ App.reports inp ->
  NoDup (map sig (c_solutions rep)) /\
  (forall sol, sol ∈ c_solutions rep -> validPacking inp sol) /\
  0 <= c_coverage rep.
Proof.
  unfold App.reports. intros Hin.
  apply (list_elem_of_fmap Worker.onStart) in Hin as (dd & -> & Hdd).
  pose proof (workers_wf inp Hinp dd Hdd) as Hwf.
  destruct (workers_parts inp dd Hdd) as (first & i & pre & post & _ & Heq & _).
  destruct (solve_ok dd Hwf) as ((sols & Hsols & Hnd & Hall) & Hlo & _).
  unfold Worker.onStart. rewrite Hsols.
  assert (forall sol, sol ∈ sols ->
            solOK (App.startData inp i (assignedPlacementIndices dd)) sol) as Hok.
  { intros sol Hsol. rewrite <- Heq. by apply Hall. }
  split; [|split].
  - rewrite map_map.
    rewrite (map_ext_in _ (getSolutionCellSignature dd)); [done|].
    intros sol Hsol. apply list_elem_of_In in Hsol.
    rewrite Heq at 1. rewrite export_signature by auto. by rewrite <- Heq.
  - intros sol Hsol. apply (list_elem_of_fmap (exportSolution dd)) in Hsol as (s & -> & Hs).
    rewrite Heq. apply export_validPacking; auto.
  - rewrite Heq in Hlo. simpl in Hlo. by rewrite Heq.
Qed.

Lemma mergeSolutions_ok (P : list Exported -> Prop) (existing : list Signature)
    (top solutions : list (list Exported)) :
  existing = map sig top -> NoDup existing ->
  (forall s, s ∈ top -> P s) -> (forall s, s ∈ solutions -> P s) ->
  NoDup (map sig (App.mergeSolutions inp existing top solutions)) /\
  (forall s, s ∈ App.mergeSolutions inp existing top solutions -> P s).
Proof.
  revert existing top. induction solutions as [|newSol rest IH];
    intros existing top Heq Hnd Htop Hsols; simpl.
  - by rewrite <- Heq.
  - case_bool_decide as Hin.
    + apply IH; try done. intros; apply Hsols; by right.
    + apply IH.
      * rewrite map_app, Heq. done.
      * apply NoDup_app. split; [done|]. split; [|apply NoDup_singleton].
        intros x Hx Hx'. apply list_elem_of_singleton in Hx' as ->. done.
      * intros s Hs. apply elem_of_app in Hs as [?|Hs]; [by apply Htop|].
        apply list_elem_of_singleton in Hs as ->. apply Hsols. left.
      * intros; apply Hsols; by right.
Qed.

(** The handler keeps the list free of repeated signatures and made of valid
    packings. *)
Lemma onComplete_ok (g : App.Global) (rep : Complete) :
  rep ∈ App.reports inp ->
  NoDup (map sig (App.topSolutions g)) ->
  (forall s, s ∈ App.topSolutions g -> validPacking inp s) ->
  NoDup (map sig (App.topSolutions (App.onComplete inp g rep))) /\
  (forall s, s ∈ App.topSolutions (App.onComplete inp g rep) -> validPacking inp s).
Proof.
  intros Hrep Hnd Hvalid. destruct (report_ok rep Hrep) as (Hnd' & Hvalid' & _).
  unfold App.onComplete.
  destruct (App.bestCoverage g <? c_coverage rep); [done|].
  destruct (c_coverage rep =? App.bestCoverage g); [|done].
  simpl. by apply mergeSolutions_ok.
Qed.

Lemma foldl_onComplete_ok (arrived : list Complete) (g : App.Global) :
  (forall rep, rep ∈ arrived -> rep ∈ App.reports inp) ->
  NoDup (map sig (App.topSolutions g)) ->
  (forall s, s ∈ App.topSolutions g -> validPacking inp s) ->
  NoDup (map sig (App.topSolutions (foldl (App.onComplete inp) g arrived))) /\
  (forall s, s ∈ App.topSolutions (foldl (App.onComplete inp) g arrived) ->
             validPacking inp s).
Proof.
  revert g. induction arrived as [|rep arrived IH]; intros g Hsub Hnd Hvalid; [done|].
  simpl. destruct (onComplete_ok g rep ltac:(apply Hsub; left) Hnd Hvalid) as [H1 H2].
  apply IH; [intros; apply Hsub; by right|done|done].
Qed.

Lemma onComplete_bestCoverage (g : App.Global) (rep : Complete) :
  App.bestCoverage (App.onComplete inp g rep)
    = Z.max (App.bestCoverage g) (c_coverage rep).
Proof.
  unfold App.onComplete.
  destruct (Z.ltb_spec (App.bestCoverage g) (c_coverage rep)); simpl; [lia|].
  destruct (Z.eqb_spec (c_coverage rep) (App.bestCoverage g)); simpl; lia.
Qed.

Lemma foldl_onComplete_le (arrived : list Complete) (g : App.Global) (bound : Z) :
  App.bestCoverage g <= bound ->
  (forall rep, rep ∈ arrived -> c_coverage rep <= bound) ->
  App.bestCoverage (foldl (App.onComplete inp) g arrived) <= bound.
Proof.
  revert g. induction arrived as [|rep arrived IH]; intros g Hg Hall; [done|].
  simpl. apply IH; [|intros; apply Hall; by right].
  rewrite onComplete_bestCoverage. specialize (Hall rep ltac:(left)). lia.
Qed.

Lemma foldl_onComplete_ge (arrived : list Complete) (g : App.Global) :
  App.bestCoverage g <= App.bestCoverage (foldl (App.onComplete inp) g arrived) /\
  forall rep, rep ∈ arrived ->
    c_coverage rep <= App.bestCoverage (foldl (App.onComplete inp) g arrived).
Proof.
  revert g. induction arrived as [|rep arrived IH]; intros g; simpl.
  - split; [lia|]. intros rep Hrep. by apply elem_of_nil in Hrep.
  - destruct (IH (App.onComplete inp g rep)) as [H1 H2].
    rewrite onComplete_bestCoverage in H1. split; [lia|].
    intros rep' Hrep. apply elem_of_cons in Hrep as [->|Hrep]; [lia|by apply H2].
Qed.

Lemma final_Some (arrived : list Complete) (g : App.Global) :
  App.final inp arrived = Some g -> g = App.aggregate inp arrived /\ arrived <> [].
Proof.
  unfold App.final. destruct arrived as [|rep arrived]; [done|].
  destruct (_ <=? _)%nat; [|done]. by intros [= <-].
Qed.

End Aggregate.

(** ** Every listed solution covers the reported number of cells *)

Lemma cellToPiece_length (d : SolveData) (sol : list Item) :
  length (Worker.cellToPiece d sol) = length (cellsOf d sol).
Proof.
  unfold Worker.cellToPiece, cellsOf. induction sol as [|it sol IH]; [done|].
  simpl. by rewrite !length_app, length_map, IH.
Qed.

Lemma sortByCell_length (sig : Signature) : length (sortByCell sig) = length sig.
Proof. apply stableSort_length. Qed.

Lemma reports_elem (inp : App.Input) (arrived : list Complete) :
  arrived ≡ₚ App.reports inp -> forall rep, rep ∈ arrived -> rep ∈ App.reports inp.
Proof. intros Hperm rep Hrep. by rewrite <- Hperm. Qed.

Section Coverage.

Variable inp : App.Input.
Hypothesis Hinp : wfInput inp.


Lemma report_coverage (rep : Complete) :
  rep ∈ App.reports inp ->
  forall sol, sol ∈ c_solutions rep -> covered inp sol = c_coverage rep.
Proof.
  unfold App.reports. intros Hin.
  apply (list_elem_of_fmap Worker.onStart) in Hin as (dd & -> & Hdd).
  pose proof (workers_wf inp Hinp dd Hdd) as Hwf.
  destruct (workers_parts inp dd Hdd) as (first & i & pre & post & _ & Heq & _).
  destruct (solve_ok dd Hwf) as ((sols & Hsols & Hnd & Hall) & _).
  unfold Worker.onStart. rewrite Hsols. intros sol Hsol.
  apply (list_elem_of_fmap (exportSolution dd)) in Hsol as (s & -> & Hs).
  destruct (Hall s Hs) as [Hok Hcov]. rewrite <- Hcov. unfold covered.
  assert (solOK (App.startData inp i (assignedPlacementIndices dd)) s) as Hok'
    by (by rewrite <- Heq).
  rewrite Heq at 1. rewrite (export_signature inp Hinp _ _ s Hok').
  rewrite <- Heq. unfold getSolutionCellSignature.
  by rewrite sortByCell_length, cellToPiece_length.
Qed.

Lemma mergeSolutions_elem (existing : list Signature)
    (top solutions : list (list Exported)) (s : list Exported) :
  s ∈ App.mergeSolutions inp existing top solutions -> s ∈ top \/ s ∈ solutions.
Proof.
  revert existing top. induction solutions as [|newSol rest IH]; intros existing top Hs;
    simpl in Hs; [by left|].
  case_bool_decide.
  - destruct (IH _ _ Hs); [by left|right; by right].
  - destruct (IH _ _ Hs) as [Hin|Hin]; [|right; by right].
    apply elem_of_app in Hin as [?|Hin]; [by left|].
    apply list_elem_of_singleton in Hin as ->. right; left.
Qed.

Lemma onComplete_coverage (g : App.Global) (rep : Complete) :
  rep ∈ App.reports inp ->
  (forall s, s ∈ App.topSolutions g -> covered inp s = App.bestCoverage g) ->
  forall s, s ∈ App.topSolutions (App.onComplete inp g rep) ->
            covered inp s = App.bestCoverage (App.onComplete inp g rep).
Proof.
  intros Hrep Hg. pose proof (report_coverage rep Hrep) as Hr.
  unfold App.onComplete.
  destruct (App.bestCoverage g <? c_coverage rep); [done|].
  destruct (Z.eqb_spec (c_coverage rep) (App.bestCoverage g)) as [E|]; [|done].
  cbn [App.topSolutions App.bestCoverage]. intros s Hs.
  apply mergeSolutions_elem in Hs as [Hs|Hs]; [by apply Hg|].
  rewrite <- E. by apply Hr.
Qed.

Lemma aggregate_coverage (arrived : list Complete) :
  arrived ≡ₚ App.reports inp ->
  forall s, s ∈ App.topSolutions (App.aggregate inp arrived) ->
            covered inp s = App.bestCoverage (App.aggregate inp arrived).
Proof.
  intros Hperm. unfold App.aggregate.
  pose proof (reports_elem inp arrived Hperm) as Hsub.
  assert (forall s, s ∈ App.topSolutions App.initialGlobal ->
                    covered inp s = App.bestCoverage App.initialGlobal) as Hg.
  { intros s Hs. by apply elem_of_nil in Hs. }
  clear Hperm. revert Hsub Hg. generalize App.initialGlobal.
  induction arrived as [|rep arrived IH]; intros g Hsub Hg; [done|].
  simpl. apply IH.
  - intros; apply Hsub; by right.
  - apply onComplete_coverage; [apply Hsub; left|done].
Qed.

End Coverage.

(* ===================================================================== *)
(** * Part 15 — what the bound prune can cut                              *)
(* ===================================================================== *)

Section Prune.

Variable d : SolveData.
Hypothesis Hwf : wfData d.

Lemma sumRemainingSizes_submseteq (l k : list nat) :
  l ⊆+ k -> sumRemainingSizes d l <= sumRemainingSizes d k.
Proof.
  induction 1 as [|x l1 l2 _ IH|x y l|x l1 l2 _ IH|l1 l2 l3 _ IH1 _ IH2].
  - done.
  - rewrite !sumRemainingSizes_cons. lia.
  - rewrite !sumRemainingSizes_cons. lia.
  - rewrite sumRemainingSizes_cons. pose proof (wf_size d Hwf x). lia.
  - lia.
Qed.

Lemma sumRemainingSizes_foldr (l : list nat) :
  sumRemainingSizes d l = foldr (fun pi acc => pieceSize d pi + acc) 0 l.
Proof.
  induction l as [|pi l IH]; [done|]. by rewrite sumRemainingSizes_cons, IH.
Qed.

(** Placements of pieces of [remainingPieces] add at most the carried sum of
    the remaining sizes to the coverage. *)
Lemma extCoverage_le (remainingPieces : list nat) (ext : list (nat * nat)) :
  (forall pi, pi ∈ remainingPieces -> pi ∈ pieceOrder d) ->
  extension d remainingPieces ext ->
  extCoverage d ext <= sumRemainingSizes d remainingPieces /\
  Z.of_nat (length (extCells d ext)) = extCoverage d ext.
Proof.
  intros Hsub [Hms Hplace].
  assert (extCoverage d ext = sumRemainingSizes d (map fst ext) /\
          Z.of_nat (length (extCells d ext)) = extCoverage d ext) as [E1 E2].
  { assert (forall pp, pp ∈ ext -> pp.1 ∈ remainingPieces) as Hin.
    { intros pp Hpp. apply (elem_of_submseteq (map fst ext)); [|done].
      apply (list_elem_of_fmap fst). by exists pp. }
    clear Hms. induction ext as [|[pi p] ext IH]; [done|].
    destruct IH as [IH1 IH2].
    { intros pi' p' Hpp. apply Hplace. by right. }
    { intros pp Hpp. apply Hin. by right. }
    destruct (wf_targets d Hwf pi p) as (_ & _ & Hlen & Hsize).
    { apply Hsub. apply (Hin (pi, p)). left. }
    { apply Hplace. left. }
    unfold extCoverage, extCells in *. cbn [foldr flat_map map fst snd].
    rewrite sumRemainingSizes_cons, length_app. lia. }
  split; [|done]. rewrite E1. by apply sumRemainingSizes_submseteq.
Qed.

(** A packing covers at most the board. *)
Lemma packing_cells_le_board (sol : list (nat * nat)) :
  packing d sol -> (length (extCells d sol) <= Z.to_nat (boardSize d))%nat.
Proof.
  intros [[Hms Hplace] Hnd]. apply NoDup_bounded_length; [done|].
  intros c Hc. unfold extCells in Hc. rewrite flat_map_bind in Hc.
  apply list_elem_of_bind in Hc as ([pi p] & Hc & Hpp). simpl in Hc.
  destruct (wf_targets d Hwf pi p) as (_ & Hrange & _).
  - apply (elem_of_submseteq (map fst sol)); [|done].
    apply (list_elem_of_fmap fst). by exists (pi, p).
  - by apply Hplace.
  - by apply Hrange.
Qed.

End Prune.

(* ===================================================================== *)
(** * Part 16 — the final result of a run                                 *)
(* ===================================================================== *)

Lemma aggregate_ok (inp : App.Input) (Hinp : wfInput inp) (arrived : list Complete) :
  arrived ≡ₚ App.reports inp ->
  NoDup (map (App.getSolutionCellSignature inp)
             (App.topSolutions (App.aggregate inp arrived))) /\
  (forall s, s ∈ App.topSolutions (App.aggregate inp arrived) -> validPacking inp s).
Proof.
  intros Hperm.
  exact (foldl_onComplete_ok inp Hinp arrived App.initialGlobal
           (reports_elem inp arrived Hperm)
           (NoDup_nil_2 : NoDup (map _ (App.topSolutions App.initialGlobal)))
           (fun s (Hs : s ∈ App.topSolutions App.initialGlobal) =>
              False_ind _ (proj1 (elem_of_nil s) Hs))).
Qed.

(** C7 — every solution of the final list is a packing: each placement names
    a piece and an anchor, every replayed target cell is a cell of the board
    (its index is below [boardSize]), and the target cells of two different
    placements of the solution are disjoint. *)
Theorem final_solutions_valid (inp : App.Input) (arrived : list Complete)
    (g : App.Global) :
  wfInput inp ->
  arrived ≡ₚ App.reports inp ->
  App.final inp arrived = Some g ->
  forall sol, sol ∈ App.topSolutions g -> validPacking inp sol.
Proof.
  intros Hinp Hperm Hfinal. apply final_Some in Hfinal as [-> _].
  by destruct (aggregate_ok inp Hinp arrived Hperm) as [_ Hvalid].
Qed.

(** ** One worker against many *)

Lemma wfInput_single (inp : App.Input) : wfInput inp -> wfInput (single inp).
Proof. intros [H1 H2 H3 H4]. by split. Qed.

Lemma placementsPerWorker_single (inp : App.Input) (count : nat) :
  App.placementsPerWorker (single inp) count = count.
Proof.
  unfold App.placementsPerWorker. change (App.numWorkers (single inp)) with 1%nat.
  rewrite Nat.div_1_r. lia.
Qed.

(** With one worker the whole placement list of the first piece is assigned
    to it. *)
Lemma workers_single (inp : App.Input) (dd : SolveData) :
  dd ∈ App.workers (single inp) ->
  exists first,
    App.pieceOrder inp !! 0%nat = Some first /\
    App.workers (single inp) = [dd] /\
    dd = App.startData (single inp) 0 (placementsOf dd first).
Proof.
  unfold App.workers. change (App.pieceOrder (single inp)) with (App.pieceOrder inp).
  destruct (App.pieceOrder inp !! 0%nat) as [first|] eqn:Hfirst.
  2:{ intros Hin. by apply elem_of_nil in Hin. }
  change (App.numWorkers (single inp)) with 1%nat. cbn [App.spawn].
  rewrite placementsPerWorker_single. cbn [Nat.mul].
  set (start := default 0%nat (App.piecePlacementStart (single inp) !! first)).
  set (count := default 0%nat (App.piecePlacementCount (single inp) !! first)).
  destruct (0 <? count)%nat; [|intros Hin; by apply elem_of_nil in Hin].
  intros Hin. apply list_elem_of_singleton in Hin as ->.
  exists first. split; [done|]. split; [done|].
  replace (start + 0)%nat with start by lia.
  replace (Nat.min (0 + count) count - 0)%nat with count by lia.
  reflexivity.
Qed.


(* ===================================================================== *)
(** * Part 17 — selection and short circuit inside [backtrack]            *)
(* ===================================================================== *)

Lemma backtrackN_branch (d : SolveData) (fuel : nat) (remainingPieces : list nat)
    (remainingSum : Z) (currentSolution : list Item) (coverage : Z) (b : Board)
    (best : Best) :
  let best2 := record d currentSolution coverage (countNode best) in
  coverage < boardSize d ->
  bestCoverage best2 < coverage + remainingSum ->
  remainingPieces <> [] ->
  match selectPiece d (occupancy b) remainingPieces with
  | None =>
      backtrackN d false (S fuel) remainingPieces remainingSum currentSolution
                 coverage (b, best) = (false, (b, best2))
  | Some ri =>
      let chosenPi := default 0%nat (remainingPieces !! ri) in
      backtrackN d false (S fuel) remainingPieces remainingSum currentSolution
                 coverage (b, best) =
      tryPlacements d false
        (fun p st' =>
           backtrackN d false fuel (removeAt remainingPieces ri)
                      (remainingSum - pieceSize d chosenPi)
                      (currentSolution ++ [itemOf d p])
                      (coverage + Z.of_nat (m_tLen (meta d p))) st')
        chosenPi (sortValid (validPlacements d (occupancy b) chosenPi)) (b, best2)
  end.
Proof.
  intros best2 Hcov Hbound Hne. cbn [backtrackN fst snd]. fold best2.
  destruct (Z.leb_spec (boardSize d) coverage); [lia|].
  destruct (Z.leb_spec (coverage + remainingSum) (bestCoverage best2)); [lia|].
  case_bool_decide; [done|].
  destruct (selectPiece d (occupancy b) remainingPieces) as [ri|]; [|done].
  cbn zeta. case_bool_decide as Hvalid; [|done].
  by rewrite Hvalid.
Qed.


(** What holds of the short circuit: a call at full coverage returns the
    success signal at once; a success signal from a recursive call ends the
    loop over the candidates after the undo, with no further candidate tried;
    on tables as the coordinator packs them the signal is returned only when a
    perfect cover has been recorded, with the board restored; and the loop of
    [solve] over the first placements makes its next round whatever
    [backtrack] returned. *)
Lemma perfect_cover_short_circuit (d : SolveData) :
  (forall fuel remainingPieces remainingSum currentSolution coverage b best,
     boardSize d <= coverage ->
     backtrackN d false (S fuel) remainingPieces remainingSum currentSolution
                coverage (b, best)
       = (true, (b, record d currentSolution coverage (countNode best)))) /\
  (forall rec chosenPi v valid st st2,
     rec v.1 (applyPlacementByIndex d v.1 chosenPi st.1, st.2) = (true, st2) ->
     tryPlacements d false rec chosenPi (v :: valid) st
       = (true, (undoPlacementByIndex d v.1 st2.1, st2.2))) /\
  (forall remainingPieces remainingSum currentSolution coverage b best,
     wfData d ->
     nodeOK d remainingPieces remainingSum currentSolution coverage b ->
     bestOK d best ->
     let res := backtrack d false remainingPieces remainingSum currentSolution
                          coverage (b, best) in
     res.1 = true -> boardSize d <= bestCoverage res.2.2 /\ res.2.1 = b) /\
  (forall p rest st,
     solveLoop d false (p :: rest) st = solveLoop d false rest (solveStep d false p st)).
Proof.
  split; [|split; [|split]].
  - intros fuel remainingPieces remainingSum currentSolution coverage b best Hfull.
    cbn [backtrackN fst snd].
    destruct (Z.leb_spec (boardSize d) coverage); [done|lia].
  - intros rec chosenPi v valid st st2 Hrec. cbn [tryPlacements]. by rewrite Hrec.
  - intros remainingPieces remainingSum currentSolution coverage b best Hwf Hnode Hbest
           res Hres.
    assert (length remainingPieces < S (length remainingPieces))%nat as Hfuel by lia.
    destruct (backtrackN_ok d Hwf _ _ _ _ _ _ best Hfuel Hnode Hbest)
      as [Hb _ _ _ _ Hperfect].
    split; [by apply Hperfect|exact Hb].
  - done.
Qed.

(** C4 — on [twoCells] (two cells, three single-cell pieces, one worker with
    the first placements 0 and 1) the search below first placement 0 finds a
    perfect cover and returns the success signal, and the loop of [solve]
    still searches below first placement 1: the worker counts 4 nodes and
    reports 2 solutions, where stopping at the perfect cover gives 2 nodes and
    1 solution. The loop does not stop after a perfect cover. *)
Theorem top_level_loop_goes_on :
  App.workers twoCells = [twoCellsWorker] /\
  (let res := backtrack twoCellsWorker false (remainingAfterFirst twoCellsWorker)
                (remainingAfterFirstSum twoCellsWorker) [firstItem twoCellsWorker 0%nat]
                (Z.of_nat (m_tLen (meta twoCellsWorker 0%nat)))
                (applyPlacementByIndex twoCellsWorker 0%nat (firstPieceIdx twoCellsWorker)
                   (initialBoard twoCellsWorker), initialBest twoCellsWorker) in
   res.1 = true /\ bestCoverage res.2.2 = boardSize twoCellsWorker) /\
  (let st := solveLoop twoCellsWorker false [0%nat]
               (initialBoard twoCellsWorker, initialBest twoCellsWorker) in
   searchCount st.2 = 2 /\ length (topSolutions st.2) = 1%nat) /\
  c_searchCount (solve twoCellsWorker false) = 4 /\
  length (c_solutions (solve twoCellsWorker false)) = 2%nat /\
  ~ stopsAfterPerfectCover twoCellsWorker.
Proof.
  do 5 (split; [by vm_compute|]). intros Hstops.
  specialize (Hstops 0%nat [1%nat]
                (initialBoard twoCellsWorker, initialBest twoCellsWorker)).
  assert ((backtrack twoCellsWorker false (remainingAfterFirst twoCellsWorker)
             (remainingAfterFirstSum twoCellsWorker) [firstItem twoCellsWorker 0%nat]
             (Z.of_nat (m_tLen (meta twoCellsWorker 0%nat)))
             (applyPlacementByIndex twoCellsWorker 0%nat (firstPieceIdx twoCellsWorker)
                (initialBoard twoCellsWorker, initialBest twoCellsWorker).1,
              (initialBoard twoCellsWorker, initialBest twoCellsWorker).2)).1 = true)
    as Hsuccess by (by vm_compute).
  specialize (Hstops Hsuccess).
  apply (f_equal (fun st => searchCount st.2)) in Hstops.
  vm_compute in Hstops. discriminate.
Qed.

(* ===================================================================== *)
(** * Part 18 — runs on the example inputs                                *)
(* ===================================================================== *)

(** A decidable statement about concrete data is settled by evaluating its
    decision procedure. *)
Ltac checked_by_computation := refine (bool_decide_unpack _ _); vm_compute; exact I.

Lemma wfInput_checked (inp : App.Input) :
  Forall (fun pc => NoDup (App.cells pc)) (App.pieces inp) /\
  Z.of_nat (length (App.pieces inp)) < 2 ^ 15 /\
  Forall (fun pc => - 2 ^ 31 <= App.id pc < 2 ^ 31) (App.pieces inp) /\
  NoDup (map App.id (App.pieces inp)) ->
  wfInput inp.
Proof.
  intros (H1 & H2 & H3 & H4). rewrite Forall_forall in H1, H3. by split.
Qed.

Lemma packing_checked (d : SolveData) (sol : list (nat * nat)) :
  map fst sol ⊆+ pieceOrder d /\
  Forall (fun pp => pp.2 ∈ placementsOf d pp.1) sol /\
  NoDup (extCells d sol) ->
  packing d sol.
Proof.
  intros (H1 & H2 & H3). rewrite Forall_forall in H2.
  split; [|done]. split; [done|]. intros pi p Hin. by apply (H2 (pi, p)).
Qed.

Lemma tablesOf_wf (inp : App.Input) : wfInput inp -> wfData (tablesOf inp).
Proof.
  intros Hinp. apply startData_wf; [done|]. intros p Hp. by apply elem_of_nil in Hp.
Qed.

Lemma wfInput_rowOfThree : wfInput rowOfThree.
Proof. apply wfInput_checked. checked_by_computation. Qed.

Lemma wfInput_twoByTwo : wfInput twoByTwo.
Proof. apply wfInput_checked. checked_by_computation. Qed.

Lemma wfInput_singleCell : wfInput singleCell.
Proof. apply wfInput_checked. checked_by_computation. Qed.

(** C1, as stated, fails on [singleCell]: the first piece is placed on the
    cell, which is a perfect cover, and the run reports that one solution; the
    packing that puts the second piece on the cell covers the board as well,
    no packing covers more, and its covering is not in the final list. *)
Lemma maximal_covering_missing : ~ enumeratesAllMaximal singleCell.
Proof.
  intros Hall.
  specialize (Hall (App.reports singleCell)
                   (App.aggregate singleCell (App.reports singleCell))
                   ltac:(reflexivity) ltac:(by vm_compute)
                   [(1, 1)]%nat).
  assert (packing (tablesOf singleCell) [(1, 1)]%nat) as Hpack.
  { apply packing_checked. checked_by_computation. }
  specialize (Hall Hpack).
  assert (forall sol', packing (tablesOf singleCell) sol' ->
            (length (extCells (tablesOf singleCell) sol')
             <= length (extCells (tablesOf singleCell) [(1, 1)]))%nat) as Hmax.
  { intros sol' Hsol'.
    apply (packing_cells_le_board (tablesOf singleCell)
             (tablesOf_wf _ wfInput_singleCell)) in Hsol'.
    exact Hsol'. }
  specialize (Hall Hmax).
  pose proof (bool_decide_pack _ Hall) as Hdec. vm_compute in Hdec. exact Hdec.
Qed.

(** The same on [rowOfThree], where no perfect cover exists: the run reports
    coverage 2 with two solutions, both with the first piece on cell 0. The
    branches with the first piece on cell 1 or 2 reach coverage 1 with one
    piece of size 1 left, [1 + 1 <= 2], and are pruned, although each holds
    two packings that tie with the best; the covering with the first piece on
    cell 1 and the second on cell 0 is not in the final list. *)
Lemma tied_branch_is_pruned : ~ enumeratesAllMaximal rowOfThree.
Proof.
  intros Hall.
  specialize (Hall (App.reports rowOfThree)
                   (App.aggregate rowOfThree (App.reports rowOfThree))
                   ltac:(reflexivity) ltac:(by vm_compute)
                   [(0, 1); (1, 3)]%nat).
  assert (packing (tablesOf rowOfThree) [(0, 1); (1, 3)]%nat) as Hpack.
  { apply packing_checked. checked_by_computation. }
  specialize (Hall Hpack).
  assert (forall sol', packing (tablesOf rowOfThree) sol' ->
            (length (extCells (tablesOf rowOfThree) sol')
             <= length (extCells (tablesOf rowOfThree) [(0, 1); (1, 3)]))%nat) as Hmax.
  { intros sol' [Hext _].
    destruct (extCoverage_le (tablesOf rowOfThree) (tablesOf_wf _ wfInput_rowOfThree)
                (pieceOrder (tablesOf rowOfThree)) sol' ltac:(done) Hext) as [Hle Heq].
    assert (sumRemainingSizes (tablesOf rowOfThree) (pieceOrder (tablesOf rowOfThree)) = 2)
      as Hsum by (by vm_compute).
    assert (length (extCells (tablesOf rowOfThree) [(0, 1); (1, 3)]%nat) = 2%nat)
      as -> by (by vm_compute).
    lia. }
  specialize (Hall Hmax).
  pose proof (bool_decide_pack _ Hall) as Hdec. vm_compute in Hdec. exact Hdec.
Qed.

(** C1, amended — in a completed run every solution of the final list covers
    exactly the reported best number of cells; and the bound prune cuts no
    branch that holds a better solution: when the coverage plus the sum of the
    remaining sizes does not exceed the best coverage, the call returns
    no-terminate, and every continuation of the branch by placements of
    remaining pieces covers at most the best coverage. *)
Theorem final_list_ties_and_prune_is_sound (inp : App.Input) (arrived : list Complete)
    (g : App.Global) :
  wfInput inp ->
  arrived ≡ₚ App.reports inp ->
  App.final inp arrived = Some g ->
  (forall sol, sol ∈ App.topSolutions g -> covered inp sol = App.bestCoverage g) /\
  (forall d fuel remainingPieces currentSolution coverage b best,
     d ∈ App.workers inp ->
     (forall pi, pi ∈ remainingPieces -> pi ∈ pieceOrder d) ->
     let remainingSum := sumRemainingSizes d remainingPieces in
     let best2 := record d currentSolution coverage (countNode best) in
     coverage < boardSize d ->
     coverage + remainingSum <= bestCoverage best2 ->
     backtrackN d false (S fuel) remainingPieces remainingSum currentSolution
                coverage (b, best) = (false, (b, best2)) /\
     forall ext, extension d remainingPieces ext ->
                 coverage + extCoverage d ext <= bestCoverage best2).
Proof.
  intros Hinp Hperm Hfinal. apply final_Some in Hfinal as [-> _].
  split; [by apply aggregate_coverage|].
  intros d fuel remainingPieces currentSolution coverage b best Hd Hsub
         remainingSum best2 Hcov Hprune.
  split.
  - cbn [backtrackN fst snd]. fold best2.
    destruct (Z.leb_spec (boardSize d) coverage); [lia|].
    destruct (Z.leb_spec (coverage + remainingSum) (bestCoverage best2)); [done|lia].
  - intros ext Hext.
    destruct (extCoverage_le d (workers_wf inp Hinp d Hd) remainingPieces ext Hsub Hext)
      as [Hle _].
    unfold remainingSum in Hprune. lia.
Qed.

(** The run on [twoByTwo]: three workers, final coverage 4. *)
Lemma final_list_ties_and_prune_is_sound_witness :
  wfInput twoByTwo /\
  App.final twoByTwo (App.reports twoByTwo)
    = Some (App.aggregate twoByTwo (App.reports twoByTwo)) /\
  forall sol, sol ∈ App.topSolutions (App.aggregate twoByTwo (App.reports twoByTwo)) ->
              covered twoByTwo sol = 4.
Proof.
  split; [exact wfInput_twoByTwo|]. split; [by vm_compute|].
  exact (proj1 (final_list_ties_and_prune_is_sound twoByTwo (App.reports twoByTwo)
                  (App.aggregate twoByTwo (App.reports twoByTwo))
                  wfInput_twoByTwo (Permutation_refl _) ltac:(by vm_compute))).
Defined.

(** ** A piece without placement *)

Lemma sortedBy_head {A : Type} (le : A -> A -> bool) (x : A) (l : list A) :
  (forall a b c, le a b = true -> le b c = true -> le a c = true) ->
  sortedBy le (x :: l) -> forall y, y ∈ l -> le x y = true.
Proof.
  intros Htrans. revert x. induction l as [|z l IH]; intros x Hs y Hy.
  - by apply elem_of_nil in Hy.
  - destruct Hs as [Hxz Hs]. apply elem_of_cons in Hy as [->|Hy]; [done|].
    apply (Htrans x z y Hxz). by apply IH.
Qed.

(** The first piece of the static order has the fewest placements. *)
Lemma pieceOrder_first_least (inp : App.Input) (first pi : nat) :
  App.pieceOrder inp !! 0%nat = Some first ->
  (pi < length (App.pieces inp))%nat ->
  (App.placementCount inp first <= App.placementCount inp pi)%nat.
Proof.
  intros Hfirst Hpi. apply pieceOrder_elem_of in Hpi.
  pose proof (stableSort_sorted
                (fun a b => (App.placementCount inp a <=? App.placementCount inp b)%nat)
                (seq 0 (length (App.pieces inp)))) as Hsorted.
  fold (App.pieceOrder inp) in Hsorted.
  destruct (App.pieceOrder inp) as [|x rest]; [done|]. injection Hfirst as ->.
  apply elem_of_cons in Hpi as [->|Hpi]; [done|].
  apply Nat.leb_le.
  apply (sortedBy_head
           (fun a b => (App.placementCount inp a <=? App.placementCount inp b)%nat)
           first rest); [| |done].
  - intros a b c Hab Hbc. apply Nat.leb_le in Hab, Hbc. apply Nat.leb_le. lia.
  - apply Hsorted. intros a b Hab. apply Nat.leb_gt in Hab. apply Nat.leb_le. lia.
Qed.

(** Whenever some piece of the collection has no placement on the board, and
    also when the collection is empty, no worker is spawned, so that no report
    arrives and the final block of the run is never reached. *)
Lemma unplaceable_piece_spawns_no_worker (inp : App.Input) :
  (exists pi, (pi < length (App.pieces inp))%nat /\ App.placementCount inp pi = 0%nat)
  \/ App.pieces inp = [] ->
  App.workers inp = [] /\
  forall arrived, arrived ≡ₚ App.reports inp -> App.final inp arrived = None.
Proof.
  intros Hcase.
  assert (App.workers inp = []) as Hw.
  { unfold App.workers.
    destruct (App.pieceOrder inp !! 0%nat) as [first|] eqn:Hfirst; [|done].
    destruct Hcase as [(pi & Hpi & Hzero)|Hnil].
    - pose proof (pieceOrder_first_least inp first pi Hfirst Hpi) as Hle.
      assert (default 0%nat (App.piecePlacementCount inp !! first) = 0%nat) as ->.
      { unfold App.placementCount in Hle, Hzero. unfold App.piecePlacementCount.
        rewrite list_lookup_fmap.
        destruct (App.piecePlacements inp !! first); simpl in *; lia. }
      by destruct (App.numWorkers inp).
    - apply lookup_lt_Some in Hfirst. rewrite pieceOrder_length, Hnil in Hfirst.
      simpl in Hfirst. lia. }
  split; [done|]. intros arrived Hperm. unfold App.reports in Hperm. rewrite Hw in Hperm.
  by apply Permutation_nil_r in Hperm as ->.
Qed.

(** C3 — on [withUnplaceable] the two-cell piece has no placement on the
    single-cell board, it comes first in the static order, its empty placement
    list is the one that is split, no worker is spawned and no report ever
    arrives: the run never reaches its final block, although the single-cell
    piece has six placements. *)
Theorem unplaceable_piece_blocks_the_run :
  App.placementCount withUnplaceable 0 = 6%nat /\
  App.placementCount withUnplaceable 1 = 0%nat /\
  App.pieceOrder withUnplaceable = [1; 0]%nat /\
  App.workers withUnplaceable = [] /\
  App.reports withUnplaceable = [] /\
  forall arrived, arrived ≡ₚ App.reports withUnplaceable ->
                  App.final withUnplaceable arrived = None.
Proof.
  do 5 (split; [by vm_compute|]).
  intros arrived Hperm. change (App.reports withUnplaceable) with (@nil Complete) in Hperm.
  by apply Permutation_nil_r in Hperm as ->.
Qed.

(** ** Instances of the theorems of Parts 6 and 16 *)

(** The final list of [twoByTwo] holds packings only. *)
Lemma final_solutions_valid_witness :
  wfInput twoByTwo /\
  App.final twoByTwo (App.reports twoByTwo)
    = Some (App.aggregate twoByTwo (App.reports twoByTwo)) /\
  forall sol, sol ∈ App.topSolutions (App.aggregate twoByTwo (App.reports twoByTwo)) ->
              validPacking twoByTwo sol.
Proof.
  split; [exact wfInput_twoByTwo|]. split; [by vm_compute|].
  exact (final_solutions_valid twoByTwo (App.reports twoByTwo)
           (App.aggregate twoByTwo (App.reports twoByTwo))
           wfInput_twoByTwo (Permutation_refl _) ltac:(by vm_compute)).
Defined.

(** The first placement of [twoByTwo] on the cleared board. *)
Lemma apply_undo_frame_witness :
  targetsOf (tablesOf twoByTwo) 0 = [0; 2]%nat /\
  let b := initialBoard (tablesOf twoByTwo) in
  let b2 := undoPlacementByIndex (tablesOf twoByTwo) 0
              (applyPlacementByIndex (tablesOf twoByTwo) 0 0 b) in
  (forall c, c ∈ targetsOf (tablesOf twoByTwo) 0 -> occupancy b2 !! c = Some (-1)) /\
  depth b2 = depth b.
Proof.
  split; [by vm_compute|].
  assert (forall c, c ∈ targetsOf (tablesOf twoByTwo) 0 ->
            occupancy (initialBoard (tablesOf twoByTwo)) !! c = Some (-1)) as Hfree.
  { apply Forall_forall. checked_by_computation. }
  destruct (apply_undo_frame (tablesOf twoByTwo) 0 0 (initialBoard (tablesOf twoByTwo))
              ltac:(by vm_compute) ltac:(by vm_compute) Hfree) as (H1 & H2 & _).
  split; [exact H1|exact H2].
Defined.

(* ===================================================================== *)
(** * Part 19 — the coordinate functions as a group of motions            *)
(* ===================================================================== *)

Lemma and1_mod (x : Z) : and1 x = x mod 2.
Proof. unfold and1. exact (Z.land_ones x 1 ltac:(lia)). Qed.

Lemma and1_cases (x : Z) : and1 x = 0 \/ and1 x = 1.
Proof. rewrite and1_mod. pose proof (Z.mod_pos_bound x 2 ltac:(lia)). lia. Qed.

Lemma half_even_exact (x : Z) : 2 * half_even x = x - and1 x.
Proof.
  unfold half_even. rewrite and1_mod.
  pose proof (Z.div_mod x 2 ltac:(lia)) as Hx.
  replace (x - x mod 2) with (x / 2 * 2) by lia.
  rewrite Z.div_mul by lia. lia.
Qed.

Lemma norm6_mod (t : Z) : norm6 t = t mod 6.
Proof. unfold norm6. Z.to_euclidean_division_equations. lia. Qed.

Lemma norm6_add (a b : Z) :
  norm6 a + norm6 b = norm6 (a + b) \/ norm6 a + norm6 b = norm6 (a + b) + 6.
Proof. rewrite !norm6_mod. Z.to_euclidean_division_equations. lia. Qed.

Lemma norm6_opp (k : Z) : norm6 (- k) = norm6 (6 - norm6 k).
Proof. rewrite !norm6_mod. Z.to_euclidean_division_equations. lia. Qed.

(** Translation in cube coordinates. *)
Lemma toAxial_addHex (a b : Hex) :
  toAxial (HexGrid.addHex a b)
  = ((toAxial a).1.1 + (toAxial b).1.1, (toAxial a).1.2 + (toAxial b).1.2,
     (toAxial a).2 + (toAxial b).2).
Proof.
  destruct a as [qa ra], b as [qb rb]. unfold toAxial, HexGrid.addHex; simpl.
  f_equal; [f_equal|]; lia.
Qed.

Lemma toAxial_subtractHex (a b : Hex) :
  toAxial (HexGrid.subtractHex a b)
  = ((toAxial a).1.1 - (toAxial b).1.1, (toAxial a).1.2 - (toAxial b).1.2,
     (toAxial a).2 - (toAxial b).2).
Proof.
  destruct a as [qa ra], b as [qb rb]. unfold toAxial, HexGrid.subtractHex; simpl.
  f_equal; [f_equal|]; lia.
Qed.

Ltac triple_eq :=
  repeat (match goal with
          | |- @eq (_ * _) (_, _) (_, _) => apply pair_equal_spec; split
          end).

Ltac by_axial :=
  apply toAxial_inj;
  repeat (rewrite toAxial_addHex || rewrite toAxial_subtractHex);
  repeat match goal with h : Hex |- _ => destruct h end;
  unfold toAxial; cbn [q r fst snd]; change (half_even 0) with 0;
  triple_eq; lia.


Lemma HexGrid_iter_mod6 (n m : nat) (c : Z * Z * Z) :
  (n = m \/ n = m + 6)%nat -> HexGrid.iter_step n c = HexGrid.iter_step m c.
Proof.
  intros [->| ->]; [done|].
  rewrite (Nat.add_comm m 6), HexGrid_iter_add. by rewrite HexGrid_step6.
Qed.

Lemma toAxial_rotateHex (h : Hex) (k : Z) :
  toAxial (HexGrid.rotateHex h k) = HexGrid.iter_step (Z.to_nat (norm6 k)) (toAxial h).
Proof.
  rewrite HexGrid_rotateHex_axial.
  set (c := HexGrid.iter_step _ _).
  assert (onPlane c) as Hc by apply HexGrid_iter_onPlane, toAxial_onPlane.
  destruct c as [[x y] z]. apply toAxial_ofAxial, Hc.
Qed.

Lemma HexGrid_rotateHex_add (h : Hex) (a b : Z) :
  HexGrid.rotateHex (HexGrid.rotateHex h a) b = HexGrid.rotateHex h (a + b).
Proof.
  apply toAxial_inj. rewrite !toAxial_rotateHex, <- HexGrid_iter_add.
  apply HexGrid_iter_mod6.
  pose proof (norm6_range a). pose proof (norm6_range b).
  pose proof (norm6_range (a + b)). pose proof (norm6_add a b). lia.
Qed.


Lemma HexGrid_step_add (c1 c2 : Z * Z * Z) :
  HexGrid.step (c1.1.1 + c2.1.1, c1.1.2 + c2.1.2, c1.2 + c2.2)
  = ((HexGrid.step c1).1.1 + (HexGrid.step c2).1.1,
     (HexGrid.step c1).1.2 + (HexGrid.step c2).1.2,
     (HexGrid.step c1).2 + (HexGrid.step c2).2).
Proof.
  destruct c1 as [[x1 y1] z1], c2 as [[x2 y2] z2]. simpl. f_equal; [f_equal|]; lia.
Qed.

Lemma HexGrid_iter_step_add (n : nat) (c1 c2 : Z * Z * Z) :
  HexGrid.iter_step n (c1.1.1 + c2.1.1, c1.1.2 + c2.1.2, c1.2 + c2.2)
  = ((HexGrid.iter_step n c1).1.1 + (HexGrid.iter_step n c2).1.1,
     (HexGrid.iter_step n c1).1.2 + (HexGrid.iter_step n c2).1.2,
     (HexGrid.iter_step n c1).2 + (HexGrid.iter_step n c2).2).
Proof.
  revert c1 c2. induction n as [|n IH]; intros c1 c2.
  - by destruct c1 as [[??]?], c2 as [[??]?].
  - cbn [HexGrid.iter_step]. rewrite HexGrid_step_add. apply IH.
Qed.


Lemma Worker_iter_HexGrid_iter (n : nat) (c : Z * Z * Z) :
  Worker.iter_step n (HexGrid.iter_step n c) = c.
Proof.
  revert c. induction n as [|n IH]; intros c; [done|].
  replace (S n) with (n + 1)%nat at 1 by lia.
  rewrite Worker_iter_add. cbn [HexGrid.iter_step].
  rewrite IH. cbn [Worker.iter_step]. apply Worker_step_HexGrid_step.
Qed.



Lemma max3_spec (x y : Z) :
  let m := Z.max (Z.abs x) (Z.max (Z.abs y) (Z.abs (- x - y))) in
  Z.abs x <= m /\ Z.abs y <= m /\ Z.abs (x + y) <= m /\
  (m = Z.abs x \/ m = Z.abs y \/ m = Z.abs (x + y)) /\
  Z.abs x + Z.abs y + Z.abs (- x - y) = m * 2.
Proof. cbn zeta. lia. Qed.

Lemma hex_distance_max (a b : Hex) :
  HexGrid.hex_distance a b
  = Z.max (Z.abs (q a - q b)) (Z.max (Z.abs (r a - r b))
                                     (Z.abs (- (q a - q b) - (r a - r b)))).
Proof.
  unfold HexGrid.hex_distance, s.
  replace (- q a - r a - (- q b - r b)) with (- (q a - q b) - (r a - r b)) by lia.
  destruct (max3_spec (q a - q b) (r a - r b)) as (_ & _ & _ & _ & ->).
  apply Z.div_mul. lia.
Qed.

Lemma hex_distance_triangle (a b c : Hex) :
  HexGrid.hex_distance a c <= HexGrid.hex_distance a b + HexGrid.hex_distance b c.
Proof.
  rewrite !hex_distance_max.
  replace (q a - q c) with ((q a - q b) + (q b - q c)) by lia.
  replace (r a - r c) with ((r a - r b) + (r b - r c)) by lia.
  generalize (q a - q b) (r a - r b) (q b - q c) (r b - r c). intros x y x' y'.
  destruct (max3_spec x y) as (H1 & H2 & H3 & _).
  destruct (max3_spec x' y') as (H1' & H2' & H3' & _).
  destruct (max3_spec (x + x') (y + y')) as (_ & _ & _ & Hm & _).
  revert H1 H2 H3 H1' H2' H3' Hm.
  generalize (Z.max (Z.abs x) (Z.max (Z.abs y) (Z.abs (- x - y)))).
  generalize (Z.max (Z.abs x') (Z.max (Z.abs y') (Z.abs (- x' - y')))).
  generalize (Z.max (Z.abs (x + x')) (Z.max (Z.abs (y + y')) (Z.abs (- (x + x') - (y + y'))))).
  intros m3 m2 m1 H1 H2 H3 H1' H2' H3' Hm.
  pose proof (Z.abs_triangle x x') as T1.
  pose proof (Z.abs_triangle y y') as T2.
  pose proof (Z.abs_triangle (x + y) (x' + y')) as T3.
  replace (x + y + (x' + y')) with (x + x' + (y + y')) in T3 by lia.
  revert H1 H2 H3 H1' H2' H3' Hm T1 T2 T3.
  generalize (Z.abs x) (Z.abs y) (Z.abs (x + y)) (Z.abs x') (Z.abs y') (Z.abs (x' + y'))
             (Z.abs (x + x')) (Z.abs (y + y')) (Z.abs (x + x' + (y + y'))).
  intros. lia.
Qed.

Lemma hex_distance_sym (a b : Hex) :
  HexGrid.hex_distance a b = HexGrid.hex_distance b a.
Proof.
  rewrite !hex_distance_max.
  replace (q b - q a) with (- (q a - q b)) by lia.
  replace (r b - r a) with (- (r a - r b)) by lia.
  generalize (q a - q b) (r a - r b). intros x y. lia.
Qed.


Lemma mod6_cases (i : nat) :
  (i mod 6 = 0 \/ i mod 6 = 1 \/ i mod 6 = 2 \/ i mod 6 = 3 \/ i mod 6 = 4 \/ i mod 6 = 5)%nat.
Proof. pose proof (Nat.mod_upper_bound i 6 ltac:(lia)). lia. Qed.

Lemma neighbor_mod (h : Hex) (i : nat) :
  HexGrid.neighbor h i = HexGrid.neighbor h (i mod 6)%nat.
Proof. unfold HexGrid.neighbor. by rewrite Nat.Div0.mod_mod. Qed.

Lemma neighbor_cases (h : Hex) (i : nat) :
  ((i mod 6)%nat = 0%nat /\ HexGrid.neighbor h i = mkHex (q h + 1) (r h + 0)) \/
  ((i mod 6)%nat = 1%nat /\ HexGrid.neighbor h i = mkHex (q h + 1) (r h + -1)) \/
  ((i mod 6)%nat = 2%nat /\ HexGrid.neighbor h i = mkHex (q h + 0) (r h + -1)) \/
  ((i mod 6)%nat = 3%nat /\ HexGrid.neighbor h i = mkHex (q h + -1) (r h + 0)) \/
  ((i mod 6)%nat = 4%nat /\ HexGrid.neighbor h i = mkHex (q h + -1) (r h + 1)) \/
  ((i mod 6)%nat = 5%nat /\ HexGrid.neighbor h i = mkHex (q h + 0) (r h + 1)).
Proof.
  unfold HexGrid.neighbor.
  destruct (mod6_cases i) as [E|[E|[E|[E|[E|E]]]]]; rewrite E;
    [left|right; left|do 2 right; left|do 3 right; left|do 4 right; left|do 5 right];
    (split; [reflexivity|reflexivity]).
Qed.

Lemma hex_distance_neighbor (h : Hex) (i : nat) :
  HexGrid.hex_distance h (HexGrid.neighbor h i) = 1.
Proof.
  rewrite hex_distance_max.
  destruct (neighbor_cases h i) as [[_ ->]|[[_ ->]|[[_ ->]|[[_ ->]|[[_ ->]|[_ ->]]]]]];
    cbn [q r]; lia.
Qed.

Lemma hex_distance_1_neighbor (h b : Hex) :
  HexGrid.hex_distance h b = 1 -> exists k, (k < 6)%nat /\ b = HexGrid.neighbor h k.
Proof.
  intros Hb. rewrite hex_distance_max in Hb.
  destruct h as [qh rh], b as [qb rb]. cbn [q r] in Hb.
  assert ((qb = qh + 1 /\ rb = rh + 0) \/ (qb = qh + 1 /\ rb = rh + -1) \/
          (qb = qh + 0 /\ rb = rh + -1) \/ (qb = qh + -1 /\ rb = rh + 0) \/
          (qb = qh + -1 /\ rb = rh + 1) \/ (qb = qh + 0 /\ rb = rh + 1)) as Hc by lia.
  destruct Hc as [[-> ->]|[[-> ->]|[[-> ->]|[[-> ->]|[[-> ->]|[-> ->]]]]]];
    [exists 0%nat|exists 1%nat|exists 2%nat|exists 3%nat|exists 4%nat|exists 5%nat];
    (split; [lia|reflexivity]).
Qed.

Lemma neighbor_inj (h : Hex) (i j : nat) :
  HexGrid.neighbor h i = HexGrid.neighbor h j -> (i mod 6 = j mod 6)%nat.
Proof.
  intros Heq.
  destruct (neighbor_cases h i) as [[Ei Hi]|[[Ei Hi]|[[Ei Hi]|[[Ei Hi]|[[Ei Hi]|[Ei Hi]]]]]];
  destruct (neighbor_cases h j) as [[Ej Hj]|[[Ej Hj]|[[Ej Hj]|[[Ej Hj]|[[Ej Hj]|[Ej Hj]]]]]];
    rewrite Ei, Ej; try reflexivity;
    rewrite Hi, Hj in Heq; injection Heq; intros; lia.
Qed.


(* ===================================================================== *)
(** * Part 20 — the board tables of the coordinator                       *)
(* ===================================================================== *)

Lemma generateRect_elem_of (width height q0 r0 : Z) (hex : Hex) :
  hex ∈ HexGrid.generateRect width height q0 r0 <->
  q0 <= q hex < q0 + width /\ r0 <= r hex < r0 + height.
Proof.
  unfold HexGrid.generateRect. rewrite flat_map_bind, list_elem_of_bind. split.
  - intros (qi & Hin & Hqi).
    apply (list_elem_of_fmap (fun ri => mkHex qi ri)) in Hin as (ri & -> & Hri).
    apply elem_of_seqZ in Hqi, Hri. simpl. lia.
  - intros [Hq Hr]. exists (q hex). split; [|apply elem_of_seqZ; lia].
    apply (list_elem_of_fmap (fun ri => mkHex (q hex) ri)). exists (r hex).
    split; [by destruct hex|apply elem_of_seqZ; lia].
Qed.

Lemma generateRect_lookup (width height qq rr : Z) :
  0 <= qq < width -> 0 <= rr < height ->
  HexGrid.generateRect width height 0 0 !! Z.to_nat (qq * height + rr)
    = Some (mkHex qq rr).
Proof.
  intros Hq Hr. unfold HexGrid.generateRect. rewrite flat_map_concat_map.
  set (f := fun qi => map (fun ri => mkHex qi ri) (seqZ 0 height)).
  assert (map f (seqZ 0 width) !! Z.to_nat qq = Some (f qq)) as Hrow.
  { rewrite list_lookup_fmap, lookup_seqZ_lt by lia. simpl. f_equal. f_equal. lia. }
  assert (length (concat (take (Z.to_nat qq) (map f (seqZ 0 width))))
          = (Z.to_nat qq * Z.to_nat height)%nat) as Hlen.
  { rewrite <- fmap_take. change (concat (f <$> ?l)) with (concat (map f l)).
    rewrite <- flat_map_concat_map.
    rewrite (flat_map_length_const _ _ (Z.to_nat height)).
    - rewrite length_take, length_seqZ. lia.
    - intros x _. unfold f. by rewrite length_map, length_seqZ. }
  replace (Z.to_nat (qq * height + rr))
    with (length (concat (take (Z.to_nat qq) (map f (seqZ 0 width)))) + Z.to_nat rr)%nat
    by (rewrite Hlen; nia).
  rewrite (concat_lookup_middle _ _ _ (f qq) Hrow).
  - unfold f. rewrite list_lookup_fmap, lookup_seqZ_lt by lia. simpl. f_equal. f_equal. lia.
  - unfold f. rewrite length_map, length_seqZ. lia.
Qed.

Section Cells.

Variable inp : App.Input.

Lemma board_dims : 1 <= App.w inp /\ 1 <= App.h inp.
Proof. unfold App.w, App.h. lia. Qed.

Lemma boardCells_length : Z.of_nat (length (App.boardCells inp)) = App.boardSize inp.
Proof.
  pose proof board_dims. unfold App.boardCells, App.boardGrid, App.boardSize.
  apply generateRect_length; lia.
Qed.

Lemma boardCells_elem_of (hex : Hex) :
  hex ∈ App.boardCells inp <-> 0 <= q hex < App.w inp /\ 0 <= r hex < App.h inp.
Proof.
  unfold App.boardCells, App.boardGrid. rewrite generateRect_elem_of. lia.
Qed.

Lemma cellIndex_in_range (hex : Hex) :
  0 <= q hex < App.w inp -> 0 <= r hex < App.h inp ->
  App.cellIndex inp hex = Some (Z.to_nat (q hex * App.h inp + r hex)).
Proof.
  intros Hq Hr. apply cellIndex_Some. unfold App.boardCells, App.boardGrid.
  rewrite generateRect_lookup by done. by destruct hex.
Qed.

Lemma cellIndex_off_board (hex : Hex) :
  ~ (0 <= q hex < App.w inp /\ 0 <= r hex < App.h inp) -> App.cellIndex inp hex = None.
Proof.
  intros Hout. destruct (App.cellIndex inp hex) as [i|] eqn:Hi; [|done].
  apply cellIndex_Some in Hi. apply list_elem_of_lookup_2 in Hi.
  by apply boardCells_elem_of in Hi.
Qed.

End Cells.

(** X9 — the linear index of a board cell is column-major: the cell [(q, r)]
    of a [w] x [h] board has index [q * h + r], a hex off the board has none,
    the cell of index [i] is [(i / h, i mod h)], and the board has
    [w * h >= 1] cells whatever the two inputs hold. *)
Theorem cellIndex_column_major (inp : App.Input) (hex : Hex) :
  App.cellIndex inp hex
    = (if bool_decide (0 <= q hex < App.w inp /\ 0 <= r hex < App.h inp)
       then Some (Z.to_nat (q hex * App.h inp + r hex)) else None) /\
  (forall i, (i < length (App.boardCells inp))%nat ->
     App.boardCells inp !! i
       = Some (mkHex (Z.of_nat i / App.h inp) (Z.of_nat i mod App.h inp))) /\
  Z.of_nat (length (App.boardCells inp)) = App.boardSize inp /\
  1 <= App.boardSize inp.
Proof.
  pose proof (board_dims inp) as [Hw Hh].
  pose proof (boardCells_length inp) as Hlen.
  split; [|split; [|split; [done|unfold App.boardSize; nia]]].
  - case_bool_decide as Hin.
    + destruct Hin. by apply cellIndex_in_range.
    + by apply cellIndex_off_board.
  - intros i Hi. apply cellIndex_Some.
    assert (0 <= Z.of_nat i < App.w inp * App.h inp) as Hi'
      by (unfold App.boardSize in Hlen; lia).
    pose proof (Z.div_mod (Z.of_nat i) (App.h inp) ltac:(lia)) as Hdm.
    pose proof (Z.mod_pos_bound (Z.of_nat i) (App.h inp) ltac:(lia)) as Hm.
    assert (0 <= Z.of_nat i / App.h inp < App.w inp) as Hd.
    { split; [apply Z.div_pos; lia|]. apply Z.div_lt_upper_bound; lia. }
    rewrite cellIndex_in_range by done. cbn [q r]. f_equal. lia.
Qed.

Lemma HexGrid_get_Some (cells : list Hex) (h n : Hex) :
  HexGrid.get cells h = Some n <-> n = h /\ h ∈ cells.
Proof.
  unfold HexGrid.get. split.
  - intros Hf. apply find_some in Hf as [Hin Hk].
    apply bool_decide_eq_true in Hk. apply key_inj in Hk as ->.
    split; [done|by apply list_elem_of_In].
  - intros [-> Hin]. destruct (find _ cells) as [x|] eqn:Hf.
    + apply find_some in Hf as [_ Hk]. apply bool_decide_eq_true, key_inj in Hk.
      by subst.
    + exfalso. apply list_elem_of_In in Hin.
      pose proof (find_none _ _ Hf _ Hin) as Hk. simpl in Hk.
      by apply bool_decide_eq_false in Hk.
Qed.

Lemma NoDup_omap_inj {A B : Type} (f : A -> option B) (l : list A) :
  NoDup l ->
  (forall x y z, x ∈ l -> y ∈ l -> f x = Some z -> f y = Some z -> x = y) ->
  NoDup (omap f l).
Proof.
  induction l as [|a l IH]; intros Hnd Hinj; simpl; [constructor|].
  apply NoDup_cons in Hnd as [Ha Hnd].
  assert (NoDup (omap f l)) as Hrec.
  { apply IH; [done|]. intros x y z Hx Hy. apply Hinj; by right. }
  destruct (f a) as [b|] eqn:Hfa; [|done].
  apply NoDup_cons. split; [|done].
  intros Hin. apply list_elem_of_omap in Hin as (x & Hx & Hfx).
  assert (a = x) as -> by (apply (Hinj a x b); [left|by right|done|done]).
  done.
Qed.

Lemma length_omap_le {A B : Type} (f : A -> option B) (l : list A) :
  (length (omap f l) <= length l)%nat.
Proof.
  induction l as [|a l IH]; [done|].
  change (omap f (a :: l)) with (match f a with Some y => y :: omap f l | None => omap f l end).
  destruct (f a); simpl; lia.
Qed.

Section Neighbors.

Variable inp : App.Input.

Lemma boardCells_NoDup : NoDup (App.boardCells inp).
Proof. apply boardGrid_NoDup. Qed.

Lemma boardCells_lookup_inj (i j : nat) (hex : Hex) :
  App.boardCells inp !! i = Some hex -> App.boardCells inp !! j = Some hex -> i = j.
Proof. intros Hi Hj. by eapply NoDup_lookup; [apply boardCells_NoDup| |]. Qed.

Lemma neighbors_row_aux (hi : Hex) (ks : list nat) :
  map (fun n => default 0%nat (App.cellIndex inp n))
      (omap (fun k => HexGrid.get (App.boardGrid inp) (HexGrid.neighbor hi k)) ks)
  = omap (fun k => App.cellIndex inp (HexGrid.neighbor hi k)) ks.
Proof.
  induction ks as [|k ks IH]; [done|].
  change (omap ?f (k :: ks))
    with (match f k with Some y => y :: omap f ks | None => omap f ks end).
  cbn beta.
  destruct (HexGrid.get (App.boardGrid inp) (HexGrid.neighbor hi k)) as [n|] eqn:Hget.
  - apply HexGrid_get_Some in Hget as [-> Hin].
    apply list_elem_of_lookup in Hin as [c Hc].
    apply (cellIndex_Some inp) in Hc. rewrite Hc. cbn [map default]. rewrite Hc.
    by rewrite IH.
  - destruct (App.cellIndex inp (HexGrid.neighbor hi k)) as [c|] eqn:Hc; [|done].
    apply cellIndex_Some in Hc. apply list_elem_of_lookup_2 in Hc.
    assert (HexGrid.get (App.boardGrid inp) (HexGrid.neighbor hi k)
            = Some (HexGrid.neighbor hi k)) as Hsome by by apply HexGrid_get_Some.
    congruence.
Qed.

(** The row of cell [i]: the indices of the neighbours that exist, in the
    order of the six directions. *)
Lemma neighbors_row (i : nat) (hi : Hex) :
  App.boardCells inp !! i = Some hi ->
  App.neighbors inp !! i
    = Some (omap (fun k => App.cellIndex inp (HexGrid.neighbor hi k)) (seq 0 6)).
Proof.
  intros Hi. unfold App.neighbors. rewrite list_lookup_fmap, Hi.
  cbn [fmap option_fmap option_map]. f_equal. apply neighbors_row_aux.
Qed.

Lemma neighbors_row_elem_of (hi hj : Hex) (j : nat) :
  App.boardCells inp !! j = Some hj ->
  j ∈ omap (fun k => App.cellIndex inp (HexGrid.neighbor hi k)) (seq 0 6)
  <-> HexGrid.hex_distance hi hj = 1.
Proof.
  intros Hj. rewrite list_elem_of_omap. split.
  - intros (k & _ & Hk). apply cellIndex_Some in Hk.
    assert (hj = HexGrid.neighbor hi k) as -> by congruence.
    apply hex_distance_neighbor.
  - intros Hd. apply hex_distance_1_neighbor in Hd as (k & Hk & ->).
    exists k. split; [apply elem_of_seq; lia|]. by apply cellIndex_Some.
Qed.

End Neighbors.

(** X10 — the neighbour table handed to the workers: the row of a cell holds
    each index once, at most six of them, all on the board; it holds the
    index of another cell exactly when the two cells are at [hex_distance] 1,
    so the table is symmetric. *)
Theorem neighbors_table (inp : App.Input) (i j : nat) (hi hj : Hex) :
  App.boardCells inp !! i = Some hi ->
  App.boardCells inp !! j = Some hj ->
  exists ns,
    App.neighbors inp !! i = Some ns /\
    NoDup ns /\ (length ns <= 6)%nat /\
    (forall c, c ∈ ns -> (c < length (App.boardCells inp))%nat) /\
    (j ∈ ns <-> HexGrid.hex_distance hi hj = 1) /\
    (j ∈ ns <-> exists ns', App.neighbors inp !! j = Some ns' /\ i ∈ ns').
Proof.
  intros Hi Hj. eexists. split; [by apply neighbors_row|].
  split; [|split; [|split; [|split]]].
  - apply NoDup_omap_inj; [apply NoDup_seq|].
    intros x y c Hx Hy Hcx Hcy. apply elem_of_seq in Hx, Hy.
    apply cellIndex_Some in Hcx, Hcy.
    assert (HexGrid.neighbor hi x = HexGrid.neighbor hi y) as Heq by congruence.
    apply neighbor_inj in Heq.
    rewrite !Nat.mod_small in Heq by lia. done.
  - etrans; [apply length_omap_le|]. by rewrite length_seq.
  - intros c Hc. apply list_elem_of_omap in Hc as (k & _ & Hk).
    apply cellIndex_Some in Hk. by eapply lookup_lt_Some.
  - by apply neighbors_row_elem_of.
  - rewrite (neighbors_row_elem_of inp hi hj j Hj). split.
    + intros Hd. eexists. split; [by apply neighbors_row|].
      apply (neighbors_row_elem_of inp hj hi i Hi). by rewrite hex_distance_sym.
    + intros (ns' & Hns' & Hin). rewrite (neighbors_row inp j hj Hj) in Hns'.
      injection Hns' as <-.
      apply (neighbors_row_elem_of inp hj hi i Hi) in Hin. by rewrite hex_distance_sym.
Qed.

(** On the 2 x 2 board the cells 0 = (0, 0) and 1 = (0, 1) are neighbours. *)
Lemma neighbors_table_witness :
  exists ns, App.neighbors twoByTwo !! 0%nat = Some ns /\ 1%nat ∈ ns.
Proof.
  destruct (neighbors_table twoByTwo 0 1 (mkHex 0 0) (mkHex 0 1)
              ltac:(reflexivity) ltac:(reflexivity)) as (ns & Hns & _ & _ & _ & Hd & _).
  exists ns. split; [exact Hns|]. apply Hd. reflexivity.
Defined.

(* ===================================================================== *)
(** * Part 21 — the placement compiler and the packed tables              *)
(* ===================================================================== *)

Section Compiler.

Variable inp : App.Input.

(** Indices that read back, through [boardCells], as the given hexes. *)
Lemma targets_decode (targets : list nat) (hexes : list Hex) :
  map (fun c => App.boardCells inp !! c) targets = map Some hexes <->
  targets = map (fun t => default 0%nat (App.cellIndex inp t)) hexes /\
  Forall (fun t => t ∈ App.boardCells inp) hexes.
Proof.
  revert hexes. induction targets as [|c targets IH]; intros [|t hexes]; simpl.
  - split; [by split|done].
  - split; [done|]. by intros [? _].
  - split; [done|]. by intros [? _].
  - split.
    + intros [= Hc Hrest]. apply IH in Hrest as [-> Hall].
      pose proof Hc as Hidx. apply cellIndex_Some in Hidx. rewrite Hidx. simpl.
      split; [done|]. constructor; [by eapply list_elem_of_lookup_2|done].
    + intros [[= Hc Hrest] Hall]. apply Forall_cons in Hall as [Ht Hall].
      apply list_elem_of_lookup in Ht as [c' Hc'].
      pose proof Hc' as Hidx. apply cellIndex_Some in Hidx. rewrite Hidx in Hc.
      simpl in Hc. subst c'. rewrite Hc'. f_equal. apply IH. by split.
Qed.

Lemma placementTargets_decode (pc : App.Piece) (rot : Z) (anchor : Hex)
    (targets : list nat) :
  App.placementTargets inp pc rot anchor = Some targets <->
  map (fun c => App.boardCells inp !! c) targets
    = map (fun off => Some (App.target anchor rot off)) (App.cells pc).
Proof.
  rewrite <- (map_map (App.target anchor rot) Some), targets_decode, map_map.
  unfold App.placementTargets. split.
  - destruct (forallb _ _) eqn:Hall; [|done]. intros [= <-]. split; [done|].
    apply Forall_map, Forall_forall. intros off Hoff.
    rewrite forallb_forall in Hall. apply list_elem_of_In, Hall, has_cellIndex in Hoff.
    destruct Hoff as [c Hc]. apply cellIndex_Some in Hc. by eapply list_elem_of_lookup_2.
  - intros [-> Hall]. rewrite Forall_map, Forall_forall in Hall.
    assert (forallb (fun off => HexGrid.has (App.boardGrid inp) (App.target anchor rot off))
                    (App.cells pc) = true) as ->; [|done].
    apply forallb_forall. intros off Hoff. apply list_elem_of_In, Hall in Hoff.
    apply has_cellIndex. apply list_elem_of_lookup in Hoff as [c Hc].
    exists c. by apply cellIndex_Some.
Qed.

Lemma placementsOfPiece_length (pi : nat) (pc : App.Piece) :
  (length (App.placementsOfPiece inp pi pc)
   <= App.rotLimit inp * length (App.boardCells inp))%nat.
Proof.
  unfold App.placementsOfPiece.
  assert (forall rots : list nat,
            (length (flat_map (fun rot =>
               omap (fun anchor =>
                  match App.placementTargets inp pc (Z.of_nat rot) anchor with
                  | Some targets =>
                      Some (App.mkPlacement pi (App.id pc)
                              (default 0%nat (App.cellIndex inp anchor))
                              (Z.of_nat rot) targets)
                  | None => None
                  end) (App.boardGrid inp)) rots)
             <= length rots * length (App.boardCells inp))%nat) as Hgen.
  { induction rots as [|rot rots IH]; [done|].
    cbn [flat_map]. rewrite length_app. cbn [length].
    pose proof (length_omap_le
      (fun anchor =>
         match App.placementTargets inp pc (Z.of_nat rot) anchor with
         | Some targets =>
             Some (App.mkPlacement pi (App.id pc)
                     (default 0%nat (App.cellIndex inp anchor)) (Z.of_nat rot) targets)
         | None => None
         end) (App.boardGrid inp)) as Hle.
    unfold App.boardCells in *. nia. }
  specialize (Hgen (seq 0 (App.rotLimit inp))). by rewrite length_seq in Hgen.
Qed.

End Compiler.

(** X11 — the placement compiler is exact: the placements of a piece are the
    records [(pieceIdx, pieceId, anchorIdx, rot, targets)] for which the
    anchor is a board cell, the rotation is below the limit (6, or 1 with
    rotations off), and the targets are, in the order of the piece's cells,
    the indices of the rotated and translated cells, all of them on the
    board. A piece has at most [rotLimit * boardSize] placements. *)
Theorem compiled_placements_exact (inp : App.Input) (pi : nat) (pc : App.Piece)
    (pl : App.Placement) :
  (pl ∈ App.placementsOfPiece inp pi pc <->
   App.pieceIdx pl = pi /\ App.pieceId pl = App.id pc /\
   exists (rot : nat) (anchor : Hex),
     (rot < App.rotLimit inp)%nat /\ App.rot pl = Z.of_nat rot /\
     App.boardCells inp !! App.anchorIdx pl = Some anchor /\
     map (fun c => App.boardCells inp !! c) (App.targets pl)
       = map (fun off => Some (App.target anchor (Z.of_nat rot) off)) (App.cells pc)) /\
  (length (App.placementsOfPiece inp pi pc)
   <= App.rotLimit inp * length (App.boardCells inp))%nat /\
  ((App.rotLimit inp = 6)%nat \/ (App.rotLimit inp = 1)%nat).
Proof.
  split; [|split; [apply placementsOfPiece_length|]].
  2:{ unfold App.rotLimit. destruct (App.allowRotations inp); auto. }
  split.
  - intros Hin.
    apply placementsOfPiece_elem_of in Hin as (rot & anchor & targets & Hrot & Ha & Ht & ->).
    cbn [App.pieceIdx App.pieceId App.rot App.anchorIdx App.targets].
    split; [done|]. split; [done|]. exists rot, anchor. split; [done|]. split; [done|].
    apply list_elem_of_lookup in Ha as [a Ha]. pose proof Ha as Hidx.
    apply cellIndex_Some in Hidx. rewrite Hidx. simpl. split; [exact Ha|].
    by apply placementTargets_decode.
  - intros (Hpi & Hid & rot & anchor & Hrot & Hr & Ha & Ht).
    apply placementTargets_decode in Ht.
    unfold App.placementsOfPiece. rewrite flat_map_bind, list_elem_of_bind.
    exists rot. split; [|apply elem_of_seq; lia].
    apply list_elem_of_omap. exists anchor. split; [by eapply list_elem_of_lookup_2|].
    rewrite Ht. apply cellIndex_Some in Ha. rewrite Ha. simpl.
    destruct pl; simpl in *; by subst.
Qed.

Section RoundTrip.

Variable inp : App.Input.

Variables (i : nat) (assigned : list nat).

Local Abbreviation d := (App.startData inp i assigned).

Lemma packed_row (pi : nat) (pc : App.Piece) (off : nat) (pl : App.Placement) :
  App.pieces inp !! pi = Some pc ->
  App.placementsOfPiece inp pi pc !! off = Some pl ->
  exists k tStart,
    placementsOf d pi !! off = Some k /\
    meta d k = mkMeta (App.pieceIdx pl) (toInt32 (App.pieceId pl)) (App.anchorIdx pl)
                      (App.rot pl) tStart (length (App.targets pl)) /\
    targetsOf d k = App.targets pl.
Proof.
  intros Hpi Hoff. rewrite (placementsOf_compiled inp i assigned pi pc Hpi).
  set (start := length (concat (take pi (App.piecePlacements inp)))).
  pose proof (piecePlacements_lookup inp pi pc Hpi) as Hl.
  pose proof (lookup_lt_Some _ _ _ Hoff) as Hlt.
  assert (concat (App.piecePlacements inp) !! (start + off)%nat = Some pl) as Hpl.
  { rewrite <- Hoff. by apply concat_lookup_middle. }
  exists (start + off)%nat,
    (0 + length (concat (map App.targets
                           (take (start + off) (concat (App.piecePlacements inp))))))%nat.
  split; [by apply lookup_seq_lt|].
  assert (meta d (start + off) =
          mkMeta (App.pieceIdx pl) (toInt32 (App.pieceId pl)) (App.anchorIdx pl)
            (App.rot pl)
            (0 + length (concat (map App.targets
                                   (take (start + off) (concat (App.piecePlacements inp))))))
            (length (App.targets pl))) as Hmeta.
  { unfold meta. simpl. unfold App.placementsMeta.
    by rewrite (packMeta_lookup _ 0 _ _ Hpl). }
  split; [exact Hmeta|].
  unfold targetsOf. rewrite Hmeta. simpl. unfold App.placementsTargets.
  apply (packed_targets _ _ _ Hpl).
Qed.

End RoundTrip.

(** X12 — packing round trip: what a worker reads from the flat tables for
    the placements of piece [pi] (piece index, piece id, anchor index,
    rotation and the target cells between [targetsStart] and
    [targetsStart + targetsLen]) is what the compiler produced for that
    piece, placement by placement and in the same order, with the piece id
    wrapped to 32 bits as the [Int32Array] stores it. *)
Theorem packing_round_trip (inp : App.Input) (i : nat) (assigned : list nat)
    (pi : nat) (pc : App.Piece) :
  App.pieces inp !! pi = Some pc ->
  let d := App.startData inp i assigned in
  map (fun k => (m_pieceIdx (meta d k), m_pieceId (meta d k), m_anchorIdx (meta d k),
                 m_rot (meta d k), targetsOf d k))
      (placementsOf d pi)
  = map (fun pl => (App.pieceIdx pl, toInt32 (App.pieceId pl), App.anchorIdx pl,
                    App.rot pl, App.targets pl))
        (App.placementsOfPiece inp pi pc).
Proof.
  intros Hpi d. subst d. apply list_eq. intros off. rewrite !list_lookup_fmap.
  destruct (App.placementsOfPiece inp pi pc !! off) as [pl|] eqn:Hoff.
  - destruct (packed_row inp i assigned pi pc off pl Hpi Hoff) as (k & tStart & -> & Hm & Ht).
    cbn [fmap option_fmap option_map]. by rewrite Hm, Ht.
  - rewrite (placementsOf_compiled inp i assigned pi pc Hpi).
    apply lookup_ge_None in Hoff.
    rewrite (proj2 (lookup_ge_None _ _)); [done|]. by rewrite length_seq.
Qed.

(** The two-cell piece of [twoByTwo] read back from the tables. *)
Lemma packing_round_trip_witness :
  map (fun k => targetsOf (tablesOf twoByTwo) k) (placementsOf (tablesOf twoByTwo) 0)
  = map App.targets (App.placementsOfPiece twoByTwo 0 (App.mkPiece 1 [mkHex 0 0; mkHex 1 0])).
Proof.
  pose proof (packing_round_trip twoByTwo 0 [] 0 (App.mkPiece 1 [mkHex 0 0; mkHex 1 0])
                ltac:(reflexivity)) as H.
  cbv zeta in H.
  apply (f_equal (map snd)) in H. rewrite !map_map in H. exact H.
Defined.

(* ===================================================================== *)
(** * Part 22 — the two sorts                                             *)
(* ===================================================================== *)

Lemma ordered_nil {A : Type} (R : A -> A -> Prop) : ordered R [].
Proof. intros i j a b _ Hi. done. Qed.

Lemma ordered_cons {A : Type} (R : A -> A -> Prop) (x : A) (l : list A) :
  ordered R (x :: l) <-> Forall (R x) l /\ ordered R l.
Proof.
  split.
  - intros Hord. split.
    + apply Forall_lookup. intros j b Hj. apply (Hord 0%nat (S j)); [lia|done|done].
    + intros i j a b Hij Hi Hj. apply (Hord (S i) (S j)); [lia|done|done].
  - intros [Hall Hord] i j a b Hij Hi Hj. destruct j as [|j]; [lia|].
    destruct i as [|i]; simpl in *.
    + injection Hi as <-. rewrite Forall_lookup in Hall. by eapply Hall.
    + apply (Hord i j); [lia|done|done].
Qed.

Section KeySort.

Context {A : Type} (le : A -> A -> bool) (R before : A -> A -> Prop).

Hypothesis le_before : forall x y, before x y -> le x y = true -> R x y.
Hypothesis le_false : forall x y, le x y = false -> R y x.
Hypothesis R_trans : forall x y z, R x y -> R y z -> R x z.

Lemma insertBy_ordered (x : A) (l : list A) :
  Forall (before x) l -> ordered R l -> ordered R (insertBy le x l).
Proof.
  induction l as [|y l IH]; intros Hbefore Hord; simpl.
  - apply ordered_cons. split; [constructor|apply ordered_nil].
  - apply Forall_cons in Hbefore as [Hxy Hbefore].
    pose proof Hord as Hord'. apply ordered_cons in Hord' as [Hy Hl].
    destruct (le x y) eqn:Hle.
    + apply ordered_cons. split; [|done].
      constructor; [by apply le_before|].
      eapply Forall_impl; [exact Hy|]. intros z Hz. apply (R_trans x y z); [|done].
      by apply le_before.
    + apply ordered_cons. split; [|by apply IH].
      rewrite (insertBy_Permutation le x l). constructor; [by apply le_false|done].
Qed.

Lemma stableSort_ordered (l : list A) :
  ordered before l -> ordered R (stableSort le l).
Proof.
  induction l as [|x l IH]; intros Hord; [apply ordered_nil|].
  apply ordered_cons in Hord as [Hx Hl].
  change (stableSort le (x :: l)) with (insertBy le x (stableSort le l)).
  apply insertBy_ordered; [|by apply IH].
  by rewrite (stableSort_Permutation le l).
Qed.

End KeySort.

Lemma ordered_seq (start len : nat) : ordered lt (seq start len).
Proof.
  intros i j a b Hij Hi Hj.
  apply lookup_seq in Hi as [-> _]. apply lookup_seq in Hj as [-> _]. lia.
Qed.

(** X13 — the static order of the pieces: a permutation of the piece
    indices in which an index comes before another only if it has fewer
    placements, or as many and a smaller index. The piece with the fewest
    placements is searched first, equal counts keep the order of the
    collection. *)
Theorem pieceOrder_stable_sort (inp : App.Input) :
  App.pieceOrder inp ≡ₚ seq 0 (length (App.pieces inp)) /\
  forall i j a b,
    (i < j)%nat -> App.pieceOrder inp !! i = Some a -> App.pieceOrder inp !! j = Some b ->
    (App.placementCount inp a < App.placementCount inp b)%nat \/
    (App.placementCount inp a = App.placementCount inp b /\ (a < b)%nat).
Proof.
  split; [apply stableSort_Permutation|].
  apply (stableSort_ordered _ _ lt); [| | |apply ordered_seq].
  - intros x y Hxy Hle. apply Nat.leb_le in Hle. lia.
  - intros x y Hle. apply Nat.leb_gt in Hle. lia.
  - intros x y z Hxy Hyz. lia.
Qed.

Lemma ordered_omap {A B : Type} (f : A -> option B) (R : A -> A -> Prop)
    (S : B -> B -> Prop) (l : list A) :
  (forall x y x' y', R x y -> f x = Some x' -> f y = Some y' -> S x' y') ->
  ordered R l -> ordered S (omap f l).
Proof.
  intros HRS. induction l as [|x l IH]; intros Hord; [apply ordered_nil|].
  apply ordered_cons in Hord as [Hx Hl].
  change (omap f (x :: l)) with (match f x with Some y => y :: omap f l | None => omap f l end).
  destruct (f x) as [x'|] eqn:Hfx; [|by apply IH].
  apply ordered_cons. split; [|by apply IH].
  apply Forall_forall. intros y' Hy'. apply list_elem_of_omap in Hy' as (y & Hy & Hfy).
  rewrite Forall_forall in Hx. by apply (HRS x y x' y'); [apply Hx| |].
Qed.

(** X14 — the order in which [backtrack] tries the placements of the chosen
    piece: the candidates are the free placements of the piece, each with its
    adjacency score, and a candidate is tried before another only if its
    score is higher, or equal with a smaller placement index. *)
Theorem candidates_by_adjacency (d : SolveData) (occ : list Z) (chosenPi : nat) :
  let valid := sortValid (validPlacements d occ chosenPi) in
  (forall v, v ∈ valid <->
     v.1 ∈ placementsOf d chosenPi /\ placementFree d occ v.1 = true /\
     v.2 = adjacency d occ v.1) /\
  NoDup (map fst valid) /\
  forall i j a b,
    (i < j)%nat -> valid !! i = Some a -> valid !! j = Some b ->
    (b.2 < a.2)%nat \/ (a.2 = b.2 /\ (a.1 < b.1)%nat).
Proof.
  cbv zeta. split; [|split].
  - intros v. unfold sortValid. rewrite stableSort_elem_of.
    unfold validPlacements. rewrite list_elem_of_omap. split.
    + intros (p & Hp & Hv). destruct (placementFree d occ p) eqn:Hfree; [|done].
      injection Hv as <-. done.
    + intros (Hp & Hfree & Hadj). exists v.1. split; [done|].
      rewrite Hfree. destruct v as [p a]. simpl in *. by subst.
  - unfold sortValid. rewrite (stableSort_Permutation _ (validPlacements d occ chosenPi)).
    unfold validPlacements, placementsOf.
    generalize (default 0%nat (piecePlacementStart d !! chosenPi)).
    generalize (default 0%nat (piecePlacementCount d !! chosenPi)). intros len start.
    assert (forall l : list nat, NoDup l ->
              NoDup (map fst (omap (fun pIdx => if placementFree d occ pIdx
                                               then Some (pIdx, adjacency d occ pIdx)
                                               else None) l))) as Hgen.
    { induction l as [|p l IH]; intros Hnd; [constructor|].
      apply NoDup_cons in Hnd as [Hp Hnd].
      change (omap ?f (p :: l))
        with (match f p with Some y => y :: omap f l | None => omap f l end).
      cbn beta. destruct (placementFree d occ p); [|by apply IH].
      cbn [map fst]. apply NoDup_cons. split; [|by apply IH].
      intros Hin. apply (list_elem_of_fmap fst) in Hin as ([p' a'] & E & Hin).
      simpl in E. subst p'. apply list_elem_of_omap in Hin as (p'' & Hp'' & Hv).
      destruct (placementFree d occ p''); [|done]. injection Hv as -> _. done. }
    apply Hgen, NoDup_seq.
  - apply (stableSort_ordered _ _ (fun a b => (a.1 < b.1)%nat)).
    + intros x y Hxy Hle. apply Nat.leb_le in Hle. lia.
    + intros x y Hle. apply Nat.leb_gt in Hle. lia.
    + intros x y z Hxy Hyz. lia.
    + unfold validPlacements. apply (ordered_omap _ lt); [|apply ordered_seq].
      intros x y x' y' Hxy Hx Hy.
      destruct (placementFree d occ x); [|done]. destruct (placementFree d occ y); [|done].
      injection Hx as <-. injection Hy as <-. done.
Qed.

(* ===================================================================== *)
(** * Part 23 — work packages, completion and aggregation                 *)
(* ===================================================================== *)

Section Partition.

Variable inp : App.Input.

Lemma numWorkers_pos : (1 <= App.numWorkers inp)%nat.
Proof. unfold App.numWorkers. destruct (App.hardwareConcurrency inp); lia. Qed.

(** [Math.ceil(count / numWorkers)] workers' shares cover the count. *)
Lemma placementsPerWorker_covers (count : nat) :
  (count <= App.numWorkers inp * App.placementsPerWorker inp count)%nat.
Proof.
  unfold App.placementsPerWorker. pose proof numWorkers_pos as Hn.
  pose proof (Nat.div_mod (count + App.numWorkers inp - 1) (App.numWorkers inp)
                ltac:(lia)) as Hdm.
  pose proof (Nat.mod_upper_bound (count + App.numWorkers inp - 1) (App.numWorkers inp)
                ltac:(lia)) as Hm.
  lia.
Qed.

Lemma spawn_assigned (start count n i : nat) :
  (count <= (i + n) * App.placementsPerWorker inp count)%nat ->
  concat (map assignedPlacementIndices (App.spawn inp start count n i))
  = seq (start + i * App.placementsPerWorker inp count)
        (count - i * App.placementsPerWorker inp count).
Proof.
  revert i. induction n as [|n IH]; intros i Hcover; simpl.
  - replace (count - _)%nat with 0%nat by lia. done.
  - set (ppw := App.placementsPerWorker inp count) in *.
    destruct (Nat.ltb_spec (i * ppw) count) as [Hlt|Hge].
    + cbn [map concat assignedPlacementIndices App.startData].
      rewrite (IH (S i)) by lia.
      destruct (Nat.le_gt_cases (i * ppw + ppw) count) as [Hfull|Hpart].
      * rewrite Nat.min_l by lia.
        replace (start + S i * ppw)%nat with (start + i * ppw + (i * ppw + ppw - i * ppw))%nat
          by lia.
        rewrite <- seq_app. f_equal. lia.
      * rewrite Nat.min_r by lia.
        replace (count - S i * ppw)%nat with 0%nat by lia.
        by rewrite app_nil_r.
    + replace (count - _)%nat with 0%nat by lia. done.
Qed.

Lemma spawn_shape (start count n i : nat) :
  (length (App.spawn inp start count n i) <= n)%nat /\
  map workerId (App.spawn inp start count n i)
    = seq i (length (App.spawn inp start count n i)) /\
  forall dd, dd ∈ App.spawn inp start count n i ->
    assignedPlacementIndices dd <> [] /\
    (length (assignedPlacementIndices dd) <= App.placementsPerWorker inp count)%nat.
Proof.
  revert i. induction n as [|n IH]; intros i; simpl.
  - split; [lia|]. split; [done|]. intros dd Hdd. by apply elem_of_nil in Hdd.
  - set (ppw := App.placementsPerWorker inp count) in *.
    destruct (Nat.ltb_spec (i * ppw) count) as [Hlt|Hge].
    + destruct (IH (S i)) as (Hlen & Hids & Hall). cbn [length map workerId App.startData].
      split; [lia|]. split; [by rewrite Hids|].
      intros dd Hdd. apply elem_of_cons in Hdd as [->|Hdd]; [|by apply Hall].
      cbn [assignedPlacementIndices App.startData]. split.
      * intros Hnil. apply (f_equal length) in Hnil. rewrite length_seq in Hnil.
        cbn [length] in Hnil.
        pose proof (placementsPerWorker_covers count) as Hcov. fold ppw in Hcov.
        assert (0 < ppw)%nat by nia. lia.
      * rewrite length_seq. lia.
    + split; [simpl; lia|]. split; [done|]. intros dd Hdd. by apply elem_of_nil in Hdd.
Qed.

End Partition.

(** X15 — the work packages partition the placements of the first piece: the
    assigned lists of the workers, taken in the order of the workers, make up
    the list of all placement indices of the first piece of the static order,
    each index once; there are at most [numWorkers] workers, numbered from 0,
    and every worker receives at least one and at most
    [ceil(count / numWorkers)] placements. *)
Theorem workers_partition (inp : App.Input) (first : nat) :
  App.pieceOrder inp !! 0%nat = Some first ->
  concat (map assignedPlacementIndices (App.workers inp))
    = placementsOf (tablesOf inp) first /\
  (length (App.workers inp) <= App.numWorkers inp)%nat /\
  map workerId (App.workers inp) = seq 0 (length (App.workers inp)) /\
  forall dd, dd ∈ App.workers inp ->
    assignedPlacementIndices dd <> [] /\
    (length (assignedPlacementIndices dd)
     <= App.placementsPerWorker inp (length (placementsOf (tablesOf inp) first)))%nat.
Proof.
  intros Hfirst. unfold App.workers. rewrite Hfirst.
  set (start := default 0%nat (App.piecePlacementStart inp !! first)).
  set (count := default 0%nat (App.piecePlacementCount inp !! first)).
  assert (placementsOf (tablesOf inp) first = seq start count) as Hpl by done.
  rewrite Hpl, length_seq.
  destruct (spawn_shape inp start count (App.numWorkers inp) 0) as (Hlen & Hids & Hall).
  split; [|done].
  rewrite spawn_assigned.
  - f_equal; lia.
  - pose proof (placementsPerWorker_covers inp count). lia.
Qed.

(** The ten placements of the first piece of [twoByTwo] on three workers. *)
Lemma workers_partition_witness :
  concat (map assignedPlacementIndices (App.workers twoByTwo))
    = placementsOf (tablesOf twoByTwo) 0 /\
  (length (App.workers twoByTwo) <= 3)%nat.
Proof.
  destruct (workers_partition twoByTwo 0 ltac:(reflexivity)) as (H1 & H2 & _).
  split; [exact H1|exact H2].
Defined.

Lemma completedWorkers_foldl (inp : App.Input) (arrived : list Complete)
    (g : App.Global) :
  App.completedWorkers (foldl (App.onComplete inp) g arrived)
  = (App.completedWorkers g + length arrived)%nat.
Proof.
  revert g. induction arrived as [|rep arrived IH]; intros g; simpl; [lia|].
  rewrite IH. unfold App.onComplete.
  destruct (App.bestCoverage g <? c_coverage rep);
    [|destruct (c_coverage rep =? App.bestCoverage g)]; simpl; lia.
Qed.

(** X16 — a run reaches its final block exactly when the collection is not
    empty and every piece has at least one placement on the board; the final
    block is then entered by the last report, whatever the order of arrival,
    with the count of completed workers equal to the number of workers. *)
Theorem run_completes_iff (inp : App.Input) (arrived : list Complete) :
  arrived ≡ₚ App.reports inp ->
  (is_Some (App.final inp arrived) <->
   App.pieces inp <> [] /\
   forall pi, (pi < length (App.pieces inp))%nat -> (0 < App.placementCount inp pi)%nat) /\
  (forall g, App.final inp arrived = Some g ->
     g = App.aggregate inp arrived /\
     App.completedWorkers g = length (App.workers inp)).
Proof.
  intros Hperm.
  assert (length arrived = length (App.workers inp)) as Hlen.
  { rewrite Hperm. unfold App.reports. by rewrite length_map. }
  assert (App.completedWorkers (App.aggregate inp arrived) = length (App.workers inp))
    as Hdone.
  { unfold App.aggregate. rewrite completedWorkers_foldl. simpl. lia. }
  assert (is_Some (App.final inp arrived) <-> App.workers inp <> []) as Hfinal.
  { unfold App.final. destruct arrived as [|rep arrived].
    - split; [by intros [? ?]|]. intros Hw. destruct (App.workers inp); simpl in *; done.
    - rewrite Hdone, Nat.leb_refl. split; [|by eexists].
      intros _ Hw. rewrite Hw in Hlen. done. }
  split.
  - rewrite Hfinal. split.
    + intros Hw. split.
      * intros Hnil. apply Hw.
        by apply (unplaceable_piece_spawns_no_worker inp (or_intror Hnil)).
      * intros pi Hpi. destruct (App.placementCount inp pi) as [|n] eqn:Hc; [|lia].
        exfalso. apply Hw.
        apply (unplaceable_piece_spawns_no_worker inp). left. by exists pi.
    + intros [Hne Hall]. unfold App.workers.
      destruct (App.pieceOrder inp !! 0%nat) as [first|] eqn:Hfirst.
      * assert (first < length (App.pieces inp))%nat as Hlt.
        { apply pieceOrder_elem_of. by eapply list_elem_of_lookup_2. }
        specialize (Hall first Hlt).
        assert (default 0%nat (App.piecePlacementCount inp !! first)
                = App.placementCount inp first) as ->.
        { unfold App.placementCount, App.piecePlacementCount. rewrite list_lookup_fmap.
          by destruct (App.piecePlacements inp !! first). }
        pose proof (numWorkers_pos inp) as Hn.
        destruct (App.numWorkers inp) as [|n]; [lia|]. simpl.
        destruct (Nat.ltb_spec 0 (App.placementCount inp first)); [done|lia].
      * apply lookup_ge_None in Hfirst. rewrite pieceOrder_length in Hfirst.
        destruct (App.pieces inp); simpl in *; [done|lia].
  - intros g Hg. unfold App.final in Hg. destruct arrived as [|rep arrived]; [done|].
    destruct (_ <=? _)%nat; [|done]. injection Hg as <-. done.
Qed.

(** [twoByTwo] completes, [withUnplaceable] does not. *)
Lemma run_completes_iff_witness :
  is_Some (App.final twoByTwo (App.reports twoByTwo)) /\
  ~ is_Some (App.final withUnplaceable (App.reports withUnplaceable)).
Proof.
  split.
  - apply (proj1 (run_completes_iff twoByTwo (App.reports twoByTwo) (Permutation_refl _))).
    split; [discriminate|]. intros pi Hpi.
    assert (pi = 0 \/ pi = 1)%nat as [-> | ->] by (simpl in Hpi; lia); vm_compute; lia.
  - intros Hsome.
    apply (proj1 (run_completes_iff withUnplaceable (App.reports withUnplaceable)
                    (Permutation_refl _))) in Hsome as [_ Hall].
    specialize (Hall 1%nat ltac:(simpl; lia)). vm_compute in Hall. lia.
Defined.

Section Arrival.

Variable inp : App.Input.

Local Abbreviation sigs := (map (App.getSolutionCellSignature inp)).

Lemma mergeSolutions_signatures (existing : list Signature)
    (top solutions : list (list Exported)) (sg : Signature) :
  (forall s, s ∈ existing <-> s ∈ sigs top) ->
  sg ∈ sigs (App.mergeSolutions inp existing top solutions)
  <-> sg ∈ sigs top \/ sg ∈ sigs solutions.
Proof.
  revert existing top. induction solutions as [|newSol rest IH]; intros existing top Hex.
  - simpl. split; [by left|]. intros [H|H]; [done|by apply elem_of_nil in H].
  - cbn [App.mergeSolutions]. cbv zeta. case_bool_decide as Hseen.
    + rewrite (IH existing top Hex). cbn [map]. rewrite elem_of_cons.
      split; [tauto|]. intros [H|[->|H]]; [by left| |by right].
      left. by apply Hex.
    + rewrite (IH (existing ++ [App.getSolutionCellSignature inp newSol]) (top ++ [newSol])).
      * rewrite map_app. cbn [map]. rewrite elem_of_app, !elem_of_cons, elem_of_nil.
        tauto.
      * intros s. rewrite map_app. cbn [map]. rewrite !elem_of_app, Hex. tauto.
Qed.

Lemma foldl_onComplete_signatures (arrived : list Complete) (g : App.Global)
    (sg : Signature) :
  let g' := foldl (App.onComplete inp) g arrived in
  sg ∈ sigs (App.topSolutions g') <->
  (App.bestCoverage g = App.bestCoverage g' /\ sg ∈ sigs (App.topSolutions g)) \/
  exists rep, rep ∈ arrived /\ c_coverage rep = App.bestCoverage g' /\
              sg ∈ sigs (c_solutions rep).
Proof.
  revert g. induction arrived as [|rep arrived IH]; intros g; cbv zeta.
  - simpl. split; [by left|]. intros [[_ H]|(rep & Hrep & _)]; [done|].
    by apply elem_of_nil in Hrep.
  - cbn [foldl]. rewrite (IH (App.onComplete inp g rep)).
    set (g1 := App.onComplete inp g rep).
    set (g' := foldl (App.onComplete inp) g1 arrived).
    pose proof (proj1 (foldl_onComplete_ge inp arrived g1)) as Hge. fold g' in Hge.
    assert ((App.bestCoverage g1 = App.bestCoverage g' /\ sg ∈ sigs (App.topSolutions g1))
            <-> (App.bestCoverage g = App.bestCoverage g' /\ sg ∈ sigs (App.topSolutions g))
                \/ (c_coverage rep = App.bestCoverage g' /\ sg ∈ sigs (c_solutions rep)))
      as Hstep.
    { unfold g1 in *. unfold App.onComplete in *.
      destruct (Z.ltb_spec (App.bestCoverage g) (c_coverage rep)) as [Hlt|Hnlt].
      - cbn [App.bestCoverage App.topSolutions] in *. split; [by right|].
        intros [[Heq _]|H]; [lia|done].
      - destruct (Z.eqb_spec (c_coverage rep) (App.bestCoverage g)) as [Heq|Hne].
        + cbn [App.bestCoverage App.topSolutions] in *.
          rewrite mergeSolutions_signatures by done. rewrite Heq. tauto.
        + cbn [App.bestCoverage App.topSolutions] in *. split; [by left|].
          intros [H|[Heq _]]; [done|lia]. }
    rewrite Hstep. split.
    + intros [[H|H]|(rep' & Hin & H)].
      * by left.
      * right. exists rep. split; [by left|done].
      * right. exists rep'. split; [by right|done].
    + intros [H|(rep' & Hin & H)].
      * left. by left.
      * apply elem_of_cons in Hin as [->|Hin].
        -- left. by right.
        -- right. by exists rep'.
Qed.

Lemma foldr_max_base (b c : Z) (xs : list Z) :
  foldr Z.max (Z.max b c) xs = Z.max c (foldr Z.max b xs).
Proof. induction xs as [|x xs IH]; cbn [foldr]; lia. Qed.

Lemma foldl_onComplete_max (arrived : list Complete) (g : App.Global) :
  App.bestCoverage (foldl (App.onComplete inp) g arrived)
  = foldr Z.max (App.bestCoverage g) (map c_coverage arrived).
Proof.
  revert g. induction arrived as [|rep arrived IH]; intros g; [done|].
  cbn [foldl map foldr]. rewrite IH, onComplete_bestCoverage. apply foldr_max_base.
Qed.

Lemma foldr_max_Permutation (b : Z) (l1 l2 : list Z) :
  l1 ≡ₚ l2 -> foldr Z.max b l1 = foldr Z.max b l2.
Proof. induction 1; cbn [foldr]; lia. Qed.

End Arrival.

(** X17 — the outcome of the aggregation does not depend on the order in
    which the reports arrive: the best coverage is the largest reported
    coverage (and at least 0), the final list holds exactly the signatures of
    the solutions of the reports with that coverage, and so two arrival orders
    of the same reports give the same best coverage and the same set of
    signatures. *)
Theorem aggregate_arrival_order (inp : App.Input) (arrived1 arrived2 : list Complete) :
  arrived1 ≡ₚ arrived2 ->
  let g1 := App.aggregate inp arrived1 in
  let g2 := App.aggregate inp arrived2 in
  App.bestCoverage g1 = foldr Z.max 0 (map c_coverage arrived1) /\
  (forall sg, sg ∈ map (App.getSolutionCellSignature inp) (App.topSolutions g1) <->
     exists rep, rep ∈ arrived1 /\ c_coverage rep = App.bestCoverage g1 /\
                 sg ∈ map (App.getSolutionCellSignature inp) (c_solutions rep)) /\
  App.bestCoverage g1 = App.bestCoverage g2 /\
  App.completedWorkers g1 = App.completedWorkers g2 /\
  (forall sg, sg ∈ map (App.getSolutionCellSignature inp) (App.topSolutions g1) <->
              sg ∈ map (App.getSolutionCellSignature inp) (App.topSolutions g2)).
Proof.
  intros Hperm g1 g2. subst g1 g2. unfold App.aggregate.
  assert (forall arrived sg,
            sg ∈ map (App.getSolutionCellSignature inp)
                     (App.topSolutions (foldl (App.onComplete inp) App.initialGlobal arrived))
            <-> exists rep, rep ∈ arrived /\
                  c_coverage rep
                    = App.bestCoverage (foldl (App.onComplete inp) App.initialGlobal arrived) /\
                  sg ∈ map (App.getSolutionCellSignature inp) (c_solutions rep)) as Hchar.
  { intros arrived sg.
    rewrite (foldl_onComplete_signatures inp arrived App.initialGlobal sg).
    split; [|by right]. intros [[_ H]|H]; [|done]. by apply elem_of_nil in H. }
  assert (App.bestCoverage (foldl (App.onComplete inp) App.initialGlobal arrived1)
          = App.bestCoverage (foldl (App.onComplete inp) App.initialGlobal arrived2)) as Hbest.
  { rewrite !foldl_onComplete_max. apply foldr_max_Permutation. by rewrite Hperm. }
  split; [apply foldl_onComplete_max|]. split; [apply Hchar|]. split; [exact Hbest|].
  split.
  - rewrite !completedWorkers_foldl. by rewrite Hperm.
  - intros sg. rewrite !Hchar, Hbest. split; intros (rep & Hin & H); exists rep.
    + split; [|done]. by rewrite <- Hperm.
    + split; [|done]. by rewrite Hperm.
Qed.

(** The three reports of [twoByTwo] in the order of the workers and in the
    opposite order. *)
Lemma aggregate_arrival_order_witness :
  App.bestCoverage (App.aggregate twoByTwo (App.reports twoByTwo))
  = App.bestCoverage (App.aggregate twoByTwo (reverse (App.reports twoByTwo))).
Proof.
  exact (proj1 (proj2 (proj2
           (aggregate_arrival_order twoByTwo (App.reports twoByTwo)
              (reverse (App.reports twoByTwo))
              (Permutation_sym (reverse_Permutation _)))))).
Defined.

(* ===================================================================== *)
(** * Part 24 — the shape of the reported solutions                       *)
(* ===================================================================== *)

Section Shape.

Variable d : SolveData.

Local Abbreviation items := (map (fun pp : nat * nat => itemOf d pp.2)).

Lemma record_topSolutions (cur : list Item) (cov : Z) (best : Best) (e : list Exported) :
  e ∈ topSolutions (record d cur cov best) ->
  e ∈ topSolutions best \/ e = exportSolution d cur.
Proof.
  unfold record. destruct (bestCoverage best <? cov).
  - cbn [topSolutions]. intros He. apply list_elem_of_singleton in He. by right.
  - destruct (_ && _); [|by left]. case_bool_decide; [by left|].
    cbn [topSolutions]. rewrite elem_of_app, list_elem_of_singleton. tauto.
Qed.

Lemma tryPlacements_new (rec : nat -> Board * Best -> bool * (Board * Best))
    (chosenPi : nat) (Q : nat -> list Exported -> Prop) (valid : list (nat * nat)) :
  (forall v st' e, v ∈ valid -> e ∈ topSolutions (rec v.1 st').2.2 ->
                   e ∈ topSolutions st'.2 \/ Q v.1 e) ->
  forall st e,
    e ∈ topSolutions (tryPlacements d false rec chosenPi valid st).2.2 ->
    e ∈ topSolutions st.2 \/ exists v, v ∈ valid /\ Q v.1 e.
Proof.
  induction valid as [|v valid IH]; intros Hrec st e He; [by left|].
  cbn [tryPlacements] in He.
  pose proof (Hrec v (applyPlacementByIndex d v.1 chosenPi st.1, st.2)) as Hv.
  destruct (rec v.1 (applyPlacementByIndex d v.1 chosenPi st.1, st.2))
    as [stopped st2] eqn:Hcall.
  cbn [fst snd] in Hv.
  assert (forall e, e ∈ topSolutions st2.2 ->
            e ∈ topSolutions st.2 \/ exists v0, v0 ∈ v :: valid /\ Q v0.1 e) as Hhere.
  { intros e' He'. destruct (Hv e' ltac:(left) He') as [H|H]; [by left|].
    right. exists v. split; [left|done]. }
  destruct stopped.
  - cbn [fst snd] in He. by apply Hhere.
  - apply IH in He.
    + destruct He as [He|(v0 & Hv0 & HQ)]; [by apply Hhere|].
      right. exists v0. split; [by right|done].
    + intros v0 st' e0 Hv0. apply Hrec. by right.
Qed.

Lemma extension_nil (remainingPieces : list nat) : extension d remainingPieces [].
Proof.
  split; [apply submseteq_nil_l|]. intros pi p Hin. by apply elem_of_nil in Hin.
Qed.

Lemma extension_cons (remainingPieces : list nat) (ri chosenPi p : nat)
    (ext : list (nat * nat)) :
  remainingPieces !! ri = Some chosenPi ->
  p ∈ placementsOf d chosenPi ->
  extension d (removeAt remainingPieces ri) ext ->
  extension d remainingPieces ((chosenPi, p) :: ext).
Proof.
  intros Hri Hp [Hsub Hall]. split.
  - cbn [map fst]. rewrite <- (take_drop_middle remainingPieces ri chosenPi Hri).
    rewrite <- Permutation_middle. by apply submseteq_skip.
  - intros pi p' Hin. apply elem_of_cons in Hin as [[= -> ->]|Hin]; [done|by apply Hall].
Qed.

(** Every solution that a call of [backtrack] adds to the list extends the
    current solution by placements of remaining pieces. *)
Lemma backtrackN_extends (fuel : nat) :
  forall remainingPieces remainingSum currentSolution coverage st e,
    e ∈ topSolutions (backtrackN d false fuel remainingPieces remainingSum
                                 currentSolution coverage st).2.2 ->
    e ∈ topSolutions st.2 \/
    exists ext, extension d remainingPieces ext /\
                e = exportSolution d (currentSolution ++ items ext).
Proof.
  induction fuel as [|fuel IH]; intros rem rsum cur cov st e He; [by left|].
  cbn [backtrackN] in He. cbv zeta in He.
  assert (forall e, e ∈ topSolutions (record d cur cov (countNode st.2)) ->
            e ∈ topSolutions st.2 \/
            exists ext, extension d rem ext /\ e = exportSolution d (cur ++ items ext))
    as Hrecord.
  { intros e' He'. apply record_topSolutions in He' as [H| ->]; [by left|].
    right. exists []. split; [apply extension_nil|]. by rewrite app_nil_r. }
  destruct (boardSize d <=? cov); [by apply Hrecord|].
  destruct (cov + rsum <=? _); [by apply Hrecord|].
  case_bool_decide; [by apply Hrecord|].
  destruct (selectPiece d (occupancy st.1) rem) as [ri|] eqn:Hsel; [|by apply Hrecord].
  destruct (selectPiece_lookup d _ _ _ Hsel) as [chosenPi Hri].
  rewrite Hri in He. cbn [default] in He.
  case_bool_decide; [by apply Hrecord|].
  apply (tryPlacements_new _ _
           (fun p e => exists ext, extension d (removeAt rem ri) ext /\
                         e = exportSolution d ((cur ++ [itemOf d p]) ++ items ext)))
    in He.
  - destruct He as [He|(v & Hv & ext & Hext & ->)]; [by apply Hrecord|].
    right. exists ((chosenPi, v.1) :: ext). split.
    + apply (extension_cons rem ri); [done| |done].
      by apply (validPlacements_elem_of d (occupancy st.1) chosenPi v).
    + by rewrite <- app_assoc.
  - intros v st' e' Hv He'. by apply IH in He'.
Qed.

Lemma solveLoop_extends (assigned : list nat) :
  forall st e,
    e ∈ topSolutions (solveLoop d false assigned st).2 ->
    e ∈ topSolutions st.2 \/
    exists p ext, p ∈ assigned /\ extension d (remainingAfterFirst d) ext /\
                  e = exportSolution d (firstItem d p :: items ext).
Proof.
  induction assigned as [|p rest IH]; intros st e He; [by left|].
  cbn [solveLoop] in He. apply IH in He as [He|(p' & ext & Hp' & Hext & ->)].
  - unfold solveStep, backtrack in He.
    destruct (backtrackN _ _ _ _ _ _ _ _) as [stopped st2] eqn:Hcall.
    cbn [fst snd] in He.
    assert (e ∈ topSolutions (backtrackN d false (S (length (remainingAfterFirst d)))
                                (remainingAfterFirst d) (remainingAfterFirstSum d)
                                [firstItem d p] (Z.of_nat (m_tLen (meta d p)))
                                (applyPlacementByIndex d p (firstPieceIdx d) st.1, st.2)).2.2)
      as He' by by rewrite Hcall.
    apply backtrackN_extends in He' as [He'|(ext & Hext & ->)]; [by left|].
    right. exists p, ext. split; [left|done].
  - right. exists p', ext. split; [by right|done].
Qed.

End Shape.

(** X18 — what a worker reports: every solution of its [COMPLETE] message is
    one of the first-piece placements assigned to this worker, followed by
    placements of pieces taken from the rest of the static order, each piece
    at most as often as it is listed there (once), and each placement one of
    that piece's own. No worker reports a solution that starts with a
    placement assigned to another worker. *)
Theorem reported_solutions_shape (d : SolveData) (e : list Exported) :
  e ∈ c_solutions (solve d false) ->
  exists p ext,
    p ∈ assignedPlacementIndices d /\
    map fst ext ⊆+ remainingAfterFirst d /\
    (forall pi p', (pi, p') ∈ ext -> p' ∈ placementsOf d pi) /\
    e = exportSolution d (firstItem d p :: map (fun pp : nat * nat => itemOf d pp.2) ext).
Proof.
  intros He. cbn [solve c_solutions] in He. unfold solveState in He.
  apply solveLoop_extends in He as [He|(p & ext & Hp & [Hsub Hall] & ->)].
  - by apply elem_of_nil in He.
  - by exists p, ext.
Qed.

(** The only solution of the first worker of [twoByTwo]. *)
Lemma reported_solutions_shape_witness :
  exists p ext,
    p ∈ [0; 1; 2; 3]%nat /\
    [mkExported 1 (Some (mkHex 0 0)) 0; mkExported 2 (Some (mkHex 0 1)) 1]
      = exportSolution (App.startData twoByTwo 0 [0; 1; 2; 3]%nat)
          (firstItem (App.startData twoByTwo 0 [0; 1; 2; 3]%nat) p
           :: map (fun pp : nat * nat => itemOf (App.startData twoByTwo 0 [0; 1; 2; 3]%nat) pp.2)
                  ext).
Proof.
  destruct (reported_solutions_shape (App.startData twoByTwo 0 [0; 1; 2; 3]%nat)
              [mkExported 1 (Some (mkHex 0 0)) 0; mkExported 2 (Some (mkHex 0 1)) 1]
              ltac:(vm_compute; left))
    as (p & ext & Hp & _ & _ & He).
  exists p, ext. split; [exact Hp|exact He].
Defined.

Lemma foldl_onComplete_elem (inp : App.Input) (arrived : list Complete) (g : App.Global)
    (e : list Exported) :
  e ∈ App.topSolutions (foldl (App.onComplete inp) g arrived) ->
  e ∈ App.topSolutions g \/ exists rep, rep ∈ arrived /\ e ∈ c_solutions rep.
Proof.
  revert g. induction arrived as [|rep arrived IH]; intros g He; [by left|].
  cbn [foldl] in He. apply IH in He as [He|(rep' & Hin & He)].
  - unfold App.onComplete in He.
    destruct (App.bestCoverage g <? c_coverage rep).
    + right. exists rep. split; [left|done].
    + destruct (c_coverage rep =? App.bestCoverage g); [|by left].
      cbn [App.topSolutions] in He. apply mergeSolutions_elem in He as [He|He]; [by left|].
      right. exists rep. split; [left|done].
  - right. exists rep'. split; [by right|done].
Qed.

Lemma submseteq_NoDup_l {A : Type} (l k : list A) : l ⊆+ k -> NoDup k -> NoDup l.
Proof.
  intros Hsub Hnd. apply submseteq_sublist_l in Hsub as (k' & Hsub & Hperm).
  apply (sublist_NoDup l k'); [|done]. by rewrite Hperm.
Qed.

Section Pieces.

Variable inp : App.Input.
Hypothesis Hinp : wfInput inp.

Local Abbreviation idOf := (pieceIdOf inp).

Lemma idOf_inj (a b : nat) :
  (a < length (App.pieces inp))%nat -> (b < length (App.pieces inp))%nat ->
  idOf a = idOf b -> a = b.
Proof.
  intros Ha Hb Heq.
  destruct (lookup_lt_is_Some_2 _ _ Ha) as [pa Hpa].
  destruct (lookup_lt_is_Some_2 _ _ Hb) as [pb Hpb].
  unfold pieceIdOf in Heq. rewrite Hpa, Hpb in Heq. simpl in Heq.
  apply (NoDup_lookup (map App.id (App.pieces inp)) a b (App.id pa)).
  - apply (wi_unique inp Hinp).
  - change (map App.id ?l) with (App.id <$> l). by rewrite list_lookup_fmap, Hpa.
  - change (map App.id ?l) with (App.id <$> l). by rewrite list_lookup_fmap, Hpb, Heq.
Qed.

Lemma placement_pieceId (dd : SolveData) (pi p : nat) :
  dd ∈ App.workers inp -> (pi < length (App.pieces inp))%nat ->
  p ∈ placementsOf dd pi ->
  m_pieceId (meta dd p) = idOf pi.
Proof.
  intros Hdd Hpi Hp.
  destruct (workers_parts inp dd Hdd) as (first & i & pre & post & _ & Heq & _).
  destruct (lookup_lt_is_Some_2 _ _ Hpi) as [pc Hpc].
  rewrite Heq in Hp |- *.
  destruct (compiled_placement inp i (assignedPlacementIndices dd) pi pc p Hpc Hp)
    as (rot & anchor & targets & tStart & _ & _ & _ & -> & _).
  unfold pieceIdOf. rewrite Hpc. simpl. apply toInt32_small, (wi_ids inp Hinp).
  by eapply list_elem_of_lookup_2.
Qed.

Lemma reported_pieces (dd : SolveData) (sol : list Exported) :
  dd ∈ App.workers inp -> sol ∈ c_solutions (Worker.onStart dd) ->
  exists (first : nat) (ext : list (nat * nat)),
    App.pieceOrder inp !! 0%nat = Some first /\
    first :: map fst ext ⊆+ App.pieceOrder inp /\
    map piece sol = map idOf (first :: map fst ext).
Proof.
  intros Hdd Hsol. pose proof (workers_wf inp Hinp dd Hdd) as Hwf.
  unfold Worker.onStart in Hsol. cbn [solve c_solutions] in Hsol. unfold solveState in Hsol.
  apply solveLoop_extends in Hsol as [Hsol|(p & ext & Hp & [Hsub Hall] & ->)];
    [by apply elem_of_nil in Hsol|].
  destruct (wf_assigned dd Hwf p Hp) as (Hfirst & Hplace & Hitem).
  destruct (workers_parts inp dd Hdd) as (first & i & pre & post & Hf & Heq & _).
  assert (pieceOrder dd = App.pieceOrder inp) as Horder by (by rewrite Heq).
  assert (firstPieceIdx dd = first) as Hfi.
  { unfold firstPieceIdx. by rewrite Horder, Hf. }
  rewrite Hfi in *.
  assert (App.pieceOrder inp = first :: remainingAfterFirst dd) as Hsplit.
  { unfold remainingAfterFirst. rewrite Horder.
    destruct (App.pieceOrder inp) as [|x rest]; [done|]. by injection Hf as ->. }
  exists first, ext. split; [done|]. split.
  { rewrite Hsplit. by apply submseteq_skip. }
  cbn [exportSolution map piece]. rewrite Hitem. cbn [pieceId itemOf].
  f_equal.
  - apply placement_pieceId; [done| |done].
    apply pieceOrder_elem_of. by eapply list_elem_of_lookup_2.
  - rewrite !map_map. apply map_ext_in. intros [pi p'] Hin. cbn [fst snd pieceId itemOf piece].
    apply list_elem_of_In in Hin.
    apply placement_pieceId; [done| |by apply Hall].
    apply pieceOrder_elem_of. rewrite Hsplit. right.
    apply (elem_of_submseteq (map fst ext)); [|done].
    apply (list_elem_of_fmap fst). by exists (pi, p').
Qed.

End Pieces.

(** X19 — in the final list every solution uses each piece at most once: the
    piece ids of its placements are pairwise different ids of the collection,
    so a solution has at most as many placements as there are pieces; and its
    first placement is always one of the piece that stands first in the static
    order. *)
Theorem final_solutions_pieces (inp : App.Input) (arrived : list Complete)
    (g : App.Global) :
  wfInput inp ->
  arrived ≡ₚ App.reports inp ->
  App.final inp arrived = Some g ->
  forall sol, sol ∈ App.topSolutions g ->
    NoDup (map piece sol) /\
    (length sol <= length (App.pieces inp))%nat /\
    (forall e, e ∈ sol -> exists pc, pc ∈ App.pieces inp /\ App.id pc = piece e) /\
    exists first pc e0 rest,
      App.pieceOrder inp !! 0%nat = Some first /\
      App.pieces inp !! first = Some pc /\
      sol = e0 :: rest /\ piece e0 = App.id pc.
Proof.
  intros Hinp Hperm Hfinal sol Hsol.
  apply final_Some in Hfinal as [-> _]. unfold App.aggregate in Hsol.
  apply foldl_onComplete_elem in Hsol as [Hsol|(rep & Hrep & Hsol)];
    [by apply elem_of_nil in Hsol|].
  rewrite Hperm in Hrep. unfold App.reports in Hrep.
  apply (list_elem_of_fmap Worker.onStart) in Hrep as (dd & -> & Hdd).
  destruct (reported_pieces inp Hinp dd sol Hdd Hsol) as (first & ext & Hf & Hsub & Hids).
  assert (NoDup (first :: map fst ext)) as Hnd.
  { apply (submseteq_NoDup_l _ (App.pieceOrder inp)); [done|].
    unfold App.pieceOrder. rewrite stableSort_Permutation. apply NoDup_seq. }
  assert (forall pi, pi ∈ first :: map fst ext -> (pi < length (App.pieces inp))%nat) as Hlt.
  { intros pi Hpi. apply pieceOrder_elem_of. by apply (elem_of_submseteq _ _ _ Hpi). }
  split; [|split; [|split]].
  - rewrite Hids. apply (NoDup_fmap_2_strong _); [|done].
    intros a b Ha Hb. apply (idOf_inj inp Hinp); by apply Hlt.
  - apply (f_equal length) in Hids. rewrite !length_map in Hids.
    rewrite Hids, <- (pieceOrder_length inp). by apply submseteq_length.
  - intros e He. apply (list_elem_of_fmap_2 piece) in He.
    change (piece <$> sol) with (map piece sol) in He. rewrite Hids in He.
    apply (list_elem_of_fmap (pieceIdOf inp)) in He as (pi & -> & Hpi).
    destruct (lookup_lt_is_Some_2 _ _ (Hlt pi Hpi)) as [pc Hpc].
    exists pc. split; [by eapply list_elem_of_lookup_2|]. unfold pieceIdOf. by rewrite Hpc.
  - destruct (lookup_lt_is_Some_2 _ _ (Hlt first ltac:(left))) as [pc Hpc].
    destruct sol as [|e0 rest]; [done|].
    exists first, pc, e0, rest. split; [done|]. split; [done|]. split; [done|].
    cbn [map] in Hids. injection Hids as -> _. unfold pieceIdOf. by rewrite Hpc.
Qed.

(** The final list of [twoByTwo]: two placements of different pieces. *)
Lemma final_solutions_pieces_witness :
  wfInput twoByTwo /\
  forall sol, sol ∈ App.topSolutions (App.aggregate twoByTwo (App.reports twoByTwo)) ->
              NoDup (map piece sol).
Proof.
  split; [exact wfInput_twoByTwo|]. intros sol Hsol.
  exact (proj1 (final_solutions_pieces twoByTwo (App.reports twoByTwo)
                  (App.aggregate twoByTwo (App.reports twoByTwo))
                  wfInput_twoByTwo (Permutation_refl _) ltac:(by vm_compute) sol Hsol)).
Defined.

(* ===================================================================== *)
(** * Part 25 — bounds on the reported coverage                           *)
(* ===================================================================== *)

Section RecordInvariant.

Variable d : SolveData.

(** A property of the recorded best that every recording step keeps. *)
Variable P : Best -> Prop.
Hypothesis P_record : forall cur cov best, P best -> P (record d cur cov (countNode best)).

Lemma tryPlacements_inv (rec : nat -> Board * Best -> bool * (Board * Best))
    (chosenPi : nat) (valid : list (nat * nat)) :
  (forall v st', v ∈ valid -> P st'.2 -> P (rec v.1 st').2.2) ->
  forall st, P st.2 -> P (tryPlacements d false rec chosenPi valid st).2.2.
Proof.
  induction valid as [|v valid IH]; intros Hrec st Hst; [done|].
  cbn [tryPlacements].
  pose proof (Hrec v (applyPlacementByIndex d v.1 chosenPi st.1, st.2) ltac:(left) Hst) as Hv.
  destruct (rec v.1 _) as [stopped st2]. cbn [fst snd] in Hv.
  destruct stopped; [done|]. apply IH; [|done].
  intros v0 st' Hv0. apply Hrec. by right.
Qed.

Lemma backtrackN_step_inv (fuel : nat) :
  (forall remainingPieces remainingSum currentSolution coverage st,
     P st.2 ->
     P (backtrackN d false fuel remainingPieces remainingSum currentSolution
                   coverage st).2.2) ->
  forall remainingPieces remainingSum currentSolution coverage st,
    P (record d currentSolution coverage (countNode st.2)) ->
    P (backtrackN d false (S fuel) remainingPieces remainingSum currentSolution
                  coverage st).2.2.
Proof.
  intros IH rem rsum cur cov st Hrec. cbn [backtrackN]. cbv zeta.
  destruct (boardSize d <=? cov); [done|].
  destruct (cov + rsum <=? _); [done|].
  case_bool_decide; [done|].
  destruct (selectPiece d (occupancy st.1) rem) as [ri|]; [|done].
  case_bool_decide; [done|].
  apply tryPlacements_inv; [|done]. intros v st' _. apply IH.
Qed.

Lemma backtrackN_inv (fuel : nat) :
  forall remainingPieces remainingSum currentSolution coverage st,
    P st.2 ->
    P (backtrackN d false fuel remainingPieces remainingSum currentSolution
                  coverage st).2.2.
Proof.
  induction fuel as [|fuel IH]; intros rem rsum cur cov st Hst; [done|].
  apply backtrackN_step_inv; [done|]. by apply P_record.
Qed.

Lemma solveStep_recorded (p : nat) (st : Board * Best) :
  P (record d [firstItem d p] (Z.of_nat (m_tLen (meta d p))) (countNode st.2)) ->
  P (solveStep d false p st).2.
Proof.
  intros Hrec. unfold solveStep, backtrack.
  pose proof (backtrackN_step_inv (length (remainingAfterFirst d)) (backtrackN_inv _)
                (remainingAfterFirst d) (remainingAfterFirstSum d) [firstItem d p]
                (Z.of_nat (m_tLen (meta d p)))
                (applyPlacementByIndex d p (firstPieceIdx d) st.1, st.2) Hrec) as H.
  by destruct (backtrackN _ _ _ _ _ _ _ _) as [stopped st2].
Qed.

Lemma solveLoop_inv (assigned : list nat) (st : Board * Best) :
  P st.2 -> P (solveLoop d false assigned st).2.
Proof.
  revert st. induction assigned as [|p rest IH]; intros st Hst; [done|].
  cbn [solveLoop]. apply IH, solveStep_recorded. by apply P_record.
Qed.

Lemma solveLoop_recorded (p : nat) (rest : list nat) (st : Board * Best) :
  P (record d [firstItem d p] (Z.of_nat (m_tLen (meta d p))) (countNode st.2)) ->
  P (solveLoop d false (p :: rest) st).2.
Proof. intros Hrec. cbn [solveLoop]. by apply solveLoop_inv, solveStep_recorded. Qed.

End RecordInvariant.

Section WorkerBounds.

Variable d : SolveData.
Hypothesis Hwf : wfData d.

Lemma pieceOrder_first_rest (p : nat) :
  p ∈ assignedPlacementIndices d ->
  pieceOrder d = firstPieceIdx d :: remainingAfterFirst d.
Proof.
  intros Hp. destruct (wf_assigned d Hwf p Hp) as (Hfirst & _).
  unfold firstPieceIdx, remainingAfterFirst in *.
  destruct (pieceOrder d) as [|x rest]; [by apply elem_of_nil in Hfirst|done].
Qed.

Lemma solveStep_sum (p : nat) (best : Best) :
  p ∈ assignedPlacementIndices d -> bestOK d best ->
  bestCoverage (solveStep d false p (initialBoard d, best)).2
  <= Z.max (bestCoverage best) (sumRemainingSizes d (pieceOrder d)).
Proof.
  intros Hin Hbest. destruct (first_nodeOK d Hwf p Hin) as [Hnode Hundo].
  destruct (wf_assigned d Hwf p Hin) as (Hfirst & Hplace & _).
  destruct (wf_targets d Hwf _ _ Hfirst Hplace) as (_ & _ & _ & Hsize).
  unfold solveStep. cbn [fst snd].
  assert (length (remainingAfterFirst d) < S (length (remainingAfterFirst d)))%nat
    as Hfuel by lia.
  pose proof (backtrackN_ok d Hwf _ _ _ _ _ _ best Hfuel Hnode Hbest) as Hres.
  unfold backtrack. destruct (backtrackN _ _ _ _ _ _ _ _) as [stopped [b2 best2]].
  destruct Hres as [_ _ _ Hbound _ _]; cbn [fst snd] in *.
  rewrite (pieceOrder_first_rest p Hin), sumRemainingSizes_cons.
  unfold remainingAfterFirstSum in Hbound. lia.
Qed.

Lemma solveLoop_sum (assigned : list nat) (best : Best) :
  (forall p, p ∈ assigned -> p ∈ assignedPlacementIndices d) ->
  bestOK d best ->
  bestCoverage (solveLoop d false assigned (initialBoard d, best)).2
  <= Z.max (bestCoverage best) (sumRemainingSizes d (pieceOrder d)).
Proof.
  revert best. induction assigned as [|p rest IH]; intros best Hsub Hbest; [simpl; lia|].
  cbn [solveLoop].
  pose proof (solveStep_sum p best ltac:(apply Hsub; left) Hbest) as Hs.
  destruct (solveStep_ok d Hwf p best ltac:(apply Hsub; left) Hbest) as (Hb & Hb1 & _).
  destruct (solveStep d false p _) as [b1 best1]; cbn [fst snd] in *. subst b1.
  specialize (IH best1 ltac:(intros; apply Hsub; by right) Hb1). lia.
Qed.

End WorkerBounds.

(** A positive best coverage comes with a recorded solution, and only then
    is a solution recorded. *)
Lemma record_nonempty (d : SolveData) (cur : list Item) (cov : Z) (best : Best) :
  (0 <= bestCoverage best /\ (0 < bestCoverage best <-> topSolutions best <> [])) ->
  let best' := record d cur cov (countNode best) in
  0 <= bestCoverage best' /\ (0 < bestCoverage best' <-> topSolutions best' <> []).
Proof.
  intros [Hnn Hiff]. cbv zeta. unfold record, countNode. cbn [bestCoverage topSolutions].
  destruct (Z.ltb_spec (bestCoverage best) cov) as [Hlt|Hge].
  - cbn [bestCoverage topSolutions]. split; [lia|]. split; [done|lia].
  - destruct (Z.eqb_spec cov (bestCoverage best)) as [Heq|Hne]; cbn [andb].
    + destruct (Z.ltb_spec 0 cov) as [Hpos|Hnpos]; [|done].
      case_bool_decide; [done|]. cbn [bestCoverage topSolutions].
      split; [lia|]. split; [|lia]. intros _ Hnil. by apply app_eq_nil in Hnil as [_ ?].
    + done.
Qed.

Lemma record_reaches (d : SolveData) (c : Z) (cur : list Item) (cov : Z) (best : Best) :
  c <= bestCoverage best -> c <= bestCoverage (record d cur cov (countNode best)).
Proof.
  intros Hc. unfold record, countNode. cbn [bestCoverage].
  destruct (Z.ltb_spec (bestCoverage best) cov); [cbn [bestCoverage]; lia|].
  destruct (_ && _); [case_bool_decide|]; cbn [bestCoverage]; lia.
Qed.

Lemma foldr_sizes_Permutation (f : nat -> Z) (l1 l2 : list nat) :
  l1 ≡ₚ l2 ->
  foldr (fun pi acc => f pi + acc) 0 l1 = foldr (fun pi acc => f pi + acc) 0 l2.
Proof. induction 1; cbn [foldr]; lia. Qed.

Lemma foldr_sizes_seq {A : Type} (f : nat -> Z) (h : A -> Z) (l : list A) (start : nat) :
  (forall i x, l !! i = Some x -> f (start + i)%nat = h x) ->
  foldr (fun pi acc => f pi + acc) 0 (seq start (length l))
  = foldr (fun x acc => h x + acc) 0 l.
Proof.
  revert start. induction l as [|x l IH]; intros start Hf; [done|].
  cbn [length seq foldr]. rewrite (IH (S start)).
  - f_equal. rewrite <- (Hf 0%nat x eq_refl). f_equal. lia.
  - intros i y Hi. rewrite <- (Hf (S i) y Hi). f_equal. lia.
Qed.

Section FinalBounds.

Variable inp : App.Input.
Hypothesis Hinp : wfInput inp.

(** The number of cells of all pieces together. *)
Local Abbreviation totalSize :=
  (foldr (fun pc acc => Z.of_nat (length (App.cells pc)) + acc) 0 (App.pieces inp)).

Lemma worker_total (dd : SolveData) :
  dd ∈ App.workers inp -> sumRemainingSizes dd (pieceOrder dd) = totalSize.
Proof.
  intros Hdd. pose proof (workers_wf inp Hinp dd Hdd) as Hwf.
  destruct (workers_parts inp dd Hdd) as (first & i & pre & post & _ & Heq & _).
  rewrite (sumRemainingSizes_foldr dd).
  assert (pieceOrder dd = App.pieceOrder inp) as -> by (by rewrite Heq).
  rewrite (foldr_sizes_Permutation (pieceSize dd) _ (seq 0 (length (App.pieces inp))))
    by apply stableSort_Permutation.
  apply foldr_sizes_seq. intros j pc Hj. change (0 + j)%nat with j.
  rewrite Heq. unfold pieceSize. cbn [Worker.pieces App.startData].
  by rewrite (pieceInfos_lookup inp j pc Hj).
Qed.

Lemma report_bounds (dd : SolveData) :
  dd ∈ App.workers inp ->
  let rep := Worker.onStart dd in
  c_coverage rep <= App.boardSize inp /\
  c_coverage rep <= Z.max 0 totalSize /\
  (0 < c_coverage rep <-> c_solutions rep <> []) /\
  exists first pc,
    App.pieceOrder inp !! 0%nat = Some first /\ App.pieces inp !! first = Some pc /\
    Z.of_nat (length (App.cells pc)) <= c_coverage rep.
Proof.
  intros Hdd rep. subst rep. pose proof (workers_wf inp Hinp dd Hdd) as Hwf.
  destruct (workers_parts inp dd Hdd) as (first & i & pre & post & Hf & Heq & _).
  assert (initialBestCoverage dd = 0) as Hinit by (by rewrite Heq).
  assert (boardSize dd = App.boardSize inp) as Hsize by (by rewrite Heq).
  unfold Worker.onStart. cbn [solve c_coverage c_solutions]. unfold solveState.
  split; [|split; [|split]].
  - destruct (solveLoop_ok dd Hwf (assignedPlacementIndices dd) (initialBest dd)
                ltac:(done) (bestOK_initial dd)) as (_ & _ & _ & Hbd).
    cbn [initialBest bestCoverage] in Hbd. rewrite Hinit, Hsize in Hbd.
    pose proof (wf_boardSize dd Hwf). lia.
  - pose proof (solveLoop_sum dd Hwf (assignedPlacementIndices dd) (initialBest dd)
                  ltac:(done) (bestOK_initial dd)) as Hs.
    cbn [initialBest bestCoverage] in Hs. by rewrite Hinit, (worker_total dd Hdd) in Hs.
  - apply (solveLoop_inv dd
             (fun best => 0 <= bestCoverage best /\
                          (0 < bestCoverage best <-> topSolutions best <> []))).
    + intros cur cov best. apply record_nonempty.
    + cbn [initialBest snd bestCoverage topSolutions]. rewrite Hinit.
      split; [lia|]. split; [lia|done].
  - assert (first < length (App.pieces inp))%nat as Hlt.
    { apply pieceOrder_elem_of. by eapply list_elem_of_lookup_2. }
    destruct (lookup_lt_is_Some_2 _ _ Hlt) as [pc Hpc].
    exists first, pc. split; [done|]. split; [done|].
    unfold App.workers in Hdd. rewrite Hf in Hdd.
    destruct (spawn_shape inp (default 0%nat (App.piecePlacementStart inp !! first))
                (default 0%nat (App.piecePlacementCount inp !! first))
                (App.numWorkers inp) 0) as (_ & _ & Hne).
    destruct (Hne dd Hdd) as [Hassigned _].
    destruct (assignedPlacementIndices dd) as [|p rest] eqn:Hlist; [done|].
    assert (p ∈ assignedPlacementIndices dd) as Hp by (rewrite Hlist; left).
    destruct (wf_assigned dd Hwf p Hp) as (Hfirst & Hplace & _).
    destruct (wf_targets dd Hwf _ _ Hfirst Hplace) as (_ & _ & _ & Hlen).
    assert (firstPieceIdx dd = first) as Hfi.
    { unfold firstPieceIdx. rewrite Heq. cbn [pieceOrder App.startData]. by rewrite Hf. }
    assert (pieceSize dd first = Z.of_nat (length (App.cells pc))) as Hps.
    { rewrite Heq. unfold pieceSize. cbn [Worker.pieces App.startData].
      by rewrite (pieceInfos_lookup inp first pc Hpc). }
    rewrite Hfi, Hps in Hlen.
    apply (solveLoop_recorded dd
             (fun best => Z.of_nat (length (App.cells pc)) <= bestCoverage best)).
    + intros cur cov best. apply record_reaches.
    + rewrite Hlen. rewrite record_bestCoverage. lia.
Qed.

End FinalBounds.

Lemma foldr_max_attained (l : list Z) :
  0 < foldr Z.max 0 l -> foldr Z.max 0 l ∈ l.
Proof.
  induction l as [|x l IH]; cbn [foldr]; [lia|]. intros Hpos.
  destruct (Z.max_spec x (foldr Z.max 0 l)) as [[Hlt ->]|[Hge ->]].
  - right. apply IH. lia.
  - left.
Qed.

Lemma foldr_length_nonneg (pcs : list App.Piece) :
  0 <= foldr (fun pc acc => Z.of_nat (length (App.cells pc)) + acc) 0 pcs.
Proof. induction pcs as [|pc pcs IH]; cbn [foldr]; lia. Qed.

(** X20 — bounds on the result of a completed run: the best coverage is at
    most the number of board cells and at most the number of cells of all
    pieces together, and at least the size of the piece that stands first in
    the static order; the final list holds a solution exactly when the best
    coverage is positive. *)
Theorem final_coverage_bounds (inp : App.Input) (arrived : list Complete)
    (g : App.Global) :
  wfInput inp ->
  arrived ≡ₚ App.reports inp ->
  App.final inp arrived = Some g ->
  App.bestCoverage g <= App.boardSize inp /\
  App.bestCoverage g
    <= foldr (fun pc acc => Z.of_nat (length (App.cells pc)) + acc) 0 (App.pieces inp) /\
  (0 < App.bestCoverage g <-> App.topSolutions g <> []) /\
  exists first pc,
    App.pieceOrder inp !! 0%nat = Some first /\ App.pieces inp !! first = Some pc /\
    Z.of_nat (length (App.cells pc)) <= App.bestCoverage g.
Proof.
  intros Hinp Hperm Hfinal. apply final_Some in Hfinal as [-> Hne].
  assert (forall rep, rep ∈ arrived -> exists dd, dd ∈ App.workers inp /\ rep = Worker.onStart dd)
    as Hrep.
  { intros rep Hin. rewrite Hperm in Hin. unfold App.reports in Hin.
    apply (list_elem_of_fmap Worker.onStart) in Hin as (dd & -> & Hdd). by exists dd. }
  pose proof (foldr_length_nonneg (App.pieces inp)) as Htotal.
  unfold App.aggregate.
  pose proof (foldl_onComplete_ge inp arrived App.initialGlobal) as [_ Hge].
  split; [|split; [|split]].
  - apply foldl_onComplete_le.
    + cbn [App.initialGlobal App.bestCoverage]. unfold App.boardSize, App.w, App.h. nia.
    + intros rep Hin. destruct (Hrep rep Hin) as (dd & Hdd & ->).
      by destruct (report_bounds inp Hinp dd Hdd) as (H & _).
  - apply foldl_onComplete_le; [done|].
    intros rep Hin. destruct (Hrep rep Hin) as (dd & Hdd & ->).
    destruct (report_bounds inp Hinp dd Hdd) as (_ & H & _). lia.
  - split.
    + intros Hpos. rewrite foldl_onComplete_max in Hpos.
      cbn [App.initialGlobal App.bestCoverage] in Hpos.
      pose proof Hpos as Hpos'. apply foldr_max_attained in Hpos.
      apply (list_elem_of_fmap c_coverage) in Hpos as (rep & Hcov & Hin).
      destruct (Hrep rep Hin) as (dd & Hdd & ->).
      destruct (report_bounds inp Hinp dd Hdd) as (_ & _ & Hiff & _).
      assert (0 < c_coverage (Worker.onStart dd)) as Hc.
      { by rewrite <- Hcov. }
      apply Hiff in Hc.
      destruct (c_solutions (Worker.onStart dd)) as [|sol sols] eqn:Hsols; [done|].
      intros Hnil.
      assert (App.getSolutionCellSignature inp sol
              ∈ map (App.getSolutionCellSignature inp)
                    (App.topSolutions (foldl (App.onComplete inp) App.initialGlobal arrived)))
        as Hsig.
      { apply (foldl_onComplete_signatures inp arrived App.initialGlobal). right.
        exists (Worker.onStart dd). split; [done|]. split.
        - rewrite foldl_onComplete_max. cbn [App.initialGlobal App.bestCoverage].
          by rewrite Hcov.
        - rewrite Hsols. left. }
      rewrite Hnil in Hsig. by apply elem_of_nil in Hsig.
    + intros Hnil.
      destruct (App.topSolutions (foldl (App.onComplete inp) App.initialGlobal arrived))
        as [|sol sols] eqn:Htop; [done|].
      assert (sol ∈ App.topSolutions (foldl (App.onComplete inp) App.initialGlobal arrived))
        as Hsol by (rewrite Htop; left).
      apply foldl_onComplete_elem in Hsol as [Hsol|(rep & Hin & Hsol)];
        [by apply elem_of_nil in Hsol|].
      destruct (Hrep rep Hin) as (dd & Hdd & ->).
      destruct (report_bounds inp Hinp dd Hdd) as (_ & _ & Hiff & _).
      assert (0 < c_coverage (Worker.onStart dd)) as Hc.
      { apply Hiff. intros E. rewrite E in Hsol. by apply elem_of_nil in Hsol. }
      pose proof (Hge _ Hin). lia.
  - destruct arrived as [|rep arrived']; [done|].
    destruct (Hrep rep ltac:(left)) as (dd & Hdd & ->).
    destruct (report_bounds inp Hinp dd Hdd) as (_ & _ & _ & first & pc & Hf & Hpc & Hle).
    exists first, pc. split; [done|]. split; [done|].
    pose proof (Hge (Worker.onStart dd) ltac:(left)). lia.
Qed.

(** The run of [twoByTwo] covers at most the four cells of the board. *)
Lemma final_coverage_bounds_witness :
  wfInput twoByTwo /\
  App.bestCoverage (App.aggregate twoByTwo (App.reports twoByTwo)) <= 4.
Proof.
  split; [exact wfInput_twoByTwo|].
  exact (proj1 (final_coverage_bounds twoByTwo (App.reports twoByTwo)
                  (App.aggregate twoByTwo (App.reports twoByTwo))
                  wfInput_twoByTwo (Permutation_refl _) ltac:(by vm_compute))).
Defined.

(* ===================================================================== *)
(** * Part 26 — the search leaves no trace and always returns             *)
(* ===================================================================== *)

(** X21 — the search restores the board: a call of [backtrack] returns with
    the occupancy, the depth stamps and the depth counter exactly as it found
    them, whatever it placed and undid in between, and when [solve] posts its
    report every cell is clear again. *)
Theorem search_restores_board (d : SolveData) :
  wfData d ->
  (solveState d false).1 = initialBoard d /\
  forall remainingPieces remainingSum currentSolution coverage b best,
    nodeOK d remainingPieces remainingSum currentSolution coverage b ->
    bestOK d best ->
    (backtrack d false remainingPieces remainingSum currentSolution coverage (b, best)).2.1
    = b.
Proof.
  intros Hwf. split.
  - unfold solveState.
    by destruct (solveLoop_ok d Hwf (assignedPlacementIndices d) (initialBest d)
                   ltac:(done) (bestOK_initial d)) as (H & _).
  - intros rem rsum cur cov b best Hnode Hbest. unfold backtrack.
    assert (length rem < S (length rem))%nat as Hfuel by lia.
    by destruct (backtrackN_ok d Hwf _ _ _ _ _ _ best Hfuel Hnode Hbest) as [H _ _ _ _ _].
Qed.

(** The first worker of [twoByTwo] ends on a clear board. *)
Lemma search_restores_board_witness :
  (solveState (App.startData twoByTwo 0 [0; 1; 2; 3]%nat) false).1
  = initialBoard (App.startData twoByTwo 0 [0; 1; 2; 3]%nat).
Proof.
  exact (proj1 (search_restores_board (App.startData twoByTwo 0 [0; 1; 2; 3]%nat)
                  (workers_wf twoByTwo wfInput_twoByTwo _ ltac:(vm_compute; left)))).
Defined.

(** X22 — [backtrack] always returns: the recursion nests at most one level
    per remaining piece, so every bound on the nesting that exceeds the number
    of remaining pieces gives the result of [backtrack]. *)
Theorem backtrack_terminates (d : SolveData) (shouldStop : bool) (fuel : nat)
    (remainingPieces : list nat) (remainingSum : Z) (currentSolution : list Item)
    (coverage : Z) (st : Board * Best) :
  (length remainingPieces < fuel)%nat ->
  backtrackN d shouldStop fuel remainingPieces remainingSum currentSolution coverage st
  = backtrack d shouldStop remainingPieces remainingSum currentSolution coverage st.
Proof. intros Hfuel. unfold backtrack. apply backtrackN_fuel; lia. Qed.

(** Two remaining pieces and a bound of ten. *)
Lemma backtrack_terminates_witness :
  backtrackN twoCellsWorker false 10 [1; 2]%nat 2 [firstItem twoCellsWorker 0%nat] 1
             (initialBoard twoCellsWorker, initialBest twoCellsWorker)
  = backtrack twoCellsWorker false [1; 2]%nat 2 [firstItem twoCellsWorker 0%nat] 1
              (initialBoard twoCellsWorker, initialBest twoCellsWorker).
Proof.
  apply (backtrack_terminates twoCellsWorker false 10 [1; 2]%nat). simpl. lia.
Defined.

(* ===================================================================== *)
(** * Part 27 — the grid class                                            *)
(* ===================================================================== *)

Section GridMap.

Context {D : Type}.

Implicit Types (g : Grid.Cells D) (c : Grid.Cell D) (h : Hex) (dat : option D).

Lemma keyOf_eq c h : Grid.keyOf c = HexGrid.key h <-> Grid.hex c = h.
Proof. unfold Grid.keyOf. split; [apply key_inj|by intros ->]. Qed.

Lemma Grid_set_fresh g h dat :
  HexGrid.key h ∉ map Grid.keyOf g -> Grid.set g h dat = g ++ [Grid.mkCell h dat].
Proof.
  induction g as [|c g IH]; intros Hfresh; [done|].
  cbn [map] in Hfresh. apply not_elem_of_cons in Hfresh as [Hne Hfresh].
  cbn [Grid.set]. rewrite bool_decide_eq_false_2 by done. by rewrite IH.
Qed.

Lemma Grid_set_keys g h dat :
  map Grid.keyOf (Grid.set g h dat)
  = if Grid.has g h then map Grid.keyOf g else map Grid.keyOf g ++ [HexGrid.key h].
Proof.
  unfold Grid.has. induction g as [|c g IH]; [done|].
  cbn [Grid.set map]. destruct (decide (Grid.keyOf c = HexGrid.key h)) as [Hc|Hc].
  - rewrite (bool_decide_eq_true_2 (Grid.keyOf c = HexGrid.key h)) by done.
    rewrite (bool_decide_eq_true_2 (HexGrid.key h ∈ _)) by (rewrite <- Hc; left).
    cbn [map]. f_equal. by rewrite Hc.
  - rewrite (bool_decide_eq_false_2 (Grid.keyOf c = HexGrid.key h)) by done.
    cbn [map]. rewrite IH.
    destruct (decide (HexGrid.key h ∈ map Grid.keyOf g)) as [Hin|Hin].
    + rewrite !bool_decide_eq_true_2; [done|by right|done].
    + rewrite !bool_decide_eq_false_2; [done| |done].
      intros Hin'. apply elem_of_cons in Hin' as [Heq|Hin']; [by symmetry in Heq|done].
Qed.

Lemma Grid_get_set_eq g h dat : Grid.get (Grid.set g h dat) h = Some (Grid.mkCell h dat).
Proof.
  unfold Grid.get. induction g as [|c g IH]; cbn [Grid.set].
  - cbn [find]. by rewrite bool_decide_eq_true_2.
  - destruct (decide (Grid.keyOf c = HexGrid.key h)) as [Hc|Hc].
    + rewrite bool_decide_eq_true_2 by done. cbn [find]. by rewrite bool_decide_eq_true_2.
    + rewrite bool_decide_eq_false_2 by done. cbn [find].
      by rewrite bool_decide_eq_false_2.
Qed.

Lemma Grid_get_set_ne g h h' dat :
  h' <> h -> Grid.get (Grid.set g h dat) h' = Grid.get g h'.
Proof.
  intros Hne. unfold Grid.get. induction g as [|c g IH]; cbn [Grid.set].
  - cbn [find]. rewrite bool_decide_eq_false_2; [done|].
    intros Hk. by apply key_inj in Hk.
  - destruct (decide (Grid.keyOf c = HexGrid.key h)) as [Hc|Hc].
    + rewrite (bool_decide_eq_true_2 (Grid.keyOf c = HexGrid.key h)) by done. cbn [find].
      rewrite !bool_decide_eq_false_2; [done| |].
      * rewrite Hc. intros Hk. apply key_inj in Hk. by subst.
      * intros Hk. by apply key_inj in Hk.
    + rewrite (bool_decide_eq_false_2 (Grid.keyOf c = HexGrid.key h)) by done. cbn [find].
      by rewrite IH.
Qed.

Lemma Grid_get_Some g h c : Grid.get g h = Some c -> c ∈ g /\ Grid.hex c = h.
Proof.
  unfold Grid.get. intros Hf. apply find_some in Hf as [Hin Hk].
  apply bool_decide_eq_true in Hk. split; [by apply list_elem_of_In|by apply keyOf_eq].
Qed.

Lemma Grid_get_unique g c :
  NoDup (map Grid.keyOf g) -> c ∈ g -> Grid.get g (Grid.hex c) = Some c.
Proof.
  unfold Grid.get. induction g as [|c0 g IH]; intros Hnd Hin; [by apply elem_of_nil in Hin|].
  cbn [map] in Hnd. apply NoDup_cons in Hnd as [Hc0 Hnd]. cbn [find].
  apply elem_of_cons in Hin as [->|Hin].
  - by rewrite bool_decide_eq_true_2.
  - rewrite bool_decide_eq_false_2; [by apply IH|].
    intros Hk. apply Hc0. rewrite Hk. apply (list_elem_of_fmap_2 Grid.keyOf) in Hin. done.
Qed.

Lemma Grid_has_get g h : Grid.has g h = true <-> is_Some (Grid.get g h).
Proof.
  unfold Grid.has. rewrite bool_decide_eq_true. split.
  - intros Hin. apply (list_elem_of_fmap Grid.keyOf) in Hin as (c & Hk & Hin).
    destruct (Grid.get g h) as [c'|] eqn:Hget; [by eexists|]. exfalso.
    unfold Grid.get in Hget. apply list_elem_of_In in Hin.
    pose proof (find_none _ _ Hget c Hin) as Hc. cbn beta in Hc.
    by rewrite bool_decide_eq_true_2 in Hc.
  - intros [c Hc]. apply Grid_get_Some in Hc as [Hin <-].
    by apply (list_elem_of_fmap_2 Grid.keyOf) in Hin.
Qed.

Lemma Grid_fill_acc (acc : Grid.Cells D) (hexes : list Hex) :
  NoDup (map Grid.keyOf acc ++ map HexGrid.key hexes) ->
  foldl (fun g h => Grid.set g h None) acc hexes
  = acc ++ map (fun h => Grid.mkCell h None) hexes.
Proof.
  revert acc. induction hexes as [|h hexes IH]; intros acc Hnd; cbn [foldl map].
  - by rewrite app_nil_r.
  - cbn [map] in Hnd. rewrite Grid_set_fresh.
    + rewrite IH; [by rewrite <- app_assoc|].
      rewrite map_app. cbn [map]. rewrite <- app_assoc. exact Hnd.
    + apply NoDup_app in Hnd as (_ & Hdisj & _). intros Hin. apply (Hdisj _ Hin). by left.
Qed.

Lemma Grid_fill_NoDup (hexes : list Hex) :
  NoDup hexes -> Grid.fill (D:=D) hexes = map (fun h => Grid.mkCell h None) hexes.
Proof.
  intros Hnd. unfold Grid.fill. rewrite Grid_fill_acc; [done|].
  cbn [map app]. apply NoDup_fmap_2; [|done]. intros a b. apply key_inj.
Qed.

End GridMap.

(** X23 — the grid is a map in insertion order: [get] after [set] returns
    the stored cell, [set] does not change what [get] returns for another
    hex, [has] holds exactly where [get] returns a cell, setting a hex that
    is present keeps the order and the number of cells while a new hex goes
    to the end, and keys stay pairwise different. *)
Theorem grid_set_get {D : Type} (g : Grid.Cells D) (h h' : Hex) (dat : option D) :
  Grid.get (Grid.set g h dat) h = Some (Grid.mkCell h dat) /\
  (h' <> h -> Grid.get (Grid.set g h dat) h' = Grid.get g h') /\
  (Grid.has g h' = true <-> is_Some (Grid.get g h')) /\
  map Grid.keyOf (Grid.set g h dat)
    = (if Grid.has g h then map Grid.keyOf g else map Grid.keyOf g ++ [HexGrid.key h]) /\
  (NoDup (map Grid.keyOf g) -> NoDup (map Grid.keyOf (Grid.set g h dat))).
Proof.
  split; [apply Grid_get_set_eq|]. split; [apply Grid_get_set_ne|].
  split; [apply Grid_has_get|]. split; [apply Grid_set_keys|].
  intros Hnd. rewrite Grid_set_keys. unfold Grid.has. case_bool_decide as Hin; [done|].
  apply NoDup_app. split; [done|]. split; [|apply NoDup_singleton].
  intros k Hk Hk'. apply list_elem_of_singleton in Hk' as ->. done.
Qed.

Lemma rect_NoDup (width height q0 r0 : Z) :
  NoDup (HexGrid.generateRect width height q0 r0).
Proof.
  unfold HexGrid.generateRect. rewrite flat_map_bind. apply NoDup_bind.
  - intros x1 x2 y _ _ H1 H2.
    apply (list_elem_of_fmap (fun ri => mkHex x1 ri)) in H1 as (r1 & -> & _).
    apply (list_elem_of_fmap (fun ri => mkHex x2 ri)) in H2 as (r2 & E & _).
    by injection E.
  - intros x _. apply (NoDup_fmap_2_strong (fun ri => mkHex x ri)); [|apply NoDup_seqZ].
    intros r1 r2 _ _ E. by injection E.
  - apply NoDup_seqZ.
Qed.

Lemma has_map_mkCell {D : Type} (hexes : list Hex) (h : Hex) :
  Grid.has (D:=D) (map (fun x => Grid.mkCell x None) hexes) h = true <-> h ∈ hexes.
Proof.
  unfold Grid.has. rewrite bool_decide_eq_true, map_map. split.
  - intros Hin. apply (list_elem_of_fmap HexGrid.key) in Hin as (x & Hk & Hin).
    apply key_inj in Hk. by subst.
  - intros Hin. by apply (list_elem_of_fmap_2 HexGrid.key) in Hin.
Qed.


Lemma length_flat_map_sum {A B : Type} (f : A -> list B) (l : list A) :
  Z.of_nat (length (flat_map f l))
  = foldr (fun x acc => Z.of_nat (length (f x)) + acc) 0 l.
Proof.
  induction l as [|x l IH]; [done|]. cbn [flat_map foldr]. rewrite length_app. lia.
Qed.

(** The sum of [a + b * x] over [x = m, ..., m + n - 1], doubled. *)
Lemma sum_seqZ_linear (g : Z -> Z) (a b : Z) (n : nat) (m : Z) :
  (forall x, m <= x < m + Z.of_nat n -> g x = a + b * x) ->
  2 * foldr (fun x acc => g x + acc) 0 (seqZ m (Z.of_nat n))
  = 2 * Z.of_nat n * a + b * (2 * m * Z.of_nat n + Z.of_nat n * (Z.of_nat n - 1)).
Proof.
  revert m. induction n as [|n IH]; intros m Hg.
  - rewrite seqZ_nil by lia. cbn [foldr]. lia.
  - rewrite seqZ_cons by lia. cbn [foldr].
    replace (Z.pred (Z.of_nat (S n))) with (Z.of_nat n) by lia.
    specialize (IH (Z.succ m) ltac:(intros x Hx; apply Hg; lia)).
    rewrite (Hg m) by lia. nia.
Qed.

Section Disk.

Variable radius : Z.

(** The hexes visited by the loops of [generateRadius]; [range] visits the
    same offsets around its centre. *)
Local Abbreviation disk :=
  (flat_map (fun qi =>
               map (fun ri => mkHex qi ri)
                   (seqZ (Z.max (- radius) (- qi - radius))
                         (Z.min radius (- qi + radius)
                          - Z.max (- radius) (- qi - radius) + 1)))
            (seqZ (- radius) (2 * radius + 1))).

Lemma disk_elem_of (h : Hex) :
  h ∈ disk <-> HexGrid.hex_distance h (mkHex 0 0) <= radius.
Proof.
  rewrite flat_map_bind, list_elem_of_bind, hex_distance_max. cbn [q r]. split.
  - intros (qi & Hin & Hqi).
    apply (list_elem_of_fmap (fun ri => mkHex qi ri)) in Hin as (ri & -> & Hri).
    apply elem_of_seqZ in Hqi, Hri. cbn [q r]. lia.
  - intros Hd. exists (q h). split; [|apply elem_of_seqZ; lia].
    apply (list_elem_of_fmap (fun ri => mkHex (q h) ri)). exists (r h).
    split; [by destruct h|apply elem_of_seqZ; lia].
Qed.

Lemma disk_NoDup : NoDup disk.
Proof.
  rewrite flat_map_bind. apply NoDup_bind.
  - intros x1 x2 y _ _ H1 H2.
    apply (list_elem_of_fmap (fun ri => mkHex x1 ri)) in H1 as (r1 & -> & _).
    apply (list_elem_of_fmap (fun ri => mkHex x2 ri)) in H2 as (r2 & E & _).
    by injection E.
  - intros x _. apply (NoDup_fmap_2_strong (fun ri => mkHex x ri)); [|apply NoDup_seqZ].
    intros r1 r2 _ _ E. by injection E.
  - apply NoDup_seqZ.
Qed.

Lemma disk_length : 0 <= radius -> Z.of_nat (length disk) = 3 * radius * (radius + 1) + 1.
Proof.
  intros Hr.
  set (len := fun qi : Z =>
         Z.of_nat (length (map (fun ri => mkHex qi ri)
                    (seqZ (Z.max (- radius) (- qi - radius))
                          (Z.min radius (- qi + radius)
                           - Z.max (- radius) (- qi - radius) + 1))))).
  assert (Z.of_nat (length disk)
          = foldr (fun x acc => len x + acc) 0 (seqZ (- radius) (2 * radius + 1))) as ->
    by apply length_flat_map_sum.
  replace (2 * radius + 1) with (radius + (radius + 1)) by lia.
  rewrite seqZ_app by lia. rewrite foldr_app.
  assert (forall qi, - radius <= qi <= radius -> len qi = 2 * radius + 1 - Z.abs qi) as Hlen.
  { intros qi Hqi. unfold len. rewrite length_map, length_seqZ. lia. }
  pose proof (sum_seqZ_linear len (2 * radius + 1) (-1) (Z.to_nat (radius + 1))
                (- radius + radius)) as Hpos.
  rewrite Z2Nat.id in Hpos by lia.
  specialize (Hpos ltac:(intros x Hx; rewrite Hlen; lia)).
  pose proof (sum_seqZ_linear len (2 * radius + 1) 1 (Z.to_nat radius) (- radius)) as Hneg.
  rewrite Z2Nat.id in Hneg by lia.
  specialize (Hneg ltac:(intros x Hx; rewrite Hlen; lia)).
  assert (forall (l : list Z) (acc : Z),
            foldr (fun x acc => len x + acc) acc l
            = foldr (fun x acc => len x + acc) 0 l + acc) as Hacc.
  { induction l as [|x l IH]; intros acc; cbn [foldr]; [lia|]. rewrite IH. lia. }
  rewrite Hacc.
  revert Hpos Hneg.
  generalize (foldr (fun x acc => len x + acc) 0 (seqZ (- radius) radius)).
  generalize (foldr (fun x acc => len x + acc) 0 (seqZ (- radius + radius) (radius + 1))).
  intros s1 s2 Hpos Hneg. nia.
Qed.

End Disk.

(** X25 — [generateRadius] fills the grid with exactly the hexes within
    [hex_distance] [radius] of the origin, each once and with [data: null];
    for [radius >= 0] these are [3 * radius * (radius + 1) + 1] cells, and a
    negative radius gives the empty grid. *)
Theorem generateRadius_disk {D : Type} (radius : Z) :
  let g := Grid.generateRadius (D:=D) radius in
  (forall h, Grid.has g h = true <-> HexGrid.hex_distance h (mkHex 0 0) <= radius) /\
  NoDup (map Grid.keyOf g) /\
  Forall (fun c => Grid.data c = None) g /\
  (0 <= radius -> Z.of_nat (length g) = 3 * radius * (radius + 1) + 1) /\
  (radius < 0 -> g = []).
Proof.
  cbv zeta. unfold Grid.generateRadius. cbv zeta.
  rewrite (Grid_fill_NoDup _ (disk_NoDup radius)).
  split; [|split; [|split; [|split]]].
  - intros h. rewrite has_map_mkCell. apply disk_elem_of.
  - rewrite map_map. apply NoDup_fmap_2; [|apply disk_NoDup]. intros a b. apply key_inj.
  - apply Forall_map, Forall_forall. by intros.
  - intros Hr. rewrite length_map. by apply disk_length.
  - intros Hr. rewrite (seqZ_nil (- radius)) by lia. done.
Qed.

Lemma NoDup_fmap_elem {A B : Type} (f : A -> B) (l : list A) (x y : A) :
  NoDup (map f l) -> x ∈ l -> y ∈ l -> f x = f y -> x = y.
Proof.
  intros Hnd Hx Hy Heq.
  apply list_elem_of_lookup in Hx as [i Hi]. apply list_elem_of_lookup in Hy as [j Hj].
  assert (i = j) as ->; [|congruence].
  apply (NoDup_lookup (map f l) i j (f x) Hnd).
  - change (map f l) with (f <$> l). by rewrite list_lookup_fmap, Hi.
  - change (map f l) with (f <$> l). by rewrite list_lookup_fmap, Hj, Heq.
Qed.

Lemma omap_flat_map {A B C : Type} (F : B -> option C) (G : A -> list B) (l : list A) :
  omap F (flat_map G l) = flat_map (fun x => omap F (G x)) l.
Proof.
  induction l as [|x l IH]; [done|]. cbn [flat_map]. by rewrite omap_app, IH.
Qed.

Lemma omap_map {A B C : Type} (F : B -> option C) (h : A -> B) (l : list A) :
  omap F (map h l) = omap (fun x => F (h x)) l.
Proof.
  induction l as [|x l IH]; [done|]. cbn [map].
  change (omap ?f (?a :: ?k)) with (match f a with Some y => y :: omap f k | None => omap f k end).
  by rewrite IH.
Qed.

(** [range] looks up the offsets that [generateRadius] enters, moved to the
    centre. *)
Lemma range_disk {D : Type} (g : Grid.Cells D) (center : Hex) (radius : Z) :
  Grid.range g center radius
  = omap (fun off => Grid.get g (HexGrid.add center off))
      (flat_map (fun qi =>
                   map (fun ri => mkHex qi ri)
                       (seqZ (Z.max (- radius) (- qi - radius))
                             (Z.min radius (- qi + radius)
                              - Z.max (- radius) (- qi - radius) + 1)))
                (seqZ (- radius) (2 * radius + 1))).
Proof.
  unfold Grid.range. rewrite omap_flat_map. apply flat_map_ext. intros dq.
  cbv zeta. by rewrite omap_map.
Qed.



(* ===================================================================== *)
(** * Part 28 — the collection editor and the solution pager              *)
(* ===================================================================== *)

Lemma subtractHex_inj (a b c : Hex) :
  HexGrid.subtractHex a c = HexGrid.subtractHex b c -> a = b.
Proof.
  intros Heq. apply (f_equal (fun x => HexGrid.addHex x c)) in Heq.
  assert (forall x, HexGrid.addHex (HexGrid.subtractHex x c) c = x) as Hrt
    by (intros x; by_axial).
  by rewrite !Hrt in Heq.
Qed.

(** Exchanging two adjacent entries. *)
Lemma swap_adjacent {A : Type} (l : list A) (i : nat) (a b : A) :
  l !! i = Some a -> l !! S i = Some b ->
  <[i := b]> (<[S i := a]> l) = take i l ++ b :: a :: drop (S (S i)) l /\
  l = take i l ++ a :: b :: drop (S (S i)) l.
Proof.
  revert i. induction l as [|x l IH]; intros i Hi Hsi; [done|].
  destruct i as [|i].
  - destruct l as [|y l]; [done|]. cbn in Hi, Hsi. injection Hi as ->. injection Hsi as ->.
    cbn. by rewrite drop_0.
  - cbn in Hi, Hsi. destruct (IH i Hi Hsi) as [H1 H2]. cbn [take drop app].
    split; [|by f_equal].
    change (<[S i := b]> (<[S (S i) := a]> (x :: l))) with (x :: <[i := b]> (<[S i := a]> l)).
    by rewrite H1.
Qed.

Lemma swap_adjacent_Permutation {A : Type} (l : list A) (i : nat) (a b : A) :
  l !! i = Some a -> l !! S i = Some b -> <[i := b]> (<[S i := a]> l) ≡ₚ l.
Proof.
  intros Hi Hsi. destruct (swap_adjacent l i a b Hi Hsi) as [-> Hl].
  rewrite Hl at 3. apply Permutation_app_head, perm_swap.
Qed.

Lemma collectionOK_Permutation (l l' : list App.Piece) (n : Z) :
  l' ≡ₚ l -> collectionOK (Ui.mkCollection l n) -> collectionOK (Ui.mkCollection l' n).
Proof.
  intros Hperm (Hseq & Hnd & Hids & Hcells).
  unfold collectionOK. cbn [Ui.pieces Ui.pieceIdSeq] in *.
  split; [done|]. split; [|split].
  - cbn [Ui.pieces]. by rewrite Hperm.
  - cbn [Ui.pieces Ui.pieceIdSeq]. intros pc Hpc. apply Hids. by rewrite <- Hperm.
  - cbn [Ui.pieces]. intros pc Hpc. apply Hcells. by rewrite <- Hperm.
Qed.

Lemma collectionOK_insert (pre post : list App.Piece) (n : Z) (cells : list Hex) :
  collectionOK (Ui.mkCollection (pre ++ post) n) -> NoDup cells ->
  collectionOK (Ui.mkCollection (pre ++ App.mkPiece n cells :: post) (n + 1)).
Proof.
  intros (Hseq & Hnd & Hids & Hcells) Hc.
  unfold collectionOK. cbn [Ui.pieces Ui.pieceIdSeq] in *.
  split; [lia|]. split; [|split].
  - rewrite <- Permutation_middle. cbn [map App.id]. apply NoDup_cons. split; [|done].
    intros Hin. apply (list_elem_of_fmap App.id) in Hin as (pc & Hid & Hin).
    specialize (Hids pc Hin). lia.
  - intros pc Hpc. rewrite <- Permutation_middle in Hpc.
    apply elem_of_cons in Hpc as [->|Hpc]; [cbn [App.id]; lia|].
    specialize (Hids pc Hpc). lia.
  - intros pc Hpc. rewrite <- Permutation_middle in Hpc.
    apply elem_of_cons in Hpc as [->|Hpc]; [done|by apply Hcells].
Qed.

Lemma imap_renumber_ids (rest : list App.Piece) (start : nat) :
  map App.id (imap (fun idx p => App.mkPiece (Z.of_nat (start + idx) + 1) (App.cells p)) rest)
  = map Z.of_nat (seq (S start) (length rest)).
Proof.
  revert start. induction rest as [|p rest IH]; intros start; [done|].
  cbn [imap map length seq App.id]. f_equal; [lia|].
  rewrite <- (IH (S start)). f_equal. apply imap_ext. intros i x _. cbn. f_equal. lia.
Qed.

Lemma imap_renumber_cells (rest : list App.Piece) (start : nat) :
  map App.cells
      (imap (fun idx p => App.mkPiece (Z.of_nat (start + idx) + 1) (App.cells p)) rest)
  = map App.cells rest.
Proof.
  revert start. induction rest as [|p rest IH]; intros start; [done|].
  cbn [imap map App.cells]. f_equal.
  rewrite <- (IH (S start)). f_equal. apply imap_ext. intros i x _. cbn. f_equal. lia.
Qed.

Lemma removePiece_renumbers_aux (i : nat) (c : Ui.Collection) :
  map App.id (Ui.pieces (Ui.removePiece i c)) = map Z.of_nat (seq 1 (length (Ui.pieces (Ui.removePiece i c)))) /\
  Ui.pieceIdSeq (Ui.removePiece i c) = Z.of_nat (length (Ui.pieces (Ui.removePiece i c))) + 1 /\
  map App.cells (Ui.pieces (Ui.removePiece i c))
    = map App.cells (take i (Ui.pieces c) ++ drop (S i) (Ui.pieces c)) /\
  length (Ui.pieces (Ui.removePiece i c))
    = (if (i <? length (Ui.pieces c))%nat then (length (Ui.pieces c) - 1)%nat
       else length (Ui.pieces c)).
Proof.
  unfold Ui.removePiece. cbn [Ui.pieces Ui.pieceIdSeq].
  set (rest := take i (Ui.pieces c) ++ drop (S i) (Ui.pieces c)).
  rewrite length_imap.
  split; [|split; [done|split]].
  - apply (imap_renumber_ids rest 0).
  - apply (imap_renumber_cells rest 0).
  - unfold rest. rewrite length_app, length_take, length_drop.
    destruct (Nat.ltb_spec i (length (Ui.pieces c))); lia.
Qed.

(** X28 — [removePiece] renumbers the collection: afterwards the ids are
    1, 2, ..., n in the order of the list and the counter is n + 1; the
    cells of the pieces that stay are unchanged and in their old order, and
    an index past the end removes nothing but still renumbers. *)
Theorem removePiece_renumbers (i : nat) (c : Ui.Collection) :
  let c' := Ui.removePiece i c in
  map App.id (Ui.pieces c') = map Z.of_nat (seq 1 (length (Ui.pieces c'))) /\
  Ui.pieceIdSeq c' = Z.of_nat (length (Ui.pieces c')) + 1 /\
  map App.cells (Ui.pieces c')
    = map App.cells (take i (Ui.pieces c) ++ drop (S i) (Ui.pieces c)) /\
  length (Ui.pieces c')
    = (if (i <? length (Ui.pieces c))%nat then (length (Ui.pieces c) - 1)%nat
       else length (Ui.pieces c)).
Proof. apply removePiece_renumbers_aux. Qed.

Lemma removePiece_ok (i : nat) (c : Ui.Collection) :
  collectionOK c -> collectionOK (Ui.removePiece i c).
Proof.
  intros (_ & _ & _ & Hcells).
  destruct (removePiece_renumbers_aux i c) as (Hids & Hseq & Hc & _).
  unfold collectionOK. split; [lia|]. split; [|split].
  - rewrite Hids. apply (NoDup_fmap_2 Z.of_nat), NoDup_seq.
  - intros pc Hpc. apply (list_elem_of_fmap_2 App.id) in Hpc.
    change (App.id <$> ?l) with (map App.id l) in Hpc. rewrite Hids in Hpc.
    apply (list_elem_of_fmap Z.of_nat) in Hpc as (k & -> & Hk).
    apply elem_of_seq in Hk. lia.
  - intros pc Hpc. apply (list_elem_of_fmap_2 App.cells) in Hpc.
    change (App.cells <$> ?l) with (map App.cells l) in Hpc. rewrite Hc in Hpc.
    apply (list_elem_of_fmap App.cells) in Hpc as (pc' & -> & Hpc').
    apply Hcells. apply elem_of_app in Hpc' as [H|H].
    + by apply (subseteq_take i (Ui.pieces c)).
    + by apply (subseteq_drop (S i) (Ui.pieces c)).
Qed.

Lemma act_ok (a : Action) (c c' : Ui.Collection) :
  (forall cells center, a = Add cells center -> NoDup cells) ->
  collectionOK c -> act a c = Some c' -> collectionOK c'.
Proof.
  intros Hsel Hok Hact. destruct c as [l n]. destruct a as [cells center|i|i|i|i];
    cbn [act] in Hact.
  - injection Hact as <-. unfold Ui.onAddPiece. case_bool_decide; [done|].
    cbn [Ui.pieces Ui.pieceIdSeq].
    apply (collectionOK_insert l [] n); [by rewrite app_nil_r|].
    apply (NoDup_fmap_2_strong _); [|by apply (Hsel cells center)].
    intros x y _ _. apply subtractHex_inj.
  - unfold Ui.clonePiece in Hact. cbn [Ui.pieces Ui.pieceIdSeq] in Hact.
    destruct (l !! i) as [orig|] eqn:Hi; [|done]. injection Hact as <-.
    apply collectionOK_insert; [by rewrite take_drop|].
    destruct Hok as (_ & _ & _ & Hcells). cbn [Ui.pieces] in Hcells.
    assert (map (fun h => mkHex (q h) (r h)) (App.cells orig) = App.cells orig) as ->.
    { rewrite <- (map_id (App.cells orig)) at 2. apply map_ext. by intros []. }
    apply Hcells. by eapply list_elem_of_lookup_2.
  - unfold Ui.movePieceUp in Hact. cbn [Ui.pieces Ui.pieceIdSeq] in Hact.
    destruct (Nat.leb_spec i 0) as [|Hpos]; [by injection Hact as <-|].
    destruct (l !! (i - 1)%nat) as [tmp|] eqn:Hprev; [|done].
    destruct (l !! i) as [cur|] eqn:Hi; [|done]. injection Hact as <-.
    apply (collectionOK_Permutation l); [|done].
    replace i with (S (i - 1)) at 1 by lia.
    rewrite list_insert_insert_ne by lia.
    apply swap_adjacent_Permutation; [done|]. by replace (S (i - 1)) with i by lia.
  - injection Hact as <-. unfold Ui.movePieceDown. cbn [Ui.pieces Ui.pieceIdSeq].
    destruct (_ <=? _); [done|].
    destruct (l !! S i) as [tmp|] eqn:Hnext; [|done].
    destruct (l !! i) as [cur|] eqn:Hi; [|done].
    apply (collectionOK_Permutation l); [|done]. by apply swap_adjacent_Permutation.
  - injection Hact as <-. by apply removePiece_ok.
Qed.

(** X27 — whatever is done in the collection editor, in any order (add a
    piece from a selection of distinct cells, clone, move up, move down,
    remove), the ids stay positive, pairwise different and below the
    counter, and no piece holds a cell twice; this holds from the empty
    collection on. A collection built this way, with fewer than 2^15 pieces
    and a counter of at most 2^31, is an input as the theorems about the
    solver require it. *)
Theorem editor_keeps_collection_ok (actions : list Action) (c c' : Ui.Collection) :
  collectionOK c ->
  selectionsDistinct actions ->
  run actions c = Some c' ->
  collectionOK Ui.initial /\
  collectionOK c' /\
  forall w h rot hc,
    Z.of_nat (length (Ui.pieces c')) < 2 ^ 15 -> Ui.pieceIdSeq c' <= 2 ^ 31 ->
    wfInput (App.mkInput w h (Ui.pieces c') rot hc).
Proof.
  intros Hok Hsel Hrun.
  assert (collectionOK c') as Hok'.
  { revert c Hok Hsel Hrun. induction actions as [|a rest IH]; intros c Hok Hsel Hrun.
    - by injection Hrun as <-.
    - cbn [run] in Hrun. destruct (act a c) as [c1|] eqn:Hact; [|done].
      apply (IH c1); [|intros cells center Hin; apply (Hsel cells center); by right|done].
      apply (act_ok a c c1); [|done|done].
      intros cells center ->. apply (Hsel cells center). left. }
  split; [|split; [done|]].
  - split; [done|]. split; [constructor|]. split; intros pc Hpc; by apply elem_of_nil in Hpc.
  - intros w h rot hc Hcount Hseq. destruct Hok' as (_ & Hnd & Hids & Hcells).
    split; cbn [App.pieces]; [done|done| |done].
    intros pc Hpc. specialize (Hids pc Hpc). lia.
Qed.

(** Two pieces are added, the first is cloned and then removed. *)
Lemma editor_keeps_collection_ok_witness :
  exists c', run [Add [mkHex 0 0; mkHex 1 0] (mkHex 0 0); Add [mkHex 2 2] (mkHex 2 2);
                  Clone 0; Remove 0] Ui.initial = Some c' /\
             collectionOK c' /\ map App.id (Ui.pieces c') = [1; 2].
Proof.
  eexists. split; [reflexivity|].
  split; [|reflexivity].
  refine (proj1 (proj2 (editor_keeps_collection_ok
            [Add [mkHex 0 0; mkHex 1 0] (mkHex 0 0); Add [mkHex 2 2] (mkHex 2 2);
             Clone 0; Remove 0] Ui.initial _ _ _ eq_refl))).
  - split; [done|]. split; [constructor|]. split; intros pc Hpc; by apply elem_of_nil in Hpc.
  - intros cells center Hin.
    apply elem_of_cons in Hin as [[= -> ->]|Hin]; [checked_by_computation|].
    apply elem_of_cons in Hin as [[= -> ->]|Hin]; [checked_by_computation|].
    apply elem_of_cons in Hin as [Hin|Hin]; [done|].
    apply elem_of_cons in Hin as [Hin|Hin]; [done|]. by apply elem_of_nil in Hin.
Defined.

(** The two assignments of a move, read entry by entry. *)
Lemma swap_lookup {A : Type} (l : list A) (i j k : nat) (a b : A) :
  i <> j -> l !! i = Some a -> l !! j = Some b ->
  <[j := a]> (<[i := b]> l) !! k
  = (if decide (k = j) then Some a else if decide (k = i) then Some b else l !! k).
Proof.
  intros Hij Hi Hj.
  assert (i < length l)%nat as Hli by (by eapply lookup_lt_Some).
  assert (j < length l)%nat as Hlj by (by eapply lookup_lt_Some).
  destruct (decide (k = j)) as [->|Hkj].
  - apply list_lookup_insert_eq. by rewrite length_insert.
  - rewrite list_lookup_insert_ne by done.
    destruct (decide (k = i)) as [->|Hki].
    + by apply list_lookup_insert_eq.
    + by rewrite list_lookup_insert_ne.
Qed.

Lemma inserts_restore {A : Type} (l : list A) (i j : nat) (a b x y : A) :
  i <> j -> l !! i = Some a -> l !! j = Some b ->
  <[i := a]> (<[j := b]> (<[j := x]> (<[i := y]> l))) = l.
Proof.
  intros Hij Hi Hj. apply list_eq. intros k.
  rewrite !list_lookup_insert, !length_insert.
  repeat case_decide; destruct_and?; subst; congruence.
Qed.

(** X29 — moving a piece up exchanges it with the piece before it and leaves
    every other entry and the counter alone; moving the piece down again from
    its new place gives back the collection as it was, and so does moving
    down first and up afterwards. *)
Theorem movePiece_round_trip (i : nat) (c : Ui.Collection) :
  (0 < i < length (Ui.pieces c))%nat ->
  exists c1,
    Ui.movePieceUp i c = Some c1 /\
    (forall k, Ui.pieces c1 !! k
               = if decide (k = i) then Ui.pieces c !! (i - 1)%nat
                 else if decide (k = (i - 1)%nat) then Ui.pieces c !! i
                 else Ui.pieces c !! k) /\
    Ui.pieceIdSeq c1 = Ui.pieceIdSeq c /\
    Ui.movePieceDown (i - 1) c1 = c /\
    Ui.movePieceUp i (Ui.movePieceDown (i - 1) c) = Some c.
Proof.
  intros [Hpos Hlen]. destruct c as [l n]. cbn [Ui.pieces] in Hlen.
  destruct (lookup_lt_is_Some_2 l i Hlen) as [cur Hi].
  destruct (lookup_lt_is_Some_2 l (i - 1) ltac:(lia)) as [tmp Hprev].
  assert (S (i - 1) = i) as HS by lia.
  unfold Ui.movePieceUp, Ui.movePieceDown. cbn [Ui.pieces Ui.pieceIdSeq].
  destruct (Nat.leb_spec i 0) as [|_]; [lia|].
  exists (Ui.mkCollection (<[i := tmp]> (<[(i - 1)%nat := cur]> l)) n).
  cbn [Ui.pieces Ui.pieceIdSeq]. rewrite Hprev, Hi, !length_insert, HS.
  split; [done|].
  destruct (Z.leb_spec (Z.of_nat (length l) - 1) (Z.of_nat (i - 1))) as [|_]; [lia|].
  split; [|split; [done|split]].
  - intros k. rewrite (swap_lookup l (i - 1) i k tmp cur) by (done || lia).
    by repeat case_decide.
  - rewrite (swap_lookup l (i - 1) i i tmp cur) by (done || lia).
    rewrite (swap_lookup l (i - 1) i (i - 1) tmp cur) by (done || lia).
    rewrite decide_True by done. rewrite decide_False by lia. rewrite decide_True by done.
    f_equal. by apply inserts_restore; [lia| |].
  - rewrite Hi. cbn [Ui.pieces Ui.pieceIdSeq].
    rewrite (swap_lookup l i (i - 1) i cur tmp) by (done || lia).
    rewrite (swap_lookup l i (i - 1) (i - 1) cur tmp) by (done || lia).
    rewrite decide_True by done. rewrite decide_False by lia. rewrite decide_True by done.
    f_equal. f_equal. by apply inserts_restore; [lia| |].
Qed.

(** The second of three pieces is moved up. *)
Lemma movePiece_round_trip_witness :
  exists c1,
    Ui.movePieceUp 1 (Ui.mkCollection [App.mkPiece 1 [mkHex 0 0];
                                       App.mkPiece 2 [mkHex 0 0; mkHex 1 0];
                                       App.mkPiece 3 [mkHex 0 1]] 4) = Some c1 /\
    map App.id (Ui.pieces c1) = [2; 1; 3] /\
    Ui.movePieceDown 0 c1
    = Ui.mkCollection [App.mkPiece 1 [mkHex 0 0]; App.mkPiece 2 [mkHex 0 0; mkHex 1 0];
                       App.mkPiece 3 [mkHex 0 1]] 4.
Proof.
  destruct (movePiece_round_trip 1
              (Ui.mkCollection [App.mkPiece 1 [mkHex 0 0];
                                App.mkPiece 2 [mkHex 0 0; mkHex 1 0];
                                App.mkPiece 3 [mkHex 0 1]] 4) ltac:(cbn; lia))
    as (c1 & Hup & _ & _ & Hdown & _).
  exists c1. split; [done|]. split; [|done].
  vm_compute in Hup. by injection Hup as <-.
Defined.

Lemma rem_small (a n : Z) : 0 <= a < n -> Z.rem a n = a.
Proof. intros. apply Z.rem_small. lia. Qed.

Lemma showNext_value (n : nat) (i : Z) :
  0 <= i < Z.of_nat n ->
  Ui.showNextSolution n i = (if bool_decide (i = Z.of_nat n - 1) then 0 else i + 1).
Proof.
  intros Hi. unfold Ui.showNextSolution.
  destruct (Nat.eqb_spec n 0) as [|_]; [lia|].
  case_bool_decide.
  - replace (i + 1) with (Z.of_nat n) by lia. apply Z.rem_same. lia.
  - apply rem_small. lia.
Qed.

Lemma showPrevious_value (n : nat) (i : Z) :
  0 <= i < Z.of_nat n ->
  Ui.showPreviousSolution n i = (if bool_decide (i = 0) then Z.of_nat n - 1 else i - 1).
Proof.
  intros Hi. unfold Ui.showPreviousSolution.
  destruct (Nat.eqb_spec n 0) as [|_]; [lia|].
  case_bool_decide.
  - subst i. replace (0 - 1 + Z.of_nat n) with (Z.of_nat n - 1) by lia.
    apply rem_small. lia.
  - replace (i - 1 + Z.of_nat n) with ((i - 1) + 1 * Z.of_nat n) by lia.
    rewrite Z.rem_add by nia. apply rem_small. lia.
Qed.

Lemma showNext_iter (n k : nat) (i : Z) :
  0 <= i < Z.of_nat n ->
  Nat.iter k (Ui.showNextSolution n) i = (i + Z.of_nat k) mod Z.of_nat n.
Proof.
  intros Hi. induction k as [|k IH].
  - change (Nat.iter 0 (Ui.showNextSolution n) i) with i.
    replace (i + Z.of_nat 0) with i by lia. symmetry. apply Z.mod_small. lia.
  - rewrite Nat.iter_succ, IH.
    assert (0 <= (i + Z.of_nat k) mod Z.of_nat n < Z.of_nat n) as Hr
      by (apply Z.mod_pos_bound; lia).
    rewrite showNext_value by done. case_bool_decide as Hlast.
    + symmetry. apply Z.mod_divide; [lia|].
      exists ((i + Z.of_nat k) / Z.of_nat n + 1).
      pose proof (Z.div_mod (i + Z.of_nat k) (Z.of_nat n) ltac:(lia)). nia.
    + replace (i + Z.of_nat (S k)) with (i + Z.of_nat k + 1) by lia.
      rewrite <- (Z.add_mod_idemp_l (i + Z.of_nat k)) by lia.
      symmetry. apply Z.mod_small. lia.
Qed.

(** X30 — paging through the solutions: from an index of the list, "next" and
    "previous" give an index of the list again (the one after, the one
    before, wrapping around at the two ends), each undoes the other, and
    pressing "next" as many times as there are solutions comes back to the
    solution shown. With an empty list both leave the index alone. *)
Theorem solution_pager_cycles (n : nat) (i : Z) :
  0 <= i < Z.of_nat n ->
  let next := Ui.showNextSolution n in
  let prev := Ui.showPreviousSolution n in
  0 <= next i < Z.of_nat n /\ 0 <= prev i < Z.of_nat n /\
  next i = (if bool_decide (i = Z.of_nat n - 1) then 0 else i + 1) /\
  prev i = (if bool_decide (i = 0) then Z.of_nat n - 1 else i - 1) /\
  prev (next i) = i /\ next (prev i) = i /\
  Nat.iter n next i = i /\
  (forall j, Ui.showNextSolution 0 j = j /\ Ui.showPreviousSolution 0 j = j).
Proof.
  intros Hi next prev. subst next prev.
  pose proof (showNext_value n i Hi) as Hn. pose proof (showPrevious_value n i Hi) as Hp.
  assert (0 <= Ui.showNextSolution n i < Z.of_nat n) as Hnr
    by (rewrite Hn; repeat case_bool_decide; lia).
  assert (0 <= Ui.showPreviousSolution n i < Z.of_nat n) as Hpr
    by (rewrite Hp; repeat case_bool_decide; lia).
  repeat split; try done; try lia.
  - rewrite showPrevious_value by done. rewrite Hn. repeat case_bool_decide; lia.
  - rewrite showNext_value by done. rewrite Hp. repeat case_bool_decide; lia.
  - rewrite showNext_iter by done.
    replace (i + Z.of_nat n) with (i + 1 * Z.of_nat n) by lia.
    rewrite Z.mod_add by lia. apply Z.mod_small. lia.
Qed.

(** Three solutions, the last one shown. *)
Lemma solution_pager_cycles_witness :
  Ui.showNextSolution 3 2 = 0 /\ Ui.showPreviousSolution 3 (Ui.showNextSolution 3 2) = 2.
Proof.
  destruct (solution_pager_cycles 3 2 ltac:(lia)) as (_ & _ & Hn & _ & Hpn & _).
  split; [exact Hn|exact Hpn].
Defined.

(* ===================================================================== *)
(** * Part 29 — splitting the first placements loses nothing              *)
(* ===================================================================== *)

Section Lower.

Variable d : SolveData.
Hypothesis Hwf : wfData d.

(** The bound [K] stands for the coverage with which the better informed of
    two searches started. *)
Variable K : Z.

(** Two searches of the same node, the first knowing a coverage that the
    second does not: what the first ends with is [K] or something that the
    second reaches too. *)
Lemma tryPlacements_lower (rec : nat -> Board * Best -> bool * (Board * Best))
    (chosenPi : nat) (remainingSum coverage : Z) (b : Board) (childSum : Z)
    (childCov : nat -> Z) (valid : list (nat * nat)) :
  (forall v best', v ∈ valid -> bestOK d best' ->
     resultOK d childSum (childCov v.1) (applyPlacementByIndex d v.1 chosenPi b) best'
              (rec v.1 (applyPlacementByIndex d v.1 chosenPi b, best'))) ->
  (forall v, v ∈ valid ->
     undoPlacementByIndex d v.1 (applyPlacementByIndex d v.1 chosenPi b) = b /\
     childCov v.1 + childSum = coverage + remainingSum) ->
  (forall v best best', v ∈ valid -> bestOK d best -> bestOK d best' ->
     bestCoverage best <= Z.max K (bestCoverage best') ->
     bestCoverage (rec v.1 (applyPlacementByIndex d v.1 chosenPi b, best)).2.2 <=
     Z.max K (bestCoverage (rec v.1 (applyPlacementByIndex d v.1 chosenPi b, best')).2.2)) ->
  forall best best', bestOK d best -> bestOK d best' ->
    bestCoverage best <= Z.max K (bestCoverage best') ->
    bestCoverage (tryPlacements d false rec chosenPi valid (b, best)).2.2 <=
    Z.max K (bestCoverage (tryPlacements d false rec chosenPi valid (b, best')).2.2).
Proof.
  induction valid as [|v valid IH]; intros Hrec Hundo Hlow best best' Hb Hb' Hle.
  - done.
  - assert (forall v0 best0, v0 ∈ valid -> bestOK d best0 ->
              resultOK d childSum (childCov v0.1)
                (applyPlacementByIndex d v0.1 chosenPi b) best0
                (rec v0.1 (applyPlacementByIndex d v0.1 chosenPi b, best0))) as Hrec'
      by (intros; apply Hrec; [by right|done]).
    assert (forall v0, v0 ∈ valid ->
              undoPlacementByIndex d v0.1 (applyPlacementByIndex d v0.1 chosenPi b) = b /\
              childCov v0.1 + childSum = coverage + remainingSum) as Hundo'
      by (intros; apply Hundo; by right).
    specialize (IH Hrec' Hundo' ltac:(intros; apply Hlow; [by right|done..])).
    pose proof (Hlow v best best' ltac:(left) Hb Hb' Hle) as Hm.
    pose proof (Hrec v best ltac:(left) Hb) as Hr.
    pose proof (Hrec v best' ltac:(left) Hb') as Hr'.
    destruct (Hundo v ltac:(left)) as [Hu _].
    cbn [tryPlacements fst snd].
    destruct (rec v.1 (_, best)) as [stopped [b2 best2]].
    destruct (rec v.1 (_, best')) as [stopped' [b2' best2']].
    destruct Hr as [Hrb Hrbest _ _ _ _].
    destruct Hr' as [Hrb' Hrbest' _ _ _ Hperfect'].
    cbn [fst snd] in *. subst b2 b2'. rewrite Hu.
    destruct stopped, stopped'; cbn [fst snd].
    + done.
    + (* the second search goes on and can only gain *)
      pose proof (tryPlacements_ok d rec chosenPi remainingSum coverage b childSum
                    childCov valid Hrec' Hundo' best2' Hrbest') as [_ _ Hg _ _ _].
      cbn [fst snd] in Hg. lia.
    + (* the second search has covered the board *)
      pose proof (tryPlacements_ok d rec chosenPi remainingSum coverage b childSum
                    childCov valid Hrec' Hundo' best2 Hrbest) as [_ _ _ _ Hbb _].
      specialize (Hperfect' eq_refl). cbn [fst snd] in Hbb. lia.
    + by apply IH.
Qed.

Lemma backtrackN_lower (fuel : nat) :
  forall remainingPieces remainingSum currentSolution coverage b best best',
    (length remainingPieces < fuel)%nat ->
    nodeOK d remainingPieces remainingSum currentSolution coverage b ->
    bestOK d best -> bestOK d best' ->
    bestCoverage best <= Z.max K (bestCoverage best') ->
    bestCoverage (backtrackN d false fuel remainingPieces remainingSum currentSolution
                             coverage (b, best)).2.2 <=
    Z.max K (bestCoverage (backtrackN d false fuel remainingPieces remainingSum
                                      currentSolution coverage (b, best')).2.2).
Proof.
  induction fuel as [|fuel IH];
    intros remainingPieces remainingSum currentSolution coverage b best best'
           Hfuel Hnode Hbest Hbest' Hle; [lia|].
  pose proof (backtrackN_ok d Hwf (S fuel) _ _ _ _ _ best Hfuel Hnode Hbest)
    as [_ _ _ Hbound _ _].
  pose proof (backtrackN_ok d Hwf (S fuel) _ _ _ _ _ best' Hfuel Hnode Hbest')
    as [_ _ Hgrows' _ _ _].
  revert Hbound Hgrows'. cbn [backtrackN fst snd].
  set (best2 := record d _ _ (countNode best)).
  set (best2' := record d _ _ (countNode best')).
  assert (bestCoverage best2 = Z.max (bestCoverage best) coverage) as Hbc
    by (unfold best2; by rewrite record_bestCoverage).
  assert (bestCoverage best2' = Z.max (bestCoverage best') coverage) as Hbc'
    by (unfold best2'; by rewrite record_bestCoverage).
  assert (bestOK d best2 /\ bestOK d best2') as [Hok2 Hok2'].
  { split; (apply record_bestOK;
            [apply (n_sol _ _ _ _ _ _ Hnode)|apply (n_coverage _ _ _ _ _ _ Hnode)
            |by apply bestOK_searchCount]). }
  pose proof (sumRemainingSizes_nonneg d Hwf remainingPieces) as Hsum.
  rewrite <- (n_sum _ _ _ _ _ _ Hnode) in Hsum.
  destruct (Z.leb_spec (boardSize d) coverage); [cbn [fst snd]; lia|].
  destruct (Z.leb_spec (coverage + remainingSum) (bestCoverage best2));
    destruct (Z.leb_spec (coverage + remainingSum) (bestCoverage best2')).
  - cbn [fst snd]. lia.
  - intros _ Hgrows'. cbn [fst snd]. lia.
  - intros Hbound _. cbn [fst snd]. lia.
  - case_bool_decide; [cbn [fst snd]; lia|].
    destruct (selectPiece d (occupancy b) remainingPieces) as [bestRi|] eqn:Hsel;
      [|cbn [fst snd]; lia].
    destruct (selectPiece_lookup _ _ _ _ Hsel) as [chosenPi Hri]. rewrite Hri. simpl default.
    case_bool_decide; [cbn [fst snd]; lia|].
    intros _ _.
    destruct (child_calls_ok d Hwf fuel _ _ _ _ _ _ _ Hnode Hri Hfuel) as [Hrec Hundo].
    eapply (tryPlacements_lower _ chosenPi remainingSum coverage b
              (remainingSum - pieceSize d chosenPi)
              (fun p => coverage + Z.of_nat (m_tLen (meta d p))));
      [apply Hrec|apply Hundo| |done|done|lia].
    intros v bb bb' Hv Hbb Hbb' Hle'.
    destruct (child_nodeOK d Hwf _ _ _ _ _ _ _ _ Hnode Hri Hv) as (Hchild & _ & _).
    pose proof (removeAt_length _ _ _ Hri) as Hrl.
    apply IH; [lia|done|done|done|done].
Qed.

Lemma solveStep_lower (p : nat) (best best' : Best) :
  p ∈ assignedPlacementIndices d -> bestOK d best -> bestOK d best' ->
  bestCoverage best <= Z.max K (bestCoverage best') ->
  bestCoverage (solveStep d false p (initialBoard d, best)).2 <=
  Z.max K (bestCoverage (solveStep d false p (initialBoard d, best')).2).
Proof.
  intros Hin Hb Hb' Hle. destruct (first_nodeOK d Hwf p Hin) as [Hnode _].
  assert (length (remainingAfterFirst d) < S (length (remainingAfterFirst d)))%nat
    as Hfuel by lia.
  pose proof (backtrackN_lower _ _ _ _ _ _ best best' Hfuel Hnode Hb Hb' Hle) as Hm.
  unfold solveStep, backtrack. cbn [fst snd].
  destruct (backtrackN _ _ _ _ _ _ _ (_, best')) as [? [? ?]].
  destruct (backtrackN _ _ _ _ _ _ _ (_, best)) as [? [? ?]]. done.
Qed.

Lemma solveLoop_lower (assigned : list nat) (best best' : Best) :
  (forall p, p ∈ assigned -> p ∈ assignedPlacementIndices d) ->
  bestOK d best -> bestOK d best' ->
  bestCoverage best <= Z.max K (bestCoverage best') ->
  bestCoverage (solveLoop d false assigned (initialBoard d, best)).2 <=
  Z.max K (bestCoverage (solveLoop d false assigned (initialBoard d, best')).2).
Proof.
  revert best best'. induction assigned as [|p rest IH]; intros best best' Hsub Hb Hb' Hle.
  - done.
  - cbn [solveLoop].
    pose proof (solveStep_lower p best best' ltac:(apply Hsub; left) Hb Hb' Hle) as Hm.
    destruct (solveStep_ok d Hwf p best ltac:(apply Hsub; left) Hb) as (E & Hok & _).
    destruct (solveStep_ok d Hwf p best' ltac:(apply Hsub; left) Hb') as (E' & Hok' & _).
    destruct (solveStep d false p (_, best)) as [b1 best1].
    destruct (solveStep d false p (_, best')) as [b1' best1'].
    cbn [fst snd] in *. subst b1 b1'.
    apply IH; [intros; apply Hsub; by right|done|done|done].
Qed.

End Lower.

Section Slices.

Variable d : SolveData.
Hypothesis Hwf : wfData d.

(** The search of a list of first placements that is cut into consecutive
    parts ends with a coverage that the search of one of the parts, started
    afresh, reaches too. *)
Lemma solveLoop_concat_bound (M : Z) (parts : list (list nat)) (best : Best) :
  (forall p, p ∈ concat parts -> p ∈ assignedPlacementIndices d) ->
  bestOK d best -> bestCoverage best <= M ->
  (forall part, part ∈ parts ->
     bestCoverage (solveLoop d false part (initialBoard d, initialBest d)).2 <= M) ->
  bestCoverage (solveLoop d false (concat parts) (initialBoard d, best)).2 <= M.
Proof.
  revert best. induction parts as [|part parts IH]; intros best Hsub Hok Hle Hparts.
  - done.
  - cbn [concat]. rewrite solveLoop_app.
    pose proof (solveLoop_lower d Hwf (bestCoverage best) part best (initialBest d)
                  ltac:(intros; apply Hsub; cbn [concat]; apply elem_of_app; by left)
                  Hok (bestOK_initial d) ltac:(lia)) as Hlow.
    destruct (solveLoop_ok d Hwf part best
                ltac:(intros; apply Hsub; cbn [concat]; apply elem_of_app; by left) Hok)
      as (E & Hok1 & _).
    pose proof (Hparts part ltac:(left)) as Hpart.
    destruct (solveLoop d false part (_, best)) as [b1 best1].
    cbn [fst snd] in *. subst b1.
    apply IH; [intros; apply Hsub; cbn [concat]; apply elem_of_app; by right|done|lia|].
    intros part' Hin. apply Hparts. by right.
Qed.

(** A part of a list that is cut into parts stands between the parts before
    it and the parts after it. *)
Lemma concat_part {A : Type} (parts : list (list A)) (part : list A) :
  part ∈ parts -> exists pre post, concat parts = pre ++ part ++ post.
Proof.
  intros Hin. apply list_elem_of_split in Hin as (l1 & l2 & ->).
  exists (concat l1), (concat l2). by rewrite concat_app.
Qed.

End Slices.

Lemma foldr_max_le (M : Z) (l : list Z) :
  0 <= M -> (forall x, x ∈ l -> x <= M) -> foldr Z.max 0 l <= M.
Proof.
  intros HM. induction l as [|x l IH]; intros Hall; cbn [foldr]; [done|].
  apply Z.max_lub; [apply Hall; left|apply IH; intros; apply Hall; by right].
Qed.

Lemma foldr_max_ge (l : list Z) :
  0 <= foldr Z.max 0 l /\ forall x, x ∈ l -> x <= foldr Z.max 0 l.
Proof.
  induction l as [|x l [IH0 IH]]; cbn [foldr].
  - split; [done|]. intros x Hx. by apply elem_of_nil in Hx.
  - split; [lia|]. intros y Hy. apply elem_of_cons in Hy as [->|Hy]; [lia|].
    specialize (IH y Hy). lia.
Qed.

(** The workers' lists, one after the other, are the placements of the first
    piece. *)
Lemma workers_concat (inp : App.Input) (first : nat) :
  App.pieceOrder inp !! 0%nat = Some first ->
  concat (map assignedPlacementIndices (App.workers inp))
    = placementsOf (tablesOf inp) first.
Proof.
  intros Hfirst. unfold App.workers. rewrite Hfirst.
  set (start := default 0%nat (App.piecePlacementStart inp !! first)).
  set (count := default 0%nat (App.piecePlacementCount inp !! first)).
  assert (placementsOf (tablesOf inp) first = seq start count) as -> by done.
  rewrite spawn_assigned.
  - f_equal; lia.
  - pose proof (placementsPerWorker_covers inp count). lia.
Qed.

Section Shards.

Variable inp : App.Input.
Hypothesis Hinp : wfInput inp.
Variable first : nat.
Hypothesis Hfirst : App.pieceOrder inp !! 0%nat = Some first.

(** The placements of the first piece, and the worker that is given all of
    them. *)
Local Abbreviation whole := (placementsOf (tablesOf inp) first).
Local Abbreviation d1 := (App.startData inp 0 whole).

Lemma whole_wf : wfData d1.
Proof.
  apply startData_wf; [done|]. intros p Hp. exists first. split; [done|exact Hp].
Qed.

(** The search of a worker reads the tables only: its number and the list it
    is given do not enter the search of a list of first placements. *)
Lemma shardCoverage_solveLoop (i : nat) (part : list nat) :
  shardCoverage inp i part
  = bestCoverage (solveLoop d1 false part (initialBoard d1, initialBest d1)).2.
Proof. reflexivity. Qed.

(** However the placements of the first piece are cut into consecutive parts,
    the largest coverage reported by the workers is the coverage that the
    search of the whole list reports. *)
Lemma shards_cover (shards : list (nat * list nat)) :
  concat (map snd shards) = whole ->
  foldr Z.max 0 (map (fun s : nat * list nat => shardCoverage inp s.1 s.2) shards)
  = bestCoverage (solveLoop d1 false whole (initialBoard d1, initialBest d1)).2.
Proof.
  intros Hcat.
  destruct (solveLoop_ok d1 whole_wf whole (initialBest d1) (fun p H => H)
              (bestOK_initial d1)) as (_ & _ & Hzero & _).
  change (bestCoverage (initialBest d1)) with 0 in Hzero.
  destruct (foldr_max_ge
              (map (fun s : nat * list nat => shardCoverage inp s.1 s.2) shards))
    as [Hnonneg Hge].
  apply Z.le_antisymm.
  - apply foldr_max_le; [done|]. intros x Hx.
    apply (list_elem_of_fmap (fun s : nat * list nat => shardCoverage inp s.1 s.2)) in Hx
      as (s & -> & Hs).
    rewrite shardCoverage_solveLoop.
    destruct (concat_part (map snd shards) s.2
                ltac:(by apply (list_elem_of_fmap_2 snd))) as (pre & post & Hsplit).
    rewrite Hcat in Hsplit.
    pose proof (solveLoop_part d1 whole_wf pre s.2 post
                  ltac:(intros p Hp; rewrite <- Hsplit in Hp; exact Hp)) as Hpart.
    by rewrite <- Hsplit in Hpart.
  - pose proof (solveLoop_concat_bound d1 whole_wf
                  (foldr Z.max 0
                     (map (fun s : nat * list nat => shardCoverage inp s.1 s.2) shards))
                  (map snd shards) (initialBest d1)
                  ltac:(intros p Hp; rewrite Hcat in Hp; exact Hp)
                  (bestOK_initial d1) Hnonneg) as Hbound.
    rewrite Hcat in Hbound. apply Hbound.
    intros part Hpart. apply (list_elem_of_fmap snd) in Hpart as (s & -> & Hs).
    rewrite <- (shardCoverage_solveLoop s.1). apply Hge.
    by apply (list_elem_of_fmap_2 (fun s : nat * list nat => shardCoverage inp s.1 s.2)).
Qed.

End Shards.

(** The coverage of a completed run is the largest coverage reported. *)
Lemma final_coverage_max (inp : App.Input) (arrived : list Complete) (g : App.Global) :
  arrived ≡ₚ App.reports inp ->
  App.final inp arrived = Some g ->
  App.workers inp <> [] /\
  App.bestCoverage g
  = foldr Z.max 0 (map (fun dd => c_coverage (Worker.onStart dd)) (App.workers inp)).
Proof.
  intros Hperm Hfinal. apply final_Some in Hfinal as [-> Hne].
  split.
  - intros Hnil. unfold App.reports in Hperm. rewrite Hnil in Hperm.
    by apply Permutation_nil_r in Hperm.
  - unfold App.aggregate. rewrite foldl_onComplete_max.
    change (App.bestCoverage App.initialGlobal) with 0.
    rewrite (foldr_max_Permutation 0 _ (map c_coverage (App.reports inp)))
      by (by apply fmap_Permutation).
    unfold App.reports. by rewrite map_map.
Qed.

(** C8 — the run with one worker, which searches the whole placement list of
    the first piece, and the run on any number of workers, which searches
    consecutive parts of the list, report the same best coverage, whatever the
    order in which the reports arrive: the single run finds at least what the
    sharded run finds, and the sharding loses nothing of what the single run
    finds. The same holds for every way of cutting the list into consecutive
    parts (empty parts included), not only the one chosen by the page. The
    common coverage is at least the size of the piece that stands first in the
    static order. *)
Theorem single_worker_covers_sharded (inp : App.Input)
    (arrived1 arrivedN : list Complete) (g1 gN : App.Global) :
  wfInput inp ->
  arrived1 ≡ₚ App.reports (single inp) ->
  arrivedN ≡ₚ App.reports inp ->
  App.final (single inp) arrived1 = Some g1 ->
  App.final inp arrivedN = Some gN ->
  App.bestCoverage gN <= App.bestCoverage g1 /\
  App.bestCoverage g1 <= App.bestCoverage gN /\
  (forall (first : nat) (shards : list (nat * list nat)),
     App.pieceOrder inp !! 0%nat = Some first ->
     concat (map snd shards) = placementsOf (tablesOf inp) first ->
     foldr Z.max 0 (map (fun s : nat * list nat => shardCoverage inp s.1 s.2) shards)
     = App.bestCoverage g1) /\
  exists first pc,
    App.pieceOrder inp !! 0%nat = Some first /\ App.pieces inp !! first = Some pc /\
    Z.of_nat (length (App.cells pc)) <= App.bestCoverage gN.
Proof.
  intros Hinp Hperm1 HpermN Hfinal1 HfinalN.
  destruct (final_coverage_max (single inp) arrived1 g1 Hperm1 Hfinal1) as [Hne1 Hg1].
  destruct (final_coverage_max inp arrivedN gN HpermN HfinalN) as [HneN HgN].
  (* the single worker *)
  destruct (App.workers (single inp)) as [|dd1 ws] eqn:Hws; [done|].
  destruct (workers_single inp dd1 ltac:(rewrite Hws; left))
    as (first & Hfirst & Hw1 & Hd1eq).
  assert (placementsOf dd1 first = placementsOf (tablesOf inp) first) as Hpl
    by (rewrite Hd1eq; reflexivity).
  rewrite Hpl in Hd1eq.
  assert (App.bestCoverage g1
          = foldr Z.max 0 (map (fun s : nat * list nat => shardCoverage inp s.1 s.2)
                               [(0%nat, placementsOf (tablesOf inp) first)])) as Hsingle.
  { rewrite Hws in Hw1. injection Hw1 as ->.
    rewrite Hg1. cbn [map foldr]. rewrite Hd1eq. reflexivity. }
  rewrite (shards_cover inp Hinp first Hfirst) in Hsingle
    by (cbn [map concat snd]; apply app_nil_r).
  (* the workers of the sharded run *)
  assert (App.bestCoverage gN
          = foldr Z.max 0
              (map (fun s : nat * list nat => shardCoverage inp s.1 s.2)
                   (map (fun dd => (workerId dd, assignedPlacementIndices dd))
                        (App.workers inp)))) as Hsharded.
  { rewrite HgN. f_equal. rewrite map_map. apply map_ext_in. intros dd Hdd.
    apply list_elem_of_In in Hdd.
    destruct (workers_parts inp dd Hdd) as (first' & i & pre & post & _ & Heq & _).
    cbn [fst snd]. rewrite Heq at 1. unfold shardCoverage.
    rewrite Heq at 2. reflexivity. }
  rewrite (shards_cover inp Hinp first Hfirst) in Hsharded
    by (rewrite map_map; cbn [snd]; by apply workers_concat).
  split; [lia|]. split; [lia|]. split.
  - intros first' shards Hfirst' Hcat.
    assert (first' = first) as -> by congruence.
    rewrite Hsingle. by apply shards_cover.
  - destruct (App.workers inp) as [|dd ws'] eqn:HwsN; [done|].
    assert (dd ∈ App.workers inp) as Hdd by (rewrite HwsN; left).
    destruct (report_bounds inp Hinp dd Hdd) as (_ & _ & _ & first' & pc & Hf & Hpc & Hsize).
    exists first', pc. split; [done|]. split; [done|].
    etrans; [exact Hsize|]. rewrite HgN. cbn [map foldr]. lia.
Qed.

(** [twoByTwo] on three workers against [twoByTwo] on one: both report the
    coverage 4. *)
Lemma single_worker_covers_sharded_witness :
  wfInput twoByTwo /\
  length (App.workers twoByTwo) = 3%nat /\
  length (App.workers (single twoByTwo)) = 1%nat /\
  App.bestCoverage (App.aggregate twoByTwo (App.reports twoByTwo)) = 4 /\
  App.bestCoverage (App.aggregate twoByTwo (App.reports twoByTwo))
    <= App.bestCoverage (App.aggregate (single twoByTwo) (App.reports (single twoByTwo))) /\
  App.bestCoverage (App.aggregate (single twoByTwo) (App.reports (single twoByTwo)))
    <= App.bestCoverage (App.aggregate twoByTwo (App.reports twoByTwo)).
Proof.
  split; [exact wfInput_twoByTwo|]. split; [by vm_compute|]. split; [by vm_compute|].
  split; [by vm_compute|].
  destruct (single_worker_covers_sharded twoByTwo
              (App.reports (single twoByTwo)) (App.reports twoByTwo)
              (App.aggregate (single twoByTwo) (App.reports (single twoByTwo)))
              (App.aggregate twoByTwo (App.reports twoByTwo))
              wfInput_twoByTwo (Permutation_refl _) (Permutation_refl _)
              ltac:(by vm_compute) ltac:(by vm_compute)) as (H1 & H2 & _).
  split; [exact H1|exact H2].
Defined.

(* ===================================================================== *)
(** * Part 30 — the signature is canonical                                *)
(* ===================================================================== *)

(** A signature is sorted by cell index, whatever the solution. *)
Lemma sortByCell_ordered (l : Signature) :
  ordered (fun a b : nat * Z => (a.1 <= b.1)%nat) (sortByCell l).
Proof.
  apply (stableSort_ordered (fun a b : nat * Z => (a.1 <=? b.1)%nat)
           (fun a b : nat * Z => (a.1 <= b.1)%nat) (fun _ _ => True)).
  - intros x y _ Hle. by apply Nat.leb_le.
  - intros x y Hle. apply Nat.leb_gt in Hle. lia.
  - intros x y z ? ?. lia.
  - intros i j a b _ _ _. done.
Qed.

(** Where no cell is listed twice the order is strict. *)
Lemma ordered_strict (l : Signature) :
  NoDup (map fst l) ->
  ordered (fun a b : nat * Z => (a.1 <= b.1)%nat) l ->
  ordered (fun a b : nat * Z => (a.1 < b.1)%nat) l.
Proof.
  intros Hnd Hord i j a b Hij Hi Hj.
  specialize (Hord i j a b Hij Hi Hj). cbn beta in Hord.
  assert (a.1 <> b.1); [|lia]. intros Heq.
  assert (i = j); [|lia].
  apply (NoDup_lookup (map fst l) i j a.1 Hnd).
  - change (map fst l) with (fst <$> l). by rewrite list_lookup_fmap, Hi.
  - change (map fst l) with (fst <$> l). by rewrite list_lookup_fmap, Hj, Heq.
Qed.

(** Two lists in strict order of their cells that hold the same pairs are the
    same list. *)
Lemma ordered_strict_unique (l1 l2 : Signature) :
  ordered (fun a b : nat * Z => (a.1 < b.1)%nat) l1 ->
  ordered (fun a b : nat * Z => (a.1 < b.1)%nat) l2 ->
  (forall x, x ∈ l1 <-> x ∈ l2) -> l1 = l2.
Proof.
  revert l2. induction l1 as [|a l1 IH]; intros l2 H1 H2 Hsame.
  - destruct l2 as [|b l2]; [done|].
    exfalso. apply (elem_of_nil b). apply Hsame. left.
  - destruct l2 as [|b l2].
    { exfalso. apply (elem_of_nil a). apply Hsame. left. }
    apply ordered_cons in H1 as [Ha H1]. apply ordered_cons in H2 as [Hb H2].
    rewrite Forall_forall in Ha, Hb.
    assert (a = b) as ->.
    { pose proof (proj1 (Hsame a) ltac:(left)) as Hab.
      pose proof (proj2 (Hsame b) ltac:(left)) as Hba.
      apply elem_of_cons in Hab as [->|Hab]; [done|].
      apply elem_of_cons in Hba as [->|Hba]; [done|].
      specialize (Ha b Hba). specialize (Hb a Hab). cbn beta in Ha, Hb. lia. }
    f_equal. apply IH; [done|done|].
    intros x. split; intros Hx.
    + pose proof (proj1 (Hsame x) ltac:(by right)) as Hx'.
      apply elem_of_cons in Hx' as [->|Hx']; [|done].
      specialize (Ha b Hx). cbn beta in Ha. lia.
    + pose proof (proj2 (Hsame x) ltac:(by right)) as Hx'.
      apply elem_of_cons in Hx' as [->|Hx']; [|done].
      specialize (Hb b Hx). cbn beta in Hb. lia.
Qed.

(** The cells of a worker's signature are the cells of the solution. *)
Lemma cellToPiece_cells (d : SolveData) (sol : list Item) :
  map fst (Worker.cellToPiece d sol) = cellsOf d sol.
Proof.
  induction sol as [|it sol IH]; [done|].
  unfold Worker.cellToPiece, cellsOf in *. cbn [flat_map].
  rewrite map_app, IH. f_equal. rewrite map_map. cbn [fst]. apply map_id.
Qed.

(** The pairs of a signature are the covering that the replay gives. *)
Lemma signature_covers (inp : App.Input) (sol : list Exported) (c : nat) (pid : Z) :
  (c, pid) ∈ App.getSolutionCellSignature inp sol <-> covers inp sol c pid.
Proof.
  unfold App.getSolutionCellSignature, sortByCell, App.cellToPiece, covers.
  rewrite stableSort_elem_of, flat_map_bind, list_elem_of_bind.
  split.
  - intros (e & Hin & He). apply list_elem_of_omap in Hin as (t & Ht & Hidx).
    destruct (App.cellIndex inp t) as [c'|] eqn:Hc; [|done].
    injection Hidx as -> Hp. by exists e, t.
  - intros (e & t & He & Hp & Ht & Hc). exists e. split; [|done].
    apply list_elem_of_omap. exists t. split; [done|]. by rewrite Hc, Hp.
Qed.

Section Canonical.

Variable inp : App.Input.
Hypothesis Hinp : wfInput inp.

Local Abbreviation sig := (App.getSolutionCellSignature inp).

(** No solution that a worker reports lists a cell twice. *)
Lemma reported_cells_NoDup (rep : Complete) (sol : list Exported) :
  rep ∈ App.reports inp -> sol ∈ c_solutions rep -> NoDup (map fst (sig sol)).
Proof.
  unfold App.reports. intros Hin Hsol.
  apply (list_elem_of_fmap Worker.onStart) in Hin as (dd & -> & Hdd).
  pose proof (workers_wf inp Hinp dd Hdd) as Hwf.
  destruct (workers_parts inp dd Hdd) as (first & i & pre & post & _ & Heq & _).
  destruct (solve_ok dd Hwf) as ((sols & Hsols & _ & Hall) & _).
  unfold Worker.onStart in Hsol. rewrite Hsols in Hsol.
  apply (list_elem_of_fmap (exportSolution dd)) in Hsol as (s0 & -> & Hs0).
  destruct (Hall s0 Hs0) as [Hok _].
  assert (solOK (App.startData inp i (assignedPlacementIndices dd)) s0) as Hok'
    by (by rewrite <- Heq).
  rewrite Heq at 1. rewrite export_signature by done. rewrite <- Heq.
  unfold Worker.getSolutionCellSignature, sortByCell.
  change (map fst ?l) with (fst <$> l).
  rewrite (fmap_Permutation fst _ _ (stableSort_Permutation _ _)).
  change (fst <$> ?l) with (map fst l). rewrite cellToPiece_cells.
  by destruct Hok as (_ & Hnd & _).
Qed.

Lemma final_cells_NoDup (arrived : list Complete) (sol : list Exported) :
  arrived ≡ₚ App.reports inp ->
  sol ∈ App.topSolutions (App.aggregate inp arrived) -> NoDup (map fst (sig sol)).
Proof.
  intros Hperm Hsol. unfold App.aggregate in Hsol.
  apply foldl_onComplete_elem in Hsol as [Hsol|(rep & Hrep & Hsol)];
    [by apply elem_of_nil in Hsol|].
  apply (reported_cells_NoDup rep); [|done]. by apply (reports_elem inp arrived).
Qed.

End Canonical.

(** C5 — in the final list of a completed run no two solutions have the same
    signature, whatever the order in which the reports arrived, and no report
    of a worker lists a signature twice. The signature is canonical: its
    pairs are the covering of the solution (cell index, id of the piece on
    it), it is sorted by cell index, strictly for a solution of the final
    list, and so two solutions of the final list have the same signature
    exactly when they cover the same cells with the same pieces; no covering
    stands twice in the final list. Sorting a signature again leaves it as it
    is, for the coordinator's function and for the worker's. *)
Theorem final_signatures_distinct (inp : App.Input) (arrived : list Complete)
    (g : App.Global) :
  wfInput inp ->
  arrived ≡ₚ App.reports inp ->
  App.final inp arrived = Some g ->
  NoDup (map (App.getSolutionCellSignature inp) (App.topSolutions g)) /\
  (forall rep, rep ∈ arrived ->
     NoDup (map (App.getSolutionCellSignature inp) (c_solutions rep))) /\
  (forall sol c pid,
     (c, pid) ∈ App.getSolutionCellSignature inp sol <-> covers inp sol c pid) /\
  (forall sol, ordered (fun a b : nat * Z => (a.1 <= b.1)%nat)
                       (App.getSolutionCellSignature inp sol)) /\
  (forall sol, sol ∈ App.topSolutions g ->
     ordered (fun a b : nat * Z => (a.1 < b.1)%nat)
             (App.getSolutionCellSignature inp sol)) /\
  (forall sol1 sol2, sol1 ∈ App.topSolutions g -> sol2 ∈ App.topSolutions g ->
     (sameCovering inp sol1 sol2 <->
      App.getSolutionCellSignature inp sol1 = App.getSolutionCellSignature inp sol2)) /\
  (forall i j sol1 sol2,
     App.topSolutions g !! i = Some sol1 -> App.topSolutions g !! j = Some sol2 ->
     sameCovering inp sol1 sol2 -> i = j) /\
  (forall sol, sortByCell (App.getSolutionCellSignature inp sol)
               = App.getSolutionCellSignature inp sol) /\
  (forall d sol, sortByCell (Worker.getSolutionCellSignature d sol)
                 = Worker.getSolutionCellSignature d sol).
Proof.
  intros Hinp Hperm Hfinal. apply final_Some in Hfinal as [-> _].
  destruct (aggregate_ok inp Hinp arrived Hperm) as [Hnd _].
  assert (forall sol, sol ∈ App.topSolutions (App.aggregate inp arrived) ->
            ordered (fun a b : nat * Z => (a.1 < b.1)%nat)
                    (App.getSolutionCellSignature inp sol)) as Hstrict.
  { intros sol Hsol. apply ordered_strict; [|apply sortByCell_ordered].
    by apply (final_cells_NoDup inp Hinp arrived). }
  assert (forall sol1 sol2,
            sol1 ∈ App.topSolutions (App.aggregate inp arrived) ->
            sol2 ∈ App.topSolutions (App.aggregate inp arrived) ->
            sameCovering inp sol1 sol2 ->
            App.getSolutionCellSignature inp sol1
            = App.getSolutionCellSignature inp sol2) as Hcanon.
  { intros sol1 sol2 H1 H2 Hsame.
    apply ordered_strict_unique; [by apply Hstrict|by apply Hstrict|].
    intros [c pid]. rewrite !signature_covers. apply Hsame. }
  split; [done|]. split; [|split; [|split; [|split; [|split; [|split; [|split]]]]]].
  - intros rep Hrep.
    by destruct (report_ok inp Hinp rep (reports_elem inp arrived Hperm rep Hrep)).
  - intros sol c pid. apply signature_covers.
  - intros sol. apply sortByCell_ordered.
  - exact Hstrict.
  - intros sol1 sol2 H1 H2. split; [by apply Hcanon|].
    intros Heq c pid. by rewrite <- !signature_covers, Heq.
  - intros i j sol1 sol2 Hi Hj Hsame.
    apply (NoDup_lookup _ i j (App.getSolutionCellSignature inp sol1) Hnd).
    + change (map ?f ?l) with (f <$> l). by rewrite list_lookup_fmap, Hi.
    + change (map ?f ?l) with (f <$> l). rewrite list_lookup_fmap, Hj. cbn.
      f_equal. symmetry. apply Hcanon; [by eapply list_elem_of_lookup_2..|done].
  - intros sol. apply sortByCell_idempotent.
  - intros d sol. apply sortByCell_idempotent.
Qed.

(** The final list of [twoByTwo]: no repeated signature, and the signature
    of its first solution pairs the four cells, in order, with the pieces
    that cover them. *)
Lemma final_signatures_distinct_witness :
  wfInput twoByTwo /\
  App.final twoByTwo (App.reports twoByTwo)
    = Some (App.aggregate twoByTwo (App.reports twoByTwo)) /\
  NoDup (map (App.getSolutionCellSignature twoByTwo)
             (App.topSolutions (App.aggregate twoByTwo (App.reports twoByTwo)))) /\
  (forall i j sol1 sol2,
     App.topSolutions (App.aggregate twoByTwo (App.reports twoByTwo)) !! i = Some sol1 ->
     App.topSolutions (App.aggregate twoByTwo (App.reports twoByTwo)) !! j = Some sol2 ->
     sameCovering twoByTwo sol1 sol2 -> i = j).
Proof.
  split; [exact wfInput_twoByTwo|]. split; [by vm_compute|].
  destruct (final_signatures_distinct twoByTwo (App.reports twoByTwo)
              (App.aggregate twoByTwo (App.reports twoByTwo))
              wfInput_twoByTwo (Permutation_refl _) ltac:(by vm_compute))
    as (H1 & _ & _ & _ & _ & _ & H7 & _).
  split; [exact H1|exact H7].
Defined.

(* ===================================================================== *)
(** * Part 31 — the two copies of the hex functions and the replay        *)
(* ===================================================================== *)

(** The worker's rotation by [k] is the library's rotation by [- k]. *)
Lemma Worker_rotateHex_neg (h : Hex) (k : Z) :
  Worker.rotateHex h k = HexGrid.rotateHex h (- k).
Proof.
  assert (forall h', Worker.rotateHex (HexGrid.rotateHex h' k) k = h') as Hinv.
  { intros h'. rewrite Worker_rotateHex_axial, toAxial_rotateHex.
    rewrite Worker_iter_HexGrid_iter. apply ofAxial_toAxial. }
  rewrite <- (Hinv (HexGrid.rotateHex h (- k))) at 1.
  rewrite HexGrid_rotateHex_add.
  replace (- k + k) with 0 by lia. by destruct h.
Qed.

(** For a rotation count of 0..5 the two copies give the same cell for every
    offset and anchor exactly at 0 and at 3. *)
Lemma copies_agree_at (rot : Z) :
  0 <= rot <= 5 ->
  ((forall off anchor : Hex,
      Worker.addHex anchor (Worker.rotateHex off rot)
      = HexGrid.addHex anchor (HexGrid.rotateHex off rot)) <->
   rot = 0 \/ rot = 3).
Proof.
  intros Hrot. split.
  - intros Hall. specialize (Hall (mkHex 1 0) (mkHex 0 0)).
    assert (rot = 0 \/ rot = 1 \/ rot = 2 \/ rot = 3 \/ rot = 4 \/ rot = 5)
      as [->|[->|[->|[->|[->| ->]]]]] by lia;
      first [by left | by right | vm_compute in Hall; discriminate].
  - intros [-> | ->] off anchor; rewrite addHex_agree; f_equal;
      rewrite Worker_rotateHex_neg, !HexGrid_rotateHex_axial; reflexivity.
Qed.




(* ===================================================================== *)
(** * Part 32 — translation and its inverse on exact numbers              *)
(* ===================================================================== *)

Lemma half_even_abs (x : Z) : 2 * Z.abs (half_even x) <= Z.abs x + 1.
Proof.
  pose proof (half_even_exact x). pose proof (and1_cases x). lia.
Qed.

Lemma addHex_within (n : Z) (a b : Hex) :
  within n a -> within n b -> within (4 * n) (HexGrid.addHex a b).
Proof.
  destruct a as [qa ra], b as [qb rb]. unfold within, HexGrid.addHex. cbn [q r].
  intros [Hqa Hra] [Hqb Hrb].
  pose proof (half_even_exact qa). pose proof (half_even_exact qb).
  pose proof (half_even_exact (qa + qb)).
  pose proof (and1_cases qa). pose proof (and1_cases qb).
  pose proof (and1_cases (qa + qb)). lia.
Qed.

Lemma subtractHex_within (n : Z) (a b : Hex) :
  within n a -> within n b -> within (4 * n) (HexGrid.subtractHex a b).
Proof.
  destruct a as [qa ra], b as [qb rb]. unfold within, HexGrid.subtractHex. cbn [q r].
  intros [Hqa Hra] [Hqb Hrb].
  pose proof (half_even_exact qa). pose proof (half_even_exact qb).
  pose proof (half_even_exact (qa - qb)).
  pose proof (and1_cases qa). pose proof (and1_cases qb).
  pose proof (and1_cases (qa - qb)). lia.
Qed.

(** X1 — for hexes whose coordinates are at most [2 ^ 50] in absolute value,
    [subtractHex] undoes [addHex] and [addHex] undoes [subtractHex], on either
    argument, although both convert through a parity-dependent offset. The
    sum and the difference of two such hexes have coordinates of at most
    [2 ^ 52]: every number on the way is an integer that a JavaScript number
    holds exactly. In particular the offsets that [loadBoardConfig]
    recomputes from the placed cells are the rotated offsets it started
    from. *)
Theorem addHex_subtractHex_round_trip (a b : Hex) :
  within (2 ^ 50) a -> within (2 ^ 50) b ->
  HexGrid.subtractHex (HexGrid.addHex a b) b = a /\
  HexGrid.subtractHex (HexGrid.addHex a b) a = b /\
  HexGrid.addHex (HexGrid.subtractHex a b) b = a /\
  HexGrid.addHex b (HexGrid.subtractHex a b) = a /\
  within (2 ^ 52) (HexGrid.addHex a b) /\
  within (2 ^ 52) (HexGrid.subtractHex a b) /\
  Forall safeInteger [q (HexGrid.addHex a b); r (HexGrid.addHex a b);
                      q (HexGrid.subtractHex a b); r (HexGrid.subtractHex a b)].
Proof.
  intros Ha Hb.
  pose proof (addHex_within (2 ^ 50) a b Ha Hb) as Hadd.
  pose proof (subtractHex_within (2 ^ 50) a b Ha Hb) as Hsub.
  change (4 * 2 ^ 50) with (2 ^ 52) in Hadd, Hsub.
  split; [by_axial|]. split; [by_axial|]. split; [by_axial|]. split; [by_axial|].
  split; [done|]. split; [done|].
  destruct Hadd as [Haq Har], Hsub as [Hsq Hsr].
  assert (0 < 2 ^ 52) by lia.
  repeat constructor; unfold safeInteger; change (2 ^ 53) with (2 * 2 ^ 52); lia.
Qed.

(** The cells [(3, 1)] and [(1, 2)]. *)
Lemma addHex_subtractHex_round_trip_witness :
  HexGrid.addHex (mkHex 3 1) (mkHex 1 2) = mkHex 4 4 /\
  HexGrid.subtractHex (HexGrid.addHex (mkHex 3 1) (mkHex 1 2)) (mkHex 1 2) = mkHex 3 1.
Proof.
  split; [reflexivity|].
  refine (proj1 (addHex_subtractHex_round_trip (mkHex 3 1) (mkHex 1 2) _ _));
    unfold within; cbn [q r]; lia.
Defined.
